(** * pbnsolve: the search driver of the paint-by-number solver

    A shallow embedding of [solve.c] (release 1.01) and [probe.c] (trunk),
    over the data declarations of [pbnsolve.h].  C [int]s are modelled as
    [Z] (the development covers the executions without signed overflow,
    which is undefined in C), cell pointers as indices into the cell store
    of the solution, and bit strings as [Z] with [Z.testbit]. *)

From Stdlib Require Import ZArith Lia Bool List Finite.
From stdpp Require Import base option list.
Import ListNotations.
Local Open Scope Z_scope.

(** ** Bit strings *)

Module Bits.

(** Modelled from the spec: the macros of [bitstring.h], which is not among
    the sources; a bit string is the set of colours whose bit is 1. *)
Definition bit_test (b : Z) (c : Z) : bool := Z.testbit b c.

Definition bit_set (b : Z) (c : Z) : Z := Z.lor b (Z.shiftl 1 c).

Definition bit_clear (b : Z) (c : Z) : Z := Z.ldiff b (Z.shiftl 1 c).

(** [bit_clearall] zeroes every word of the string. *)
Definition bit_clearall (b : Z) (ncolor : Z) : Z := 0.

Lemma bit_test_set b c c' :
  0 <= c -> 0 <= c' ->
  bit_test (bit_set b c) c' = bit_test b c' || (c' =? c).
Proof.
  intros Hc Hc'. unfold bit_test, bit_set.
  rewrite Z.lor_spec, Z.shiftl_spec by lia.
  destruct (Z.eqb_spec c' c) as [->|Hne].
  - rewrite Z.sub_diag. reflexivity.
  - f_equal. destruct (Z.ltb_spec c' c).
    + apply Z.testbit_neg_r. lia.
    + apply Z.bits_above_log2; simpl; lia.
Qed.

Lemma bit_test_single c c' :
  0 <= c -> 0 <= c' ->
  bit_test (bit_set (bit_clearall 0 0) c) c' = (c' =? c).
Proof.
  intros Hc Hc'. rewrite bit_test_set by lia.
  unfold bit_test, bit_clearall. now rewrite Z.testbit_0_l.
Qed.

Lemma bit_test_clear b c c' :
  0 <= c -> 0 <= c' ->
  bit_test (bit_clear b c) c' = bit_test b c' && negb (c' =? c).
Proof.
  intros Hc Hc'. unfold bit_clear, bit_test.
  rewrite Z.ldiff_spec. f_equal. f_equal.
  change (Z.testbit (Z.shiftl 1 c) c') with (bit_test (Z.shiftl 1 c) c').
  replace (Z.shiftl 1 c) with (bit_set 0 c) by (unfold bit_set; apply Z.lor_0_l).
  rewrite bit_test_set by lia. unfold bit_test. now rewrite Z.testbit_0_l.
Qed.

End Bits.
Import Bits.

(** ** Data model ([pbnsolve.h]) *)

(** A cell: its coordinates [line], the count [n] of colours still possible
    and the bit string [bit] of those colours. *)
Record Cell := mkCell {
  cell_line : list Z;
  cell_n : Z;
  cell_bit : Z }.

(** [may_be(cell,color)] *)
Definition may_be (cell : Cell) (color : Z) : bool := bit_test (cell_bit cell) color.

(** A solution owns the cells; [sol_line] holds the arrays [line[k][i][j]] of
    pointers to them (a pointer is an index into [sol_cells]; the rows and the
    columns point at the same cells).  A line array ends at its NULL, here
    the end of the list, and [n[k]] is the number of lines of direction [k]. *)
Record Solution := mkSolution {
  sol_nset : Z;
  sol_cells : list Cell;
  sol_line : list (list (list nat)) }.

(** A clue: [clue_n] runs with their lengths and colours, and the slack of the
    line.  The [jobindex] field is represented by membership in the job list. *)
Record Clue := mkClue {
  clue_n : Z;
  clue_length : list Z;
  clue_color : list Z;
  slack : Z }.

Record Job := mkJob {
  priority : Z;
  job_dir : Z;
  job_n : Z }.

(** A history entry: the cell that was set, its old [n] and [bit], and
    whether the entry is a branch point.  The list head is the newest. *)
Record Hist := mkHist {
  h_branch : bool;
  h_cell : nat;
  h_n : Z;
  h_bit : Z }.

Record MergeElem := mkMergeElem {
  m_cell : nat;
  maxc : Z;
  m_bit : Z }.

Record Puzzle := mkPuzzle {
  ptype : Z;
  ncolor : Z;
  nset : Z;
  clue : list (list Clue);
  ncells : Z;
  nsolved : Z;
  job : list Job;
  history : list Hist }.

Definition PT_GRID : Z := 0.
Definition D_ROW : Z := 0.
Definition D_COL : Z := 1.
Definition INT_MAX : Z := 2147483647.

Definition set_nsolved (v : Z) (p : Puzzle) : Puzzle :=
  mkPuzzle (ptype p) (ncolor p) (nset p) (clue p) (ncells p) v (job p) (history p).

Definition set_job (v : list Job) (p : Puzzle) : Puzzle :=
  mkPuzzle (ptype p) (ncolor p) (nset p) (clue p) (ncells p) (nsolved p) v (history p).

Definition set_history (v : list Hist) (p : Puzzle) : Puzzle :=
  mkPuzzle (ptype p) (ncolor p) (nset p) (clue p) (ncells p) (nsolved p) (job p) v.

Definition set_clue (v : list (list Clue)) (p : Puzzle) : Puzzle :=
  mkPuzzle (ptype p) (ncolor p) (nset p) v (ncells p) (nsolved p) (job p) (history p).

(** Array indexing by a C [int]. *)
Definition zlookup {A} (l : list A) (i : Z) : option A :=
  if i <? 0 then None else l !! Z.to_nat i.

(** The colours [0 .. ncolor-1] (and the directions [0 .. nset-1]) in loop order. *)
Definition zrange (m : Z) : list Z := map Z.of_nat (seq 0 (Z.to_nat m)).

Definition nullcell : Cell := mkCell [] 0 0.

(** [*cell] *)
Definition deref (sol : Solution) (cell : nat) : Cell :=
  default nullcell (sol_cells sol !! cell).

(** [cell->line[k]] *)
Definition line_of (c : Cell) (k : Z) : Z := default 0 (zlookup (cell_line c) k).

(** [sol->line[k][i][j]], [None] for NULL. *)
Definition line_cell (sol : Solution) (k i j : Z) : option nat :=
  l ← zlookup (sol_line sol) k; r ← zlookup l i; zlookup r j.

(** [sol->n[k]] *)
Definition sol_n (sol : Solution) (k : Z) : Z :=
  Z.of_nat (length (default [] (zlookup (sol_line sol) k))).

(** [puz->clue[k][i]] *)
Definition nullclue : Clue := mkClue 0 [] [] 0.

Definition clue_at (puz : Puzzle) (k i : Z) : Clue :=
  default nullclue (l ← zlookup (clue puz) k; zlookup l i).

(** Assignment through a cell pointer: [cell->n= n; cell->bit= b]. *)
Definition store_cell (sol : Solution) (cell : nat) (n b : Z) : Solution :=
  mkSolution (sol_nset sol)
    (<[cell := mkCell (cell_line (deref sol cell)) n b]> (sol_cells sol))
    (sol_line sol).

(** The number of cells whose possibility count is 1. *)
Definition solved (c : Cell) : bool := cell_n c =? 1.

Fixpoint count_solved_in (l : list Cell) : Z :=
  match l with
  | [] => 0
  | c :: l' => (if solved c then 1 else 0) + count_solved_in l'
  end.

Definition count_solved (sol : Solution) : Z := count_solved_in (sol_cells sol).

(** The number of colours below [ncolor] whose bit is set. *)
Definition count_bits (ncolor : Z) (b : Z) : Z :=
  Z.of_nat (length (List.filter (bit_test b) (zrange ncolor))).

(** The merge list of [merge.c] with its guess number, and the globals that
    the solver modules share: the [merging] and [probing] flags and the probe
    pad, one bit string per cell. *)
Record Merge := mkMerge {
  merge_list : list MergeElem;
  merge_no : Z }.

Record World := mkWorld {
  puz : Puzzle;
  sol : Solution;
  mrg : Merge;
  merging : bool;
  probing : bool;
  probepad : list Z }.

(** The solver state: the world and the instrumentation counters of
    [solve.c], which only [solve.c] and [probe.c] write. *)
Record State := mkState {
  world : World;
  nlines : Z;
  guesses : Z;
  probes : Z;
  merges : Z }.

Definition set_ps (ps : Puzzle * Solution) (w : World) : World :=
  mkWorld (fst ps) (snd ps) (mrg w) (merging w) (probing w) (probepad w).

Definition set_mrg (m : Merge) (w : World) : World :=
  mkWorld (puz w) (sol w) m (merging w) (probing w) (probepad w).

Definition set_merging (b : bool) (w : World) : World :=
  mkWorld (puz w) (sol w) (mrg w) b (probing w) (probepad w).

Definition set_probing (b : bool) (w : World) : World :=
  mkWorld (puz w) (sol w) (mrg w) (merging w) b (probepad w).

Definition set_probepad (v : list Z) (w : World) : World :=
  mkWorld (puz w) (sol w) (mrg w) (merging w) (probing w) v.

Definition set_world (w : World) (s : State) : State :=
  mkState w (nlines s) (guesses s) (probes s) (merges s).

Definition upd_world (f : World -> World) (s : State) : State :=
  set_world (f (world s)) s.

Definition incr_nlines (s : State) : State :=
  mkState (world s) (nlines s + 1) (guesses s) (probes s) (merges s).

Definition incr_guesses (s : State) : State :=
  mkState (world s) (nlines s) (guesses s + 1) (probes s) (merges s).

Definition incr_probes (s : State) : State :=
  mkState (world s) (nlines s) (guesses s) (probes s + 1) (merges s).

Definition incr_merges (s : State) : State :=
  mkState (world s) (nlines s) (guesses s) (probes s) (merges s + 1).

(** The run-time options ([pbnsolve.h] globals set from the command line). *)
Record Config := mkConfig {
  tryharder : bool;
  maybacktrack : bool;
  mayprobe : bool;
  mergeprobe : bool;
  probelevel : Z }.

(** What a call comes to: it returns [rc], the program exits ([exit(1)] or
    [fail]), or the fuel of the model ran out in the state given. *)
Inductive Res : Type :=
| Ret (rc : Z) (s : State)
| Abort (s : State)
| Timeout (s : State).

(** ** Collaborators that are not among the sources

    [job_priority] is the priority [job.c] gives a new job; [left_solve]
    tells whether line [i] of direction [k] has a leftmost placement (the
    result of [line_lro.c]'s function is non-NULL) and reads the colour
    count, the clues and the cells; [apply_lro] runs the line solver on a
    line and is false on a contradiction; [merge_guess], [merge_cancel] and
    [merge_check] are the operations of [merge.c]; [ratecell] and
    [pick_color] are the policies chosen when the program is built
    ([pick_color] gives [None] when it calls [fail]); [logic_solve3] is the
    trunk's [logic_solve(puz,sol,0)] that [probe.c] calls: its result is 0
    when the job list ran empty, negative on a contradiction and positive
    when the puzzle got solved. *)
Class Collaborators := mkCollaborators {
  job_priority : Puzzle -> Z -> Z -> Z;
  left_solve : Z -> list (list Clue) -> Solution -> Z -> Z -> bool;
  apply_lro : World -> Z -> Z -> bool * World;
  merge_guess : Merge -> Merge;
  merge_cancel : Merge -> Merge;
  merge_check : World -> bool * World;
  ratecell : Puzzle -> Solution -> Z -> Z -> Z;
  pick_color : Puzzle -> Solution -> nat -> option Z;
  logic_solve3 : State -> Z * State }.

Section Solver.

Context {collab : Collaborators}.

(** ** The job list and the history ([job.c]) *)

Definition same_line (k i : Z) (j : Job) : bool :=
  (job_dir j =? k) && (job_n j =? i).

(** Modelled from the spec: [add_job] of [job.c] (section 4.2), a no-op
    when the line is already on the list. *)
Definition add_job (puz : Puzzle) (k i : Z) : Puzzle :=
  if existsb (same_line k i) (job puz) then puz
  else set_job (job puz ++ [mkJob (job_priority puz k i) k i]) puz.

(** Modelled from the spec: [add_jobs] of [job.c], which puts every line
    that crosses the cell on the job list. *)
Definition add_jobs (puz : Puzzle) (cell : Cell) : Puzzle :=
  fold_left (fun p k => add_job p k (line_of cell k)) (zrange (nset puz)) puz.

(** The job of highest priority, the earliest one among equals. *)
Fixpoint best_job (l : list Job) : option Job :=
  match l with
  | [] => None
  | j :: l' =>
      match best_job l' with
      | Some b => if priority j <? priority b then Some b else Some j
      | None => Some j
      end
  end.

Fixpoint remove_job (k i : Z) (l : list Job) : list Job :=
  match l with
  | [] => []
  | j :: l' => if same_line k i j then l' else j :: remove_job k i l'
  end.

(** Modelled from the spec: [next_job] of [job.c] (section 4.2) pops the job
    of highest priority and gives its line; [None] when the list is empty
    (the C function returns 0). *)
Definition next_job (puz : Puzzle) : option (Z * Z * Puzzle) :=
  match best_job (job puz) with
  | None => None
  | Some b =>
      Some (job_dir b, job_n b, set_job (remove_job (job_dir b) (job_n b) (job puz)) puz)
  end.

(** Modelled from the spec: [flush_jobs] of [job.c]. *)
Definition flush_jobs (puz : Puzzle) : Puzzle := set_job [] puz.

(** Modelled from the spec: [add_hist] of [job.c] (section 4.4) pushes the
    cell's current [n] and [bit]; an entry that is no branch point is only
    recorded while the history is in use. *)
Definition add_hist (puz : Puzzle) (sol : Solution) (cell : nat) (branch : bool) : Puzzle :=
  if branch || negb (bool_decide (history puz = [])) then
    set_history
      (mkHist branch cell (cell_n (deref sol cell)) (cell_bit (deref sol cell)) :: history puz)
      puz
  else puz.

(** Modelled from the spec: restoring one history entry (section 4.4);
    [nsolved] is decremented when the cell moves away from [n = 1]. *)
Definition restore (e : Hist) (ps : Puzzle * Solution) : Puzzle * Solution :=
  let '(puz, sol) := ps in
  let cur := deref sol (h_cell e) in
  let puz' :=
    if (cell_n cur =? 1) && negb (h_n e =? 1)
    then set_nsolved (nsolved puz - 1) puz else puz in
  (puz', store_cell sol (h_cell e) (h_n e) (h_bit e)).

Fixpoint undo_entries (h : list Hist) (ps : Puzzle * Solution)
  : list Hist * (Puzzle * Solution) :=
  match h with
  | [] => ([], ps)
  | e :: h' =>
      if h_branch e then (h', restore e ps) else undo_entries h' (restore e ps)
  end.

(** Modelled from the spec: [undo(puz,sol,0)] of [job.c], the
    "undo one level" of section 4.4, pops the entries up to and including
    the newest branch point and restores their cells. *)
Definition undo (ps : Puzzle * Solution) : Puzzle * Solution :=
  let '(h, (puz', sol')) := undo_entries (history (fst ps)) ps in
  (set_history h puz', sol').

(** Modelled from the spec: [backtrack] of [job.c] (section 4.4).  The
    entries above the newest branch point are undone; at the branch point
    the cell gets its old colours without the guessed ones (the colours it
    holds at that moment), a change recorded like any other; when no colour
    is left the search goes on to the branch point before.  The result is
    [true] when there is no branch point (the C function returns nonzero). *)
Fixpoint backtrack_entries (h : list Hist) (ps : Puzzle * Solution)
  : bool * (Puzzle * Solution) :=
  match h with
  | [] => (true, (set_history [] (fst ps), snd ps))
  | e :: h' =>
      if h_branch e then
        let guessed := cell_bit (deref (snd ps) (h_cell e)) in
        let '(puz1, sol1) := restore e ps in
        let newbit := Z.ldiff (h_bit e) guessed in
        let newn := count_bits (ncolor puz1) newbit in
        if newn =? 0 then backtrack_entries h' (puz1, sol1)
        else
          let puz2 := add_hist (set_history h' puz1) sol1 (h_cell e) false in
          let sol2 := store_cell sol1 (h_cell e) newn newbit in
          let puz3 := if newn =? 1 then set_nsolved (nsolved puz2 + 1) puz2 else puz2 in
          (false, (add_jobs puz3 (deref sol2 (h_cell e)), sol2))
      else backtrack_entries h' (restore e ps)
  end.

Definition backtrack (ps : Puzzle * Solution) : bool * (Puzzle * Solution) :=
  backtrack_entries (history (fst ps)) (flush_jobs (fst ps), snd ps).

(** ** [solve.c] *)

(** The ad-hoc rating ([GR_ADHOC]) and the simple one ([GR_SIMPLE]). *)
Definition ratecell_simple (puz : Puzzle) (sol : Solution) (i j : Z) : Z := 0.

Definition ratecell_adhoc (puz : Puzzle) (sol : Solution) (i j : Z) : Z :=
  let si := slack (clue_at puz 0 i) + 2 * clue_n (clue_at puz 0 i) in
  let sj := slack (clue_at puz 0 i) + 2 * clue_n (clue_at puz 0 i) in
  if si <? sj then 3 * si + sj else 3 * sj + si.

(** [sol->line[0][i][j]->n]; a NULL pointer reads as the null cell. *)
Definition n_at (sol : Solution) (i j : Z) : Z :=
  match line_cell sol 0 i j with
  | Some p => cell_n (deref sol p)
  | None => cell_n nullcell
  end.

Definition count_neighbors (sol : Solution) (i j : Z) : Z :=
  let count := 0 in
  let count := if (i =? 0) || (n_at sol (i - 1) j =? 1) then count + 1 else count in
  let count := if (i =? sol_n sol 0 - 1) || (n_at sol (i + 1) j =? 1)
               then count + 1 else count in
  let count := if (j =? 0) || (n_at sol i (j - 1) =? 1) then count + 1 else count in
  let count := if bool_decide (line_cell sol 0 i (j + 1) = None) || (n_at sol i (j + 1) =? 1)
               then count + 1 else count in
  count.

(** [pick_a_cell]: the loop state is [maxv], [minrate] and [favcell]; an
    early [return cell] is [inr cell]. *)
Inductive Pick : Type :=
| PickFail
| PickNull
| PickCell (cell : nat).

Definition pick_step (puz : Puzzle) (sol : Solution) (i j : Z) (cell : nat)
    (acc : Z * Z * nat) : Z * Z * nat + nat :=
  let '(maxv, minrate, favcell) := acc in
  if cell_n (deref sol cell) =? 1 then inl acc
  else
    let v := count_neighbors sol i j in
    if v =? 2 * sol_nset sol then inr cell
    else if v >=? maxv then
      let s := ratecell puz sol i j in
      if (v >? maxv) || (s <? minrate) then inl (v, s, cell) else inl acc
    else inl acc.

Fixpoint pick_row (puz : Puzzle) (sol : Solution) (i j : Z) (r : list nat)
    (acc : Z * Z * nat) : Z * Z * nat + nat :=
  match r with
  | [] => inl acc
  | cell :: r' =>
      match pick_step puz sol i j cell acc with
      | inl acc' => pick_row puz sol i (j + 1) r' acc'
      | inr c => inr c
      end
  end.

Fixpoint pick_rows (puz : Puzzle) (sol : Solution) (i : Z) (rows : list (list nat))
    (acc : Z * Z * nat) : Z * Z * nat + nat :=
  match rows with
  | [] => inl acc
  | r :: rows' =>
      match pick_row puz sol i 0 r acc with
      | inl acc' => pick_rows puz sol (i + 1) rows' acc'
      | inr c => inr c
      end
  end.

Definition pick_a_cell (puz : Puzzle) (sol : Solution) : Pick :=
  if negb (ptype puz =? PT_GRID) then PickFail
  else
    match pick_rows puz sol 0 (default [] (zlookup (sol_line sol) 0)) (-1, 0, 0%nat) with
    | inr cell => PickCell cell
    | inl (maxv, _, favcell) => if maxv =? -1 then PickNull else PickCell favcell
    end.

(** [pick_color], as built with [GC_MAX] and with [GC_MIN]; [None] is the
    call of [fail]. *)
Definition pick_color_max (puz : Puzzle) (so : Solution) (cell : nat) : option Z :=
  let c :=
    default (-1) (List.find (may_be (deref so cell)) (rev (zrange (ncolor puz)))) in
  if c <=? 0 then None else Some c.

Definition pick_color_min (puz : Puzzle) (so : Solution) (cell : nat) : option Z :=
  let c :=
    default (ncolor puz) (List.find (may_be (deref so cell)) (zrange (ncolor puz))) in
  if c >=? ncolor puz - 1 then None else Some c.

(** [*sol->line[0][i][j]]; a NULL pointer reads as the null cell. *)
Definition cell_at (sol : Solution) (i j : Z) : Cell :=
  match line_cell sol 0 i j with
  | Some p => deref sol p
  | None => nullcell
  end.

(** [pick_color], as built with [GC_CONTRAST]: the number [n] of the four
    sides of the cell at ([i],[j]) on which the colour [c] stands out; a
    side at the edge counts for every colour but the background. *)
Definition contrast (sol : Solution) (i j c : Z) : Z :=
  let n := 0 in
  let n :=
    if i >? 0 then (if negb (may_be (cell_at sol (i - 1) j) c) then n + 1 else n)
    else if negb (c =? 0) then n + 1 else n in
  let n :=
    if i <? sol_n sol 0 - 2 then (if negb (may_be (cell_at sol (i + 1) j) c) then n + 1 else n)
    else if negb (c =? 0) then n + 1 else n in
  let n :=
    if j >? 0 then (if negb (may_be (cell_at sol i (j - 1)) c) then n + 1 else n)
    else if negb (c =? 0) then n + 1 else n in
  let n :=
    if j <? sol_n sol 1 - 2 then (if negb (may_be (cell_at sol i (j + 1)) c) then n + 1 else n)
    else if negb (c =? 0) then n + 1 else n in
  n.

(** The body of the loop over the colours: [bestc] (with [None] while it is
    not initialised) and [bestn]. *)
Definition contrast_step (sol : Solution) (cell : nat) (i j : Z) (acc : option Z * Z) (c : Z)
    : option Z * Z :=
  if may_be (deref sol cell) c then
    let n := contrast sol i j c in
    if n >? snd acc then (Some c, n) else acc
  else acc.

(** The result is [None] when [bestc] is returned without having been set. *)
Definition pick_color_contrast (puz : Puzzle) (sol : Solution) (cell : nat) : option Z :=
  let i := line_of (deref sol cell) 0 in
  let j := line_of (deref sol cell) 1 in
  fst (fold_left (contrast_step sol cell i j) (zrange (ncolor puz)) (None, -1)).

(** [pick_color], as built with [GC_RAND].  [rand k] is what the call
    number [k] of [rand()] returns, a value from 0 to [RAND_MAX]; the loop
    state is the number of calls made, [bestc] ([None] while it is not
    initialised) and [n]. *)
Definition rand_step (RAND_MAX : Z) (rand : nat -> Z) (sol : Solution) (cell : nat)
    (acc : nat * option Z * Z) (c : Z) : nat * option Z * Z :=
  let '(k, bestc, n) := acc in
  if may_be (deref sol cell) c then
    let n := n + 1 in
    if rand k <? RAND_MAX ÷ n then (S k, Some c, n) else (S k, bestc, n)
  else acc.

(** The result is [None] for the call of [fail], and [Some None] when
    [bestc] is returned without having been set. *)
Definition pick_color_rand (RAND_MAX : Z) (rand : nat -> Z) (puz : Puzzle) (sol : Solution)
    (cell : nat) : option (option Z) :=
  let '(_, bestc, n) :=
    fold_left (rand_step RAND_MAX rand sol cell) (zrange (ncolor puz)) (O, None, 0) in
  if n <=? 1 then None else Some bestc.

(** [try_everything]: is there a line crossing the cell that has no
    placement (the loop over [k] stops at the first one). *)
Definition line_fails (puz : Puzzle) (sol : Solution) (cell : nat) : bool :=
  existsb (fun k => negb (left_solve (ncolor puz) (clue puz) sol k (line_of (deref sol cell) k)))
    (zrange (nset puz)).

(** The loop over the colours of one cell; the result is the puzzle, the
    solution with the cell as last tried, and [realbit], [realn] and
    [hits] ([goto celldone] ends the loop). *)
Fixpoint try_colors (cs : list Z) (puz : Puzzle) (sol : Solution) (cell : nat)
    (realbit realn hits : Z) : Puzzle * Solution * (Z * Z * Z) :=
  match cs with
  | [] => (puz, sol, (realbit, realn, hits))
  | c :: cs' =>
      if negb (bit_test realbit c) then try_colors cs' puz sol cell realbit realn hits
      else
        let sol1 :=
          store_cell sol cell 1
            (bit_set (bit_clearall (cell_bit (deref sol cell)) (ncolor puz)) c) in
        if line_fails puz sol1 cell then
          let hits1 := hits + 1 in
          let realbit1 := bit_clear realbit c in
          let realn1 := realn - 1 in
          let puz1 := add_jobs puz (deref sol1 cell) in
          if realn1 =? 1 then (set_nsolved (nsolved puz1 + 1) puz1, sol1, (realbit1, realn1, hits1))
          else try_colors cs' puz1 sol1 cell realbit1 realn1 hits1
        else try_colors cs' puz sol1 cell realbit realn hits
  end.

Definition try_cell (puz : Puzzle) (sol : Solution) (hits : Z) (cell : nat)
    : Puzzle * Solution * Z :=
  if cell_n (deref sol cell) =? 1 then (puz, sol, hits)
  else
    let realbit := cell_bit (deref sol cell) in
    let realn := cell_n (deref sol cell) in
    let '(puz1, sol1, (realbit1, realn1, hits1)) :=
      try_colors (zrange (ncolor puz)) puz sol cell realbit realn hits in
    (puz1, store_cell sol1 cell realn1 realbit1, hits1).

Definition try_cells (cells : list nat) (puz : Puzzle) (sol : Solution) (hits : Z)
    : Puzzle * Solution * Z :=
  fold_left (fun '(p, s, h) cell => try_cell p s h cell) cells (puz, sol, hits).

(** The cells in the order of the two outer loops: the rows [line[0][i]],
    each up to its NULL. *)
Definition all_cells (sol : Solution) : list nat :=
  concat (default [] (zlookup (sol_line sol) 0)).

Definition try_everything (puz : Puzzle) (sol : Solution) : Z * (Puzzle * Solution) :=
  let '(puz1, sol1, hits) := try_cells (all_cells sol) puz sol 0 in
  (hits, (puz1, sol1)).

Definition guess_cell (puz : Puzzle) (sol : Solution) (cell : nat) (c : Z)
    : Puzzle * Solution :=
  let puz1 := add_hist puz sol cell true in
  let sol1 :=
    store_cell sol cell 1
      (bit_set (bit_clearall (cell_bit (deref sol cell)) (ncolor puz1)) c) in
  let puz2 := set_nsolved (nsolved puz1 + 1) puz1 in
  (add_jobs puz2 (deref sol1 cell), sol1).

(** [logic_solve]: the result of the loop, or the state in which the fuel
    ran out. *)
Inductive LRes : Type :=
| LDone (rc : Z) (s : State)
| LTimeout (s : State).

Fixpoint logic_solve (fuel : nat) (s : State) : LRes :=
  match fuel with
  | O => LTimeout s
  | S f =>
      match next_job (puz (world s)) with
      | None => LDone 1 s
      | Some (dir, i, puz') =>
          let s1 := incr_nlines (upd_world (set_ps (puz', sol (world s))) s) in
          match apply_lro (world s1) dir i with
          | (false, w) => LDone 0 (set_world w s1)
          | (true, w) => logic_solve f (set_world w s1)
          end
      end
  end.

(** The local variables of [solve] that live across iterations of its
    loop. *)
Record Locals := mkLocals {
  l_probing : bool;
  l_i : Z;
  l_j : Z;
  l_c : Z;
  besti : Z;
  bestj : Z;
  bestc : Z;
  bestnleft : Z }.

Definition locals0 : Locals := mkLocals false 0 0 0 0 0 0 0.

Definition set_l_probing (b : bool) (lv : Locals) : Locals :=
  mkLocals b (l_i lv) (l_j lv) (l_c lv) (besti lv) (bestj lv) (bestc lv) (bestnleft lv).

Definition set_ijc (i j c : Z) (lv : Locals) : Locals :=
  mkLocals (l_probing lv) i j c (besti lv) (bestj lv) (bestc lv) (bestnleft lv).

Definition set_best (i j c nleft : Z) (lv : Locals) : Locals :=
  mkLocals (l_probing lv) (l_i lv) (l_j lv) (l_c lv) i j c nleft.

(** On a state: the calls of the functions above. *)
Definition st_guess_cell (cell : nat) (c : Z) (s : State) : State :=
  upd_world (fun w => set_ps (guess_cell (puz w) (sol w) cell c) w) s.

Definition st_undo (s : State) : State :=
  upd_world (fun w => set_ps (undo (puz w, sol w)) w) s.

Definition st_backtrack (s : State) : bool * State :=
  let r := backtrack (puz (world s), sol (world s)) in
  (fst r, upd_world (set_ps (snd r)) s).

Definition st_merge_guess (s : State) : State :=
  upd_world (fun w => set_mrg (merge_guess (mrg w)) w) s.

Definition st_merge_cancel (s : State) : State :=
  upd_world (fun w => set_mrg (merge_cancel (mrg w)) w) s.

Definition st_merge_check (s : State) : bool * State :=
  let r := merge_check (world s) in (fst r, set_world (snd r) s).

Definition st_try_everything (s : State) : Z * State :=
  let r := try_everything (puz (world s)) (sol (world s)) in
  (fst r, upd_world (set_ps (snd r)) s).

(** The first colour from [c] on that the cell may have:
    [for (; c < puz->ncolor; c++) if (may_be(cell, c))]. *)
Definition next_color (ncolor : Z) (cell : Cell) (c : Z) : option Z :=
  List.find (fun c' => (c <=? c') && may_be cell c') (zrange ncolor).

(** The scan for the next cell to probe on, from the position [i], [j],
    [c] of the locals. *)
Inductive ScanRes : Type :=
| ScanProbe (s : State) (lv : Locals) (cell : nat)
| ScanMerge (s : State) (lv : Locals)
| ScanDone (s : State) (lv : Locals)
| ScanTimeout (s : State).

Fixpoint scan (fuel : nat) (s : State) (lv : Locals) : ScanRes :=
  match fuel with
  | O => ScanTimeout s
  | S f =>
      let so := sol (world s) in
      let i := l_i lv in
      let j := l_j lv in
      if i <? sol_n so 0 then
        match line_cell so 0 i j with
        | None => scan f s (set_ijc (i + 1) 0 (l_c lv) lv)
        | Some cell =>
            if cell_n (deref so cell) <? 2 then scan f s (set_ijc i (j + 1) (l_c lv) lv)
            else
              let neigh := count_neighbors so i j in
              if neigh >=? 2 then
                match next_color (ncolor (puz (world s))) (deref so cell) (l_c lv) with
                | Some c => ScanProbe s (set_ijc i j c lv) cell
                | None =>
                    match st_merge_check s with
                    | (true, s') => ScanMerge s' (set_ijc i j 0 lv)
                    | (false, s') => scan f s' (set_ijc i (j + 1) 0 lv)
                    end
                end
              else scan f s (set_ijc i (j + 1) (l_c lv) lv)
        end
      else ScanDone s lv
  end.

(** The loop of [solve]; every iteration, and every iteration of the loops
    inside, takes one unit of fuel. *)
Fixpoint solve_loop (cfg : Config) (fuel : nat) (s : State) (lv : Locals) : Res :=
  match fuel with
  | O => Timeout s
  | S f =>
      match logic_solve f s with
      | LTimeout s1 => Timeout s1
      | LDone rc s1 =>
          if negb (rc =? 0) then
            if nsolved (puz (world s1)) =? ncells (puz (world s1)) then Ret 1 s1
            else
              let '(hits, s2) :=
                if tryharder cfg && bool_decide (history (puz (world s1)) = [])
                then st_try_everything s1 else (0, s1) in
              if negb (hits =? 0) then solve_loop cfg f s2 lv
              else if negb (maybacktrack cfg) then Ret 1 s2
              else if mayprobe cfg then
                let '(s3, lv3) :=
                  if negb (l_probing lv) then
                    (s2, set_l_probing true (set_best (besti lv) (bestj lv) (bestc lv) INT_MAX
                                               (set_ijc 0 0 0 lv)))
                  else
                    let nleft := ncells (puz (world s2)) - nsolved (puz (world s2)) in
                    let lv' :=
                      if nleft <? bestnleft lv
                      then set_best (l_i lv) (l_j lv) (l_c lv) nleft lv else lv in
                    (st_undo s2, set_ijc (l_i lv') (l_j lv') (l_c lv' + 1) lv') in
                match scan f s3 lv3 with
                | ScanTimeout s4 => Timeout s4
                | ScanProbe s4 lv4 cell =>
                    solve_loop cfg f
                      (st_guess_cell cell (l_c lv4) (st_merge_guess (incr_probes s4))) lv4
                | ScanMerge s4 lv4 =>
                    solve_loop cfg f (incr_merges s4) (set_l_probing false lv4)
                | ScanDone s4 lv4 =>
                    let lv5 := set_l_probing false lv4 in
                    if bestnleft lv5 =? INT_MAX then Abort s4
                    else
                      match line_cell (sol (world s4)) 0 (besti lv5) (bestj lv5) with
                      | Some cell =>
                          solve_loop cfg f
                            (incr_guesses (st_guess_cell cell (bestc lv5) s4)) lv5
                      | None => Abort s4
                      end
                end
              else
                match pick_a_cell (puz (world s2)) (sol (world s2)) with
                | PickFail => Abort s2
                | PickNull => Ret 0 s2
                | PickCell cell =>
                    match pick_color (puz (world s2)) (sol (world s2)) cell with
                    | None => Abort s2
                    | Some c => solve_loop cfg f (incr_guesses (st_guess_cell cell c s2)) lv
                    end
                end
          else
            let s2 := incr_guesses s1 in
            match st_backtrack s2 with
            | (true, s3) => Ret 0 s3
            | (false, s3) => solve_loop cfg f s3 (set_l_probing false lv)
            end
      end
  end.

Definition solve (cfg : Config) (fuel : nat) (s : State) : Res :=
  if ncolor (puz (world s)) <? 2 then
    Ret 1 (upd_world (fun w => set_ps (set_nsolved (ncells (puz w)) (puz w), sol w) w) s)
  else solve_loop cfg fuel s locals0.

(** ** [probe.c] (trunk)

    The functions [guess_cell], [undo] and [backtrack] are the ones above. *)

(** [init_probepad]: an all-zero pad of [ncells] bit strings, allocated or
    cleared. *)
Definition init_probepad (w : World) : World :=
  set_probepad (replicate (Z.to_nat (ncells (puz w))) 0) w.

(** [propad(cell)], the pad entry of a cell. *)
Definition propad (w : World) (cell : nat) : Z := default 0 (probepad w !! cell).

(** A completed probe, as the message "PROBE ON (i,j)c COMPLETE WITH nleft
    CELLS LEFT" reports it. *)
Record Trial := mkTrial {
  t_i : Z;
  t_j : Z;
  t_c : Z;
  t_nleft : Z }.

(** The variables of [probe_cell] across its loop: the state, [*bestnleft],
    [*bestc], [foundbetter], and the probes completed so far. *)
Record PVars := mkPVars {
  p_state : State;
  p_bestnleft : Z;
  p_bestc : Z;
  p_foundbetter : Z;
  p_log : list Trial }.

Inductive PRes : Type :=
| PRet (rc : Z) (v : PVars)
| PAbort (s : State).

Definition when_merging (f : State -> State) (s : State) : State :=
  if merging (world s) then f s else s.

(** The body of the loop of [probe_cell] for the colour [c]: [inl] to go
    on with the loop, [inr] for a [return] or an [exit]. *)
Definition probe_color (cell : nat) (i j : Z) (c : Z) (v : PVars) : PVars + PRes :=
  let s := p_state v in
  if may_be (deref (sol (world s)) cell) c then
    if bit_test (propad (world s) cell) c then
      inl (mkPVars (when_merging st_merge_cancel s)
             (p_bestnleft v) (p_bestc v) (p_foundbetter v) (p_log v))
    else
      let s1 := incr_probes s in
      let s2 := when_merging st_merge_guess s1 in
      let s3 := st_guess_cell cell c s2 in
      let '(rc, s4) := logic_solve3 s3 in
      if rc =? 0 then
        let nleft := ncells (puz (world s4)) - nsolved (puz (world s4)) in
        let log := p_log v ++ [mkTrial i j c nleft] in
        if nleft <? p_bestnleft v then
          inl (mkPVars (st_undo s4) nleft c (p_foundbetter v + 1) log)
        else
          inl (mkPVars (st_undo s4) (p_bestnleft v) (p_bestc v) (p_foundbetter v) log)
      else if rc <? 0 then
        let s5 := incr_guesses (when_merging st_merge_cancel s4) in
        match st_backtrack s5 with
        | (true, s6) => inr (PAbort s6)
        | (false, s6) =>
            inr (PRet (-1)
                   (mkPVars (upd_world (set_probing false) s6)
                      (p_bestnleft v) (p_bestc v) (p_foundbetter v) (p_log v)))
        end
      else
        inr (PRet (-2)
               (mkPVars (upd_world (set_probing false) (when_merging st_merge_cancel s4))
                  (p_bestnleft v) (p_bestc v) (p_foundbetter v) (p_log v)))
  else inl v.

Fixpoint probe_colors (cs : list Z) (cell : nat) (i j : Z) (v : PVars) : PVars + PRes :=
  match cs with
  | [] => inl v
  | c :: cs' =>
      match probe_color cell i j c v with
      | inl v' => probe_colors cs' cell i j v'
      | inr r => inr r
      end
  end.

Definition probe_cell (cfg : Config) (s : State) (cell : nat) (i j : Z)
    (bestnleft bestc : Z) (log : list Trial) : PRes :=
  let s0 := upd_world (set_merging (mergeprobe cfg)) s in
  match probe_colors (zrange (ncolor (puz (world s0)))) cell i j
          (mkPVars s0 bestnleft bestc 0 log) with
  | inr r => r
  | inl v =>
      let s1 := p_state v in
      if merging (world s1) then
        match st_merge_check s1 with
        | (true, s2) =>
            PRet (-1)
              (mkPVars (upd_world (set_probing false) (incr_merges s2))
                 (p_bestnleft v) (p_bestc v) (p_foundbetter v) (p_log v))
        | (false, s2) =>
            PRet (p_foundbetter v)
              (mkPVars s2 (p_bestnleft v) (p_bestc v) (p_foundbetter v) (p_log v))
        end
      else PRet (p_foundbetter v) v
  end.

(** The variables of [probe] across its loops: the state, [bestnleft],
    [*besti], [*bestj], [*bestc], and the probes completed so far. *)
Record QVars := mkQVars {
  q_state : State;
  q_bestnleft : Z;
  q_besti : Z;
  q_bestj : Z;
  q_bestc : Z;
  q_log : list Trial }.

Inductive QRes : Type :=
| QRet (rc : Z) (v : QVars)
| QAbort (s : State).

(** "Test solve with each possible color": the call of [probe_cell] and
    what both passes of [probe] do with its result. *)
Definition probe_at (cfg : Config) (cell : nat) (i j : Z) (v : QVars) : QVars + QRes :=
  match probe_cell cfg (q_state v) cell i j (q_bestnleft v) (q_bestc v) (q_log v) with
  | PAbort s => inr (QAbort s)
  | PRet rc pv =>
      let v' :=
        mkQVars (p_state pv) (p_bestnleft pv) (q_besti v) (q_bestj v) (p_bestc pv) (p_log pv) in
      if rc <? 0 then inr (QRet (if rc =? -2 then 1 else -1) v')
      else if rc >? 0 then
        inl (mkQVars (q_state v') (q_bestnleft v') i j (q_bestc v') (q_log v'))
      else inl v'
  end.

(** The neighbour [neigh] of the cell at ([ci],[cj]), [None] when it is off
    the edge of the grid (the [switch] of the first pass). *)
Definition neighbor (so : Solution) (ci cj : Z) (neigh : Z) : option (Z * Z) :=
  if neigh =? 0 then (if ci =? 0 then None else Some (ci - 1, cj))
  else if neigh =? 1 then (if ci =? sol_n so D_ROW - 1 then None else Some (ci + 1, cj))
  else if neigh =? 2 then (if cj =? 0 then None else Some (ci, cj - 1))
  else
    match line_cell so D_ROW ci (cj + 1) with
    | None => None
    | Some _ => Some (ci, cj + 1)
    end.

Fixpoint probe_neighbors (cfg : Config) (neighs : list Z) (ci cj : Z) (v : QVars)
    : QVars + QRes :=
  match neighs with
  | [] => inl v
  | neigh :: rest =>
      let so := sol (world (q_state v)) in
      match neighbor so ci cj neigh with
      | None => probe_neighbors cfg rest ci cj v
      | Some (i, j) =>
          match line_cell so D_ROW i j with
          | None => probe_neighbors cfg rest ci cj v
          | Some cell =>
              if cell_n (deref so cell) <? 2 then probe_neighbors cfg rest ci cj v
              else
                match probe_at cfg cell i j v with
                | inl v' => probe_neighbors cfg rest ci cj v'
                | inr r => inr r
                end
          end
      end
  end.

(** [HIST(puz,k)]: the entry [k] of the history, counted from the oldest. *)
Definition hist_at (puz : Puzzle) (k : nat) : option Hist :=
  rev (history puz) !! k.

(** The first pass, over the history entries [k-1 .. 0]; it stops below a
    branch point. *)
Fixpoint probe_history (cfg : Config) (k : nat) (v : QVars) : QVars + QRes :=
  match k with
  | O => inl v
  | S k' =>
      let w := world (q_state v) in
      match hist_at (puz w) k' with
      | None => inl v
      | Some h =>
          let ci := line_of (deref (sol w) (h_cell h)) D_ROW in
          let cj := line_of (deref (sol w) (h_cell h)) D_COL in
          match probe_neighbors cfg [0; 1; 2; 3] ci cj v with
          | inr r => inr r
          | inl v' => if h_branch h then inl v' else probe_history cfg k' v'
          end
      end
  end.

(** The second pass, over all cells; the line arrays are set up once and
    the loops run over them, reading each cell in the current state. *)
Definition probe_full_cell (cfg : Config) (i j : Z) (cell : nat) (v : QVars)
    : QVars + QRes :=
  let so := sol (world (q_state v)) in
  if cell_n (deref so cell) <? 2 then inl v
  else if count_neighbors so i j <? 2 then inl v
  else probe_at cfg cell i j v.

Fixpoint probe_row (cfg : Config) (i j : Z) (r : list nat) (v : QVars) : QVars + QRes :=
  match r with
  | [] => inl v
  | cell :: r' =>
      match probe_full_cell cfg i j cell v with
      | inl v' => probe_row cfg i (j + 1) r' v'
      | inr res => inr res
      end
  end.

Fixpoint probe_rows (cfg : Config) (i : Z) (rows : list (list nat)) (v : QVars)
    : QVars + QRes :=
  match rows with
  | [] => inl v
  | r :: rows' =>
      match probe_row cfg i 0 r v with
      | inl v' => probe_rows cfg (i + 1) rows' v'
      | inr res => inr res
      end
  end.

(** The two passes of [probe], up to the choice of the best guess. *)
Definition probe_passes (cfg : Config) (s : State) (besti bestj bestc : Z) : QVars + QRes :=
  let s0 := upd_world (fun w => set_probing true (init_probepad w)) s in
  let v0 := mkQVars s0 INT_MAX besti bestj bestc [] in
  let pass1 :=
    if probelevel cfg >? 1
    then probe_history cfg (length (history (puz (world s0)))) v0
    else inl v0 in
  match pass1 with
  | inr r => inr r
  | inl v1 => probe_rows cfg 0 (default [] (zlookup (sol_line (sol (world s0))) D_ROW)) v1
  end.

Definition probe (cfg : Config) (s : State) (besti bestj bestc : Z) : QRes :=
  match probe_passes cfg s besti bestj bestc with
  | inr r => r
  | inl v2 =>
      if q_bestnleft v2 =? INT_MAX then QAbort (q_state v2)
      else
        QRet 0 (mkQVars (upd_world (set_probing false) (q_state v2))
                  (q_bestnleft v2) (q_besti v2) (q_bestj v2) (q_bestc v2) (q_log v2))
  end.

End Solver.

(** * A small instance

    Collaborators for the examples: a line solver that understands two kinds
    of clue, the clue without runs (every cell of the line is background) and
    the clue of one run as long as its line (every cell has the run's
    colour), and leaves every other line alone. *)

Module Demo.

Definition line_ptrs (so : Solution) (k i : Z) : list nat :=
  default [] (l ← zlookup (sol_line so) k; zlookup l i).

Definition forced_color (cl : Clue) (len : Z) : option Z :=
  if clue_n cl =? 0 then Some 0
  else
    match clue_length cl, clue_color cl with
    | [l], [col] => if l =? len then Some col else None
    | _, _ => None
    end.

Definition line_color (clues : list (list Clue)) (so : Solution) (k i : Z) : option Z :=
  forced_color (default nullclue (l ← zlookup clues k; zlookup l i))
    (Z.of_nat (length (line_ptrs so k i))).

Definition left_solve (ncolor : Z) (clues : list (list Clue)) (so : Solution) (k i : Z)
    : bool :=
  match line_color clues so k i with
  | Some col => forallb (fun p => may_be (deref so p) col) (line_ptrs so k i)
  | None => true
  end.

Definition job_priority (puz : Puzzle) (k i : Z) : Z := - slack (clue_at puz k i).

Definition merge_guess (m : Merge) : Merge := mkMerge (merge_list m) (merge_no m + 1).

Definition merge_cancel (m : Merge) : Merge := mkMerge [] (merge_no m).

Definition merge_check (w : World) : bool * World := (false, w).

(** The collaborators without a line solver yet. *)
Definition base : Collaborators :=
  mkCollaborators job_priority left_solve (fun w _ _ => (true, w))
    merge_guess merge_cancel merge_check ratecell_adhoc pick_color_max (fun s => (0, s)).

(** The cell [p] of a line whose colour is [col]: an unsolved cell is
    recorded, set to that colour and counted, and its lines are queued. *)
Definition tighten (col : Z) (w : World) (p : nat) : World :=
  if cell_n (deref (sol w) p) <? 2 then w
  else
    let puz1 := add_hist (puz w) (sol w) p false in
    let sol1 := store_cell (sol w) p 1 (bit_set 0 col) in
    let puz2 := set_nsolved (nsolved puz1 + 1) puz1 in
    set_ps (@add_jobs base puz2 (deref sol1 p), sol1) w.

Definition apply_lro (w : World) (k i : Z) : bool * World :=
  match line_color (clue (puz w)) (sol w) k i with
  | Some col =>
      if forallb (fun p => may_be (deref (sol w) p) col) (line_ptrs (sol w) k i)
      then (true, fold_left (tighten col) (line_ptrs (sol w) k i) w)
      else (false, w)
  | None => (true, w)
  end.

Definition propagating : Collaborators :=
  mkCollaborators job_priority left_solve apply_lro
    merge_guess merge_cancel merge_check ratecell_adhoc pick_color_max (fun s => (0, s)).

(** Propagation with three results, as [probe.c] expects it. *)
Definition logic_solve3 (s : State) : Z * State :=
  match @logic_solve propagating 64 s with
  | LDone rc s' =>
      if rc =? 0 then (-1, s')
      else if nsolved (puz (world s')) =? ncells (puz (world s')) then (1, s')
      else (0, s')
  | LTimeout s' => (0, s')
  end.

Definition collab : Collaborators :=
  mkCollaborators job_priority left_solve apply_lro
    merge_guess merge_cancel merge_check ratecell_adhoc pick_color_max logic_solve3.

(** A grid of [rows] by [cols] cells in two colours, from the bit strings
    of its cells in row order and the clues of its rows and columns. *)
Definition cell_of (cols : nat) (p : nat) (b : Z) : Cell :=
  mkCell [Z.of_nat (p / cols); Z.of_nat (p mod cols)] (count_bits 2 b) b.

Definition grid_cells (cols : nat) (bits : list Z) : list Cell :=
  imap (cell_of cols) bits.

Definition grid_lines (rows cols : nat) : list (list (list nat)) :=
  [ map (fun i => map (fun j => (i * cols + j)%nat) (seq 0 cols)) (seq 0 rows);
    map (fun j => map (fun i => (i * cols + j)%nat) (seq 0 rows)) (seq 0 cols) ].

Definition grid (rows cols : nat) (bits : list Z) : Solution :=
  mkSolution 2 (grid_cells cols bits) (grid_lines rows cols).

Definition puzzle (rows cols : nat) (clues : list (list Clue)) (so : Solution)
    (jobs : list Job) : Puzzle :=
  mkPuzzle PT_GRID 2 2 clues (Z.of_nat (rows * cols)) (count_solved so) jobs [].

Definition state (rows cols : nat) (clues : list (list Clue)) (bits : list Z)
    (jobs : list Job) : State :=
  mkState
    (mkWorld (puzzle rows cols clues (grid rows cols bits) jobs) (grid rows cols bits)
       (mkMerge [] 0) false false [])
    0 0 0 0.

(** The clue without runs, the clue of one black run of length [l], and a
    clue of two runs that the line solver leaves alone. *)
Definition blank : Clue := mkClue 0 [] [] 0.
Definition run (l len : Z) : Clue := mkClue 1 [l] [1] (len - l).
Definition open2 : Clue := mkClue 2 [1; 1] [1; 1] 0.

(** Both colours possible, background only, black only. *)
Definition any : Z := 3.
Definition white : Z := 1.
Definition black : Z := 2.

(** Three rows and columns with one black cell each, nothing known: the line
    solver has nothing to say. *)
Definition latin3 : State :=
  state 3 3 [[run 1 3; run 1 3; run 1 3]; [run 1 3; run 1 3; run 1 3]]
    [any; any; any; any; any; any; any; any; any] [].

(** Two rows and columns, the first row without runs; nothing known yet,
    with an empty job list and with the first row queued. *)
Definition blank_row_clues : list (list Clue) :=
  [[blank; run 1 2]; [run 1 2; run 1 2]].


Definition blank_row_queued : State :=
  state 2 2 blank_row_clues [any; any; any; any] [mkJob 0 0 0].



(** One cell, solved. *)
Definition finished : State := state 1 1 [[blank]; [blank]] [white] [].

(** A puzzle of one colour whose clue asks for a run of three in a line of
    one cell. *)
Definition one_colour : State :=
  mkState
    (mkWorld (mkPuzzle PT_GRID 1 2 [[run 3 1]; [run 3 1]] 1 0 [mkJob 0 0 0] [])
       (mkSolution 2 [mkCell [0; 0] 1 1] [[[0%nat]]; [[0%nat]]])
       (mkMerge [] 0) false false [])
    0 0 0 0.

(** Options: propagation only; with the exhaustive check; with probing,
    merging and backtracking. *)
Definition cfg_logic : Config := mkConfig false false false false 1.
Definition cfg_probe : Config := mkConfig false true true true 2.

(** The variables of [probe] after its two passes over [latin3]. *)
Definition latin3_probed : QVars :=
  match @probe_passes collab cfg_probe latin3 7 7 7 with
  | inl v => v
  | inr _ => mkQVars latin3 0 0 0 0 []
  end.

End Demo.

(** * Properties *)

Section Properties.

Context {collab : Collaborators}.

(** ** Frame lemmas for the job list *)

(** Everything of a puzzle but its job list. *)
Definition same_but_jobs (p q : Puzzle) : Prop :=
  ptype p = ptype q /\ ncolor p = ncolor q /\ nset p = nset q /\ clue p = clue q /\
  ncells p = ncells q /\ nsolved p = nsolved q /\ history p = history q.

Lemma same_but_jobs_refl p : same_but_jobs p p.
Proof. repeat split. Qed.

Lemma same_but_jobs_trans p q r :
  same_but_jobs p q -> same_but_jobs q r -> same_but_jobs p r.
Proof. unfold same_but_jobs. intuition congruence. Qed.

Lemma add_job_frame p k i : same_but_jobs (add_job p k i) p.
Proof.
  unfold add_job. destruct (existsb _ _); [apply same_but_jobs_refl|].
  repeat split.
Qed.

Lemma add_jobs_fold_frame ks cell p :
  same_but_jobs (fold_left (fun p k => add_job p k (line_of cell k)) ks p) p.
Proof.
  revert p. induction ks as [|k ks IH]; intros p; simpl.
  - apply same_but_jobs_refl.
  - eapply same_but_jobs_trans; [apply IH|apply add_job_frame].
Qed.

Lemma add_jobs_frame p cell : same_but_jobs (add_jobs p cell) p.
Proof.
  unfold add_jobs.
  generalize (zrange (nset p)). intros ks. apply add_jobs_fold_frame.
Qed.

Lemma add_jobs_history p cell : history (add_jobs p cell) = history p.
Proof. apply add_jobs_frame. Qed.

Lemma add_jobs_nsolved p cell : nsolved (add_jobs p cell) = nsolved p.
Proof. apply add_jobs_frame. Qed.


Lemma add_jobs_ncells p cell : ncells (add_jobs p cell) = ncells p.
Proof. apply add_jobs_frame. Qed.

Lemma add_jobs_clue p cell : clue (add_jobs p cell) = clue p.
Proof. apply add_jobs_frame. Qed.


(** ** The cell store *)

Lemma store_cell_line so cell n b : sol_line (store_cell so cell n b) = sol_line so.
Proof. reflexivity. Qed.

Lemma deref_store_same so cell n b :
  (cell < length (sol_cells so))%nat ->
  deref (store_cell so cell n b) cell = mkCell (cell_line (deref so cell)) n b.
Proof.
  intros H. unfold deref, store_cell. simpl.
  now rewrite list_lookup_insert_eq.
Qed.

Lemma deref_store_other so cell cell' n b :
  cell <> cell' -> deref (store_cell so cell n b) cell' = deref so cell'.
Proof.
  intros H. unfold deref, store_cell. simpl.
  now rewrite list_lookup_insert_ne.
Qed.

Lemma line_of_store so cell cell' n b k :
  line_of (deref (store_cell so cell n b) cell') k = line_of (deref so cell') k.
Proof.
  destruct (decide (cell = cell')) as [<-|Hne].
  - destruct (decide (cell < length (sol_cells so))%nat) as [Hlt|Hge].
    + now rewrite deref_store_same.
    + unfold deref, store_cell. simpl. rewrite list_insert_ge by lia. reflexivity.
  - now rewrite deref_store_other.
Qed.

Lemma store_cell_store so cell n b n' b' :
  store_cell (store_cell so cell n b) cell n' b' = store_cell so cell n' b'.
Proof.
  unfold store_cell. simpl. f_equal.
  destruct (decide (cell < length (sol_cells so))%nat) as [Hlt|Hge].
  - rewrite list_insert_insert_eq. f_equal.
    unfold deref. simpl. now rewrite list_lookup_insert_eq.
  - rewrite (list_insert_ge (sol_cells so)) by lia.
    rewrite !list_insert_ge by lia. reflexivity.
Qed.

Lemma store_cell_id so cell :
  store_cell so cell (cell_n (deref so cell)) (cell_bit (deref so cell)) = so.
Proof.
  unfold store_cell, deref. destruct so as [ns cs ls]. simpl. f_equal.
  destruct (cs !! cell) as [c|] eqn:E.
  - simpl. destruct c. simpl. now apply list_insert_id.
  - apply list_insert_ge. now apply lookup_ge_None.
Qed.

(** ** The rating of a cell *)

(** The score of a line: slack plus twice the number of clue runs. *)
Definition line_score (puz : Puzzle) (k i : Z) : Z :=
  slack (clue_at puz k i) + 2 * clue_n (clue_at puz k i).

Lemma ratecell_adhoc_row puz so i j :
  ratecell_adhoc puz so i j = 4 * line_score puz 0 i.
Proof.
  unfold ratecell_adhoc, line_score. rewrite Z.ltb_irrefl. lia.
Qed.

(** ** The history entry of a guess *)

Lemma add_hist_branch puz so cell :
  history (add_hist puz so cell true) =
  mkHist true cell (cell_n (deref so cell)) (cell_bit (deref so cell)) :: history puz.
Proof. reflexivity. Qed.

Lemma guess_cell_history puz so cell c :
  history (fst (guess_cell puz so cell c)) =
  mkHist true cell (cell_n (deref so cell)) (cell_bit (deref so cell)) :: history puz.
Proof.
  unfold guess_cell. simpl. rewrite add_jobs_history. reflexivity.
Qed.

Lemma guess_cell_sol puz so cell c :
  snd (guess_cell puz so cell c) = store_cell so cell 1 (bit_set 0 c).
Proof. reflexivity. Qed.

Lemma guess_cell_nsolved puz so cell c :
  nsolved (fst (guess_cell puz so cell c)) = nsolved puz + 1.
Proof.
  unfold guess_cell. simpl. rewrite add_jobs_nsolved. simpl.
  unfold add_hist. simpl. reflexivity.
Qed.

Lemma restore_sol e puz so :
  snd (restore e (puz, so)) = store_cell so (h_cell e) (h_n e) (h_bit e).
Proof. reflexivity. Qed.

(** ** Propagation *)

Lemma best_job_none l : best_job l = None -> l = [].
Proof.
  destruct l as [|j l]; [reflexivity|]. simpl.
  destruct (best_job l); [destruct (_ <? _)|]; discriminate.
Qed.

Lemma next_job_none p : next_job p = None <-> job p = [].
Proof.
  unfold next_job. split.
  - destruct (best_job (job p)) eqn:E; [discriminate|]. intros _. now apply best_job_none.
  - intros ->. reflexivity.
Qed.

Lemma logic_solve_quiescent fuel s s' :
  logic_solve fuel s = LDone 1 s' -> job (puz (world s')) = [].
Proof.
  revert s. induction fuel as [|f IH]; intros s; simpl; [discriminate|].
  destruct (next_job (puz (world s))) as [[[dir i] puz']|] eqn:E.
  - destruct (apply_lro _ dir i) as [[|] w]; [apply IH|discriminate].
  - intros [= <-]. now apply next_job_none.
Qed.

Lemma logic_solve_no_job fuel s :
  job (puz (world s)) = [] -> logic_solve (S fuel) s = LDone 1 s.
Proof.
  intros H. simpl. apply next_job_none in H. now rewrite H.
Qed.

(** C5: a call of [logic_solve] that returns 1 (no contradiction) has emptied
    the job list, and a call that follows it at once, whatever its fuel,
    pops no job and returns 1 in the very same state. *)
Theorem logic_solve_idempotent fuel fuel' s s' :
  logic_solve fuel s = LDone 1 s' ->
  job (puz (world s')) = [] /\
  next_job (puz (world s')) = None /\
  logic_solve (S fuel') s' = LDone 1 s'.
Proof.
  intros H. apply logic_solve_quiescent in H.
  split; [exact H|]. split; [now apply next_job_none|]. now apply logic_solve_no_job.
Qed.

(** ** Puzzles with fewer than two colours *)

(** The state with other clue arrays. *)
Definition with_clues (cl : list (list Clue)) (s : State) : State :=
  upd_world (fun w => set_ps (set_clue cl (puz w), sol w) w) s.

(** C10: with fewer than two colours [solve] returns 1 at once, in the state
    it was given but for [nsolved], which is now [ncells]: the cells, the
    history, the job list and the counters are as they were, and neither the
    fuel, nor the options, nor the line solver and the other collaborators,
    nor the clues have a part in the result. *)
Theorem solve_fewer_than_two_colours cfg fuel s :
  ncolor (puz (world s)) < 2 ->
  exists s',
    solve cfg fuel s = Ret 1 s' /\
    nsolved (puz (world s')) = ncells (puz (world s)) /\
    sol (world s') = sol (world s) /\
    history (puz (world s')) = history (puz (world s)) /\
    job (puz (world s')) = job (puz (world s)) /\
    mrg (world s') = mrg (world s) /\
    probepad (world s') = probepad (world s) /\
    (nlines s', guesses s', probes s', merges s') = (nlines s, guesses s, probes s, merges s) /\
    forall (other : Collaborators) cfg' fuel' cl,
      @solve other cfg' fuel' (with_clues cl s) = Ret 1 (with_clues cl s').
Proof.
  intros H. unfold solve.
  destruct (Z.ltb_spec (ncolor (puz (world s))) 2) as [_|Hge]; [|lia].
  eexists. split; [reflexivity|]. repeat split.
  intros other cfg' fuel' cl. unfold solve. simpl.
  destruct (Z.ltb_spec (ncolor (puz (world s))) 2) as [_|Hge]; [|lia].
  reflexivity.
Qed.

(** ** The instrumentation counters *)

Definition counters_le (s s' : State) : Prop :=
  nlines s <= nlines s' /\ guesses s <= guesses s' /\
  probes s <= probes s' /\ merges s <= merges s'.

(** The state a result carries. *)
Definition lres_state (r : LRes) : State :=
  match r with LDone _ s => s | LTimeout s => s end.



Definition pres_state (r : PRes) : State :=
  match r with PRet _ v => p_state v | PAbort s => s end.

Definition qres_state (r : QRes) : State :=
  match r with QRet _ v => q_state v | QAbort s => s end.

Lemma counters_le_refl s : counters_le s s.
Proof. unfold counters_le. lia. Qed.


Lemma counters_le_world s s' w : counters_le s s' -> counters_le s (set_world w s').
Proof. unfold counters_le. simpl. lia. Qed.

Lemma counters_le_upd s s' f : counters_le s s' -> counters_le s (upd_world f s').
Proof. apply counters_le_world. Qed.

Lemma counters_le_nlines s s' : counters_le s s' -> counters_le s (incr_nlines s').
Proof. unfold counters_le. simpl. lia. Qed.

Lemma counters_le_guesses s s' : counters_le s s' -> counters_le s (incr_guesses s').
Proof. unfold counters_le. simpl. lia. Qed.

Lemma counters_le_probes s s' : counters_le s s' -> counters_le s (incr_probes s').
Proof. unfold counters_le. simpl. lia. Qed.

Lemma counters_le_merges s s' : counters_le s s' -> counters_le s (incr_merges s').
Proof. unfold counters_le. simpl. lia. Qed.

Lemma counters_le_when s s' f :
  (forall x, counters_le s x -> counters_le s (f x)) ->
  counters_le s s' -> counters_le s (when_merging f s').
Proof. intros Hf H. unfold when_merging. destruct (merging _); auto. Qed.

Create HintDb counters discriminated.

Hint Resolve counters_le_refl counters_le_world counters_le_upd counters_le_nlines
  counters_le_guesses counters_le_probes counters_le_merges : counters.

Ltac counters :=
  unfold st_guess_cell, st_undo, st_merge_guess, st_merge_cancel in *;
  repeat first
    [ assumption
    | apply counters_le_refl
    | apply counters_le_world
    | apply counters_le_upd
    | apply counters_le_nlines
    | apply counters_le_guesses
    | apply counters_le_probes
    | apply counters_le_merges
    | apply counters_le_when; [intros ? ?|] ].




Lemma st_backtrack_counters s s0 :
  counters_le s0 s -> counters_le s0 (snd (st_backtrack s)).
Proof. intros H. unfold st_backtrack. simpl. counters. Qed.




Definition qstep_state (r : QVars + QRes) : State :=
  match r with inl v => q_state v | inr res => qres_state res end.

Section ProbeCounters.

Hypothesis logic_solve3_counters : forall s, counters_le s (snd (logic_solve3 s)).











End ProbeCounters.


(** ** The exhaustive check *)

(** Some line crossing the cell has no placement when the cell is set to the
    colour [c] alone. *)
Definition trial_fails (puz : Puzzle) (so : Solution) (cell : nat) (c : Z) : bool :=
  line_fails puz (store_cell so cell 1 (bit_set 0 c)) cell.

(** What the loop over the colours of a cell keeps of the puzzle and the
    solution it started from: all of the puzzle but the job list and
    [nsolved], and every cell but the one on trial. *)
Definition on_trial (cell : nat) (puz0 : Puzzle) (so0 : Solution)
    (puz : Puzzle) (so : Solution) : Prop :=
  ptype puz = ptype puz0 /\ ncolor puz = ncolor puz0 /\ nset puz = nset puz0 /\
  clue puz = clue puz0 /\ ncells puz = ncells puz0 /\ history puz = history puz0 /\
  forall n b, store_cell so cell n b = store_cell so0 cell n b.

Lemma on_trial_refl cell puz so : on_trial cell puz so puz so.
Proof. repeat split. Qed.

Lemma on_trial_fails cell puz0 so0 puz so c :
  on_trial cell puz0 so0 puz so ->
  line_fails puz (store_cell so cell 1 (bit_set (bit_clearall (cell_bit (deref so cell))
                                                    (ncolor puz)) c)) cell
  = trial_fails puz0 so0 cell c.
Proof.
  intros (_ & Hc & Hs & Hcl & _ & _ & Hso).
  unfold trial_fails, line_fails, bit_clearall. now rewrite Hc, Hs, Hcl, Hso.
Qed.

Lemma on_trial_step cell puz0 so0 puz so c :
  on_trial cell puz0 so0 puz so ->
  on_trial cell puz0 so0 puz (store_cell so cell 1 c).
Proof.
  intros (H1 & H2 & H3 & H4 & H5 & H6 & Hso). repeat split; trivial.
  intros n b. rewrite store_cell_store. apply Hso.
Qed.

Lemma on_trial_jobs cell puz0 so0 puz so c :
  on_trial cell puz0 so0 puz so ->
  on_trial cell puz0 so0 (add_jobs puz c) so.
Proof.
  intros (H1 & H2 & H3 & H4 & H5 & H6 & Hso).
  destruct (add_jobs_frame puz c) as (F1 & F2 & F3 & F4 & F5 & F6 & F7).
  repeat split; try congruence; try apply Hso.
Qed.

Lemma on_trial_nsolved cell puz0 so0 puz so v :
  on_trial cell puz0 so0 puz so ->
  on_trial cell puz0 so0 (set_nsolved v puz) so.
Proof. intros (H1 & H2 & H3 & H4 & H5 & H6 & Hso). repeat split; trivial. Qed.

Lemma bit_test_clear_all b c c' :
  0 <= c -> bit_test (bit_clear b c) c' = bit_test b c' && negb (c' =? c).
Proof.
  intros Hc. destruct (Z.ltb_spec c' 0) as [Hn|Hp].
  - unfold bit_test. now rewrite !Z.testbit_neg_r by lia.
  - now apply bit_test_clear.
Qed.

(** The result of the loop over the colours [cs] of one cell, relative to
    the puzzle [puz0] and the solution [so0] the trials start from. *)
Lemma try_colors_spec cell puz0 so0 cs :
  Forall (fun c => 0 <= c) cs ->
  forall puz so realbit realn hits puz' so' realbit' realn' hits',
  on_trial cell puz0 so0 puz so ->
  realn <> 1 ->
  try_colors cs puz so cell realbit realn hits = (puz', so', (realbit', realn', hits')) ->
  on_trial cell puz0 so0 puz' so' /\
  hits' - hits = realn - realn' /\ 0 <= hits' - hits /\
  (realn' <> 1 /\ nsolved puz' = nsolved puz \/ realn' = 1 /\ nsolved puz' = nsolved puz + 1) /\
  (forall c, bit_test realbit' c = true -> bit_test realbit c = true) /\
  (forall c, bit_test realbit c = true -> bit_test realbit' c = false ->
             In c cs /\ trial_fails puz0 so0 cell c = true) /\
  (forall c, In c cs -> bit_test realbit' c = true ->
             trial_fails puz0 so0 cell c = true -> realn' = 1).
Proof.
  induction 1 as [|c cs Hc Hcs IH];
    intros puz so realbit realn hits puz' so' realbit' realn' hits' HJ Hn; simpl.
  - intros [= <- <- <- <- <-]. repeat split; try lia; try tauto; try apply HJ;
      congruence.
  - destruct (bit_test realbit c) eqn:Eb; simpl.
    2:{ intros E. specialize (IH _ _ _ _ _ _ _ _ _ _ HJ Hn E).
        destruct IH as (I1 & I2 & I3 & I4 & I5 & I6 & I7).
        split; [exact I1|]. split; [exact I2|]. split; [exact I3|].
        split; [exact I4|]. split; [exact I5|]. split.
        - intros c0 H1 H2. destruct (I6 c0 H1 H2) as [Hin Hf]. split; [now right|exact Hf].
        - intros c0 [<-|Hin] H1 H2; [|now apply I7 with c0].
          apply I5 in H1. congruence. }
    rewrite (on_trial_fails _ _ _ _ _ _ HJ).
    destruct (trial_fails puz0 so0 cell c) eqn:Ef.
    + destruct (Z.eqb_spec (realn - 1) 1) as [E1|E1].
      * intros [= <- <- <- <- <-]. split; [|split; [|split; [|split; [|split; [|split]]]]].
        -- apply on_trial_nsolved, on_trial_jobs, on_trial_step, HJ.
        -- lia.
        -- lia.
        -- right. split; [exact E1|]. simpl. now rewrite add_jobs_nsolved.
        -- intros c0. rewrite bit_test_clear_all by lia.
           intros H. now apply andb_true_iff in H.
        -- intros c0 H1. rewrite bit_test_clear_all, H1 by lia. simpl.
           intros H2. apply negb_false_iff in H2. apply Z.eqb_eq in H2. subst c0.
           split; [now left|exact Ef].
        -- intros _ _ _ _. exact E1.
      * intros E.
        assert (HJ' : on_trial cell puz0 so0
                  (add_jobs puz (deref (store_cell so cell 1
                     (bit_set (bit_clearall (cell_bit (deref so cell)) (ncolor puz)) c)) cell))
                  (store_cell so cell 1
                     (bit_set (bit_clearall (cell_bit (deref so cell)) (ncolor puz)) c)))
          by apply on_trial_jobs, on_trial_step, HJ.
        specialize (IH _ _ _ _ _ _ _ _ _ _ HJ' E1 E).
        destruct IH as (I1 & I2 & I3 & I4 & I5 & I6 & I7).
        rewrite add_jobs_nsolved in I4.
        split; [exact I1|]. split; [lia|]. split; [lia|]. split; [exact I4|].
        split; [|split].
        -- intros c0 H1. apply I5 in H1. rewrite bit_test_clear_all in H1 by lia.
           now apply andb_true_iff in H1.
        -- intros c0 H1 H2.
           destruct (Z.eqb_spec c0 c) as [->|Hne]; [split; [now left|exact Ef]|].
           destruct (I6 c0) as [Hin Hf]; trivial.
           ++ rewrite bit_test_clear_all, H1 by lia. simpl.
              apply negb_true_iff. now apply Z.eqb_neq.
           ++ split; [now right|exact Hf].
        -- intros c0 [<-|Hin] H1 H2; [|now apply I7 with c0].
           apply I5 in H1. rewrite bit_test_clear_all in H1 by lia.
           apply andb_true_iff in H1. destruct H1 as [_ H1].
           rewrite Z.eqb_refl in H1. discriminate.
    + intros E.
      assert (HJ' : on_trial cell puz0 so0 puz
                (store_cell so cell 1
                   (bit_set (bit_clearall (cell_bit (deref so cell)) (ncolor puz)) c)))
        by apply on_trial_step, HJ.
      specialize (IH _ _ _ _ _ _ _ _ _ _ HJ' Hn E).
      destruct IH as (I1 & I2 & I3 & I4 & I5 & I6 & I7).
      split; [exact I1|]. split; [exact I2|]. split; [exact I3|].
      split; [exact I4|]. split; [exact I5|]. split.
      * intros c0 H1 H2. destruct (I6 c0 H1 H2) as [Hin Hf]. split; [now right|exact Hf].
      * intros c0 [<-|Hin] H1 H2; [congruence|now apply I7 with c0].
Qed.

Lemma zrange_In m c : In c (zrange m) <-> 0 <= c < m.
Proof.
  unfold zrange. rewrite in_map_iff. split.
  - intros (x & <- & Hx). apply in_seq in Hx. lia.
  - intros H. exists (Z.to_nat c). split; [lia|]. apply in_seq. lia.
Qed.

Lemma zrange_nonneg m : Forall (fun c => 0 <= c) (zrange m).
Proof. apply List.Forall_forall. intros c H. apply zrange_In in H. lia. Qed.

Lemma zrange_NoDup m : List.NoDup (zrange m).
Proof.
  unfold zrange. apply Finite.Injective_map_NoDup.
  - intros x y H. lia.
  - apply seq_NoDup.
Qed.

Lemma filter_clear_notin b c l :
  0 <= c -> ~ In c l ->
  List.filter (bit_test (bit_clear b c)) l = List.filter (bit_test b) l.
Proof.
  intros Hc. induction l as [|x l IH]; intros Hn; simpl; [reflexivity|].
  rewrite bit_test_clear_all by lia.
  destruct (Z.eqb_spec x c) as [->|Hne]; [exfalso; apply Hn; now left|].
  rewrite andb_true_r. rewrite IH; [reflexivity|]. intros H. apply Hn. now right.
Qed.

Lemma filter_clear_in b c l :
  0 <= c -> List.NoDup l -> In c l -> bit_test b c = true ->
  Z.of_nat (length (List.filter (bit_test (bit_clear b c)) l)) =
  Z.of_nat (length (List.filter (bit_test b) l)) - 1.
Proof.
  intros Hc Hnd. induction Hnd as [|x l Hx Hnd IH]; intros Hin Hb; [destruct Hin|].
  simpl. rewrite bit_test_clear_all by lia.
  destruct (Z.eqb_spec x c) as [->|Hne].
  - rewrite Hb. simpl. rewrite filter_clear_notin by assumption. lia.
  - destruct Hin as [->|Hin]; [congruence|].
    rewrite andb_true_r. specialize (IH Hin Hb). destruct (bit_test b x); simpl length; lia.
Qed.

Lemma count_bits_clear m b c :
  0 <= c < m -> bit_test b c = true ->
  count_bits m (bit_clear b c) = count_bits m b - 1.
Proof.
  intros Hc Hb. unfold count_bits.
  apply filter_clear_in; trivial; [lia|apply zrange_NoDup|now apply zrange_In].
Qed.

(** Every hit of the loop clears one bit that was set. *)
Lemma try_colors_count m cell cs :
  (forall c, In c cs -> 0 <= c < m) ->
  forall puz so realbit realn hits puz' so' realbit' realn' hits',
  try_colors cs puz so cell realbit realn hits = (puz', so', (realbit', realn', hits')) ->
  hits' - hits = count_bits m realbit - count_bits m realbit'.
Proof.
  induction cs as [|c cs IH]; intros Hcs puz so realbit realn hits puz' so' realbit'
    realn' hits'; simpl.
  - intros [= <- <- <- <- <-]. lia.
  - assert (Hcs' : forall c, In c cs -> 0 <= c < m) by (intros c0 H; apply Hcs; now right).
    assert (Hc : 0 <= c < m) by (apply Hcs; now left).
    destruct (bit_test realbit c) eqn:Eb; simpl; [|now apply IH].
    destruct (line_fails _ _ _); [|now apply IH].
    destruct (_ =? 1).
    + intros [= <- <- <- <- <-]. rewrite count_bits_clear by assumption. lia.
    + intros E. apply IH in E; [|assumption].
      rewrite count_bits_clear in E by assumption. lia.
Qed.

Lemma try_colors_no_bits cell cs puz so realbit realn hits :
  (forall c, bit_test realbit c = false) ->
  try_colors cs puz so cell realbit realn hits = (puz, so, (realbit, realn, hits)).
Proof.
  intros H. induction cs as [|c cs IH]; simpl; [reflexivity|].
  now rewrite H.
Qed.

Lemma deref_dangling so cell :
  ~ (cell < length (sol_cells so))%nat -> deref so cell = nullcell.
Proof.
  intros H. unfold deref. rewrite (proj2 (lookup_ge_None _ _)); [reflexivity|lia].
Qed.

Lemma store_cell_dangling so cell n b :
  ~ (cell < length (sol_cells so))%nat -> store_cell so cell n b = so.
Proof.
  intros H. unfold store_cell. rewrite list_insert_ge by lia. now destruct so.
Qed.

Lemma bit_test_zero c : bit_test 0 c = false.
Proof. apply Z.testbit_0_l. Qed.

(** The puzzle outside its job list and [nsolved]. *)
Definition same_setup (p q : Puzzle) : Prop :=
  ptype p = ptype q /\ ncolor p = ncolor q /\ nset p = nset q /\ clue p = clue q /\
  ncells p = ncells q /\ history p = history q.

Lemma same_setup_refl p : same_setup p p.
Proof. repeat split. Qed.

Lemma same_setup_trans p q r : same_setup p q -> same_setup q r -> same_setup p r.
Proof. unfold same_setup. intuition congruence. Qed.

(** What [try_everything] does with one cell. *)
Lemma try_cell_spec puz so hits cell puz' so' hits' :
  try_cell puz so hits cell = (puz', so', hits') ->
  same_setup puz' puz /\
  so' = store_cell so cell (cell_n (deref so' cell)) (cell_bit (deref so' cell)) /\
  0 <= hits' - hits /\
  hits' - hits = cell_n (deref so cell) - cell_n (deref so' cell) /\
  hits' - hits = count_bits (ncolor puz) (cell_bit (deref so cell))
                 - count_bits (ncolor puz) (cell_bit (deref so' cell)) /\
  nsolved puz' = nsolved puz +
    (if solved (deref so cell) then 0 else if solved (deref so' cell) then 1 else 0) /\
  (solved (deref so cell) = true -> solved (deref so' cell) = true) /\
  (forall c, may_be (deref so' cell) c = true -> may_be (deref so cell) c = true) /\
  (forall c, may_be (deref so cell) c = true -> may_be (deref so' cell) c = false ->
     0 <= c < ncolor puz /\ solved (deref so cell) = false /\
     trial_fails puz so cell c = true) /\
  (forall c, 0 <= c < ncolor puz -> may_be (deref so' cell) c = true ->
     solved (deref so cell) = false -> trial_fails puz so cell c = true ->
     cell_n (deref so' cell) = 1).
Proof.
  unfold try_cell, solved, may_be.
  destruct (Z.eqb_spec (cell_n (deref so cell)) 1) as [E1|E1].
  { intros [= <- <- <-]. rewrite store_cell_id, E1.
    repeat split; try lia; try congruence. }
  destruct (try_colors _ puz so cell _ _ hits) as [[puz1 so1] [[realbit1 realn1] hits1]] eqn:E.
  intros [= <- <- <-].
  destruct (decide (cell < length (sol_cells so))%nat) as [Hv|Hd].
  - pose proof (try_colors_spec cell puz so _ (zrange_nonneg _) _ _ _ _ _ _ _ _ _ _
                  (on_trial_refl _ _ _) E1 E) as (I1 & I2 & I3 & I4 & I5 & I6 & I7).
    pose proof (try_colors_count (ncolor puz) cell _ (fun c => proj1 (zrange_In _ c))
                  _ _ _ _ _ _ _ _ _ _ E) as I8.
    destruct I1 as (J1 & J2 & J3 & J4 & J5 & J6 & J7).
    rewrite J7, deref_store_same by assumption. simpl.
    rewrite ?store_cell_store.
    split; [repeat split; assumption|]. split; [reflexivity|].
    split; [lia|]. split; [lia|]. split; [lia|]. split; [|split; [|split; [|split]]].
    + destruct (Z.eqb_spec realn1 1); lia.
    + discriminate.
    + exact I5.
    + intros c H1 H2. destruct (I6 c H1 H2) as [Hin Hf].
      split; [now apply zrange_In|]. split; [reflexivity|exact Hf].
    + intros c Hc H1 _ H2. apply (I7 c); trivial. now apply zrange_In.
  - rewrite (deref_dangling so cell Hd) in E. simpl in E.
    rewrite try_colors_no_bits in E by apply bit_test_zero.
    injection E as <- <- <- <- <-.
    rewrite !store_cell_dangling by assumption.
    rewrite (deref_dangling so cell Hd). simpl.
    repeat split; try lia; try congruence.
    intros c _ H. now rewrite bit_test_zero in H.
Qed.

(** Sums over the cells. *)
Fixpoint total_in (f : Cell -> Z) (l : list Cell) : Z :=
  match l with
  | [] => 0
  | c :: l' => f c + total_in f l'
  end.

Definition total (f : Cell -> Z) (so : Solution) : Z := total_in f (sol_cells so).

Definition total_n (so : Solution) : Z := total cell_n so.

Definition total_bits (m : Z) (so : Solution) : Z :=
  total (fun c => count_bits m (cell_bit c)) so.

Lemma count_solved_total so :
  count_solved so = total (fun c => if solved c then 1 else 0) so.
Proof.
  unfold count_solved, total. induction (sol_cells so) as [|c l IH]; simpl; congruence.
Qed.

Lemma total_in_insert f l i c c' :
  l !! i = Some c -> total_in f (<[i:=c']> l) = total_in f l - f c + f c'.
Proof.
  revert i. induction l as [|x l IH]; intros [|i] H; simpl in *; try discriminate.
  - injection H as ->. lia.
  - rewrite (IH i H). lia.
Qed.

(** The sum after the assignment that leads from [so] to [so']. *)
Lemma total_assigned f so so' cell :
  so' = store_cell so cell (cell_n (deref so' cell)) (cell_bit (deref so' cell)) ->
  total f so' = total f so - f (deref so cell) + f (deref so' cell).
Proof.
  intros E. destruct (decide (cell < length (sol_cells so))%nat) as [Hv|Hd].
  - assert (D : deref so' cell =
                mkCell (cell_line (deref so cell)) (cell_n (deref so' cell))
                  (cell_bit (deref so' cell))).
    { rewrite E at 1. now apply deref_store_same. }
    rewrite E at 1. unfold total, store_cell. simpl.
    destruct (lookup_lt_is_Some_2 _ _ Hv) as [c Hc].
    rewrite (total_in_insert f _ _ c) by assumption.
    rewrite <- D. unfold deref. rewrite Hc. reflexivity.
  - rewrite store_cell_dangling in E by assumption. subst so'. lia.
Qed.

Lemma try_colors_hits_mono cell cs puz so realbit realn hits :
  hits <= snd (snd (try_colors cs puz so cell realbit realn hits)).
Proof.
  revert puz so realbit realn hits.
  induction cs as [|c cs IH]; intros puz so realbit realn hits; simpl; [lia|].
  destruct (negb _); [apply IH|].
  destruct (line_fails _ _ _); [|apply IH].
  destruct (_ =? 1); simpl; [lia|].
  etransitivity; [|apply IH]. lia.
Qed.

Lemma try_colors_no_hit cell cs puz so realbit realn hits puz' so' realbit' realn' :
  try_colors cs puz so cell realbit realn hits = (puz', so', (realbit', realn', hits)) ->
  puz' = puz /\ realbit' = realbit /\ realn' = realn /\
  forall n b, store_cell so' cell n b = store_cell so cell n b.
Proof.
  revert puz so. induction cs as [|c cs IH]; intros puz so; simpl.
  - intros [= <- <- <- <-]. repeat split.
  - destruct (negb _); [apply IH|].
    destruct (line_fails _ _ _).
    + destruct (_ =? 1).
      * intros [= _ _ _ _ H]. lia.
      * intros E.
        match type of E with try_colors ?cs ?p ?s ?ce ?rb ?rn ?h = _ =>
          pose proof (try_colors_hits_mono ce cs p s rb rn h) as M end.
        rewrite E in M. simpl in M. lia.
    + intros E. apply IH in E. destruct E as (-> & -> & -> & H).
      repeat split. intros n b. rewrite H. apply store_cell_store.
Qed.

Lemma try_cell_hits_mono puz so hits cell : hits <= snd (try_cell puz so hits cell).
Proof.
  unfold try_cell. destruct (_ =? 1); simpl; [lia|].
  match goal with |- context [try_colors ?cs ?p ?s ?ce ?rb ?rn ?h] =>
    pose proof (try_colors_hits_mono ce cs p s rb rn h) as M;
    destruct (try_colors cs p s ce rb rn h) as [[p1 s1] [[b1 n1] h1]] end.
  exact M.
Qed.

Lemma try_cell_no_hit puz so hits cell puz' so' :
  try_cell puz so hits cell = (puz', so', hits) -> puz' = puz /\ so' = so.
Proof.
  unfold try_cell. destruct (_ =? 1); [now intros [= <- <-]|].
  destruct (try_colors _ _ _ _ _ _ _) as [[p1 s1] [[b1 n1] h1]] eqn:E.
  intros [= <- <- ->]. apply try_colors_no_hit in E.
  destruct E as (-> & -> & -> & H). split; [reflexivity|].
  rewrite H. apply store_cell_id.
Qed.

Lemma try_cells_hits_mono cells puz so hits :
  hits <= snd (try_cells cells puz so hits).
Proof.
  unfold try_cells. revert puz so hits.
  induction cells as [|cell cells IH]; intros puz so hits; simpl; [lia|].
  pose proof (try_cell_hits_mono puz so hits cell) as M.
  destruct (try_cell puz so hits cell) as [[p1 s1] h1]. simpl in M.
  etransitivity; [exact M|apply IH].
Qed.

Lemma try_cells_no_hit cells puz so hits puz' so' :
  try_cells cells puz so hits = (puz', so', hits) -> puz' = puz /\ so' = so.
Proof.
  unfold try_cells. revert puz so.
  induction cells as [|cell cells IH]; intros puz so; simpl.
  - now intros [= <- <-].
  - pose proof (try_cell_hits_mono puz so hits cell) as M.
    destruct (try_cell puz so hits cell) as [[p1 s1] h1] eqn:E1. simpl in M.
    intros E.
    pose proof (try_cells_hits_mono cells p1 s1 h1) as M'.
    unfold try_cells in M'. rewrite E in M'. simpl in M'.
    assert (h1 = hits) by lia. subst h1.
    apply IH in E. destruct E as [-> ->]. now apply try_cell_no_hit in E1.
Qed.

(** The same grid: the line arrays and the number of cells. *)
Definition same_grid (so' so : Solution) : Prop :=
  sol_nset so' = sol_nset so /\ sol_line so' = sol_line so /\
  length (sol_cells so') = length (sol_cells so).

Lemma same_grid_store so cell n b : same_grid (store_cell so cell n b) so.
Proof. unfold same_grid, store_cell. simpl. now rewrite length_insert. Qed.

Lemma same_grid_trans a b c : same_grid a b -> same_grid b c -> same_grid a c.
Proof. unfold same_grid. intuition congruence. Qed.

(** What [try_everything] does over a list of cells: it writes no history,
    [hits] grows by the number of colours, and of possibilities counted in
    [n], that the cells lose, the difference between [nsolved] and the
    number of solved cells stays, and no cell gains a colour. *)
Lemma try_cells_spec cells :
  forall puz so hits puz' so' hits',
  try_cells cells puz so hits = (puz', so', hits') ->
  same_setup puz' puz /\ same_grid so' so /\
  hits' - hits = total_n so - total_n so' /\
  hits' - hits = total_bits (ncolor puz) so - total_bits (ncolor puz) so' /\
  nsolved puz' - count_solved so' = nsolved puz - count_solved so /\
  (forall p c, may_be (deref so' p) c = true -> may_be (deref so p) c = true).
Proof.
  unfold try_cells.
  induction cells as [|cell cells IH]; intros puz so hits puz' so' hits'; simpl.
  - intros [= <- <- <-]. repeat split; try lia; trivial.
  - destruct (try_cell puz so hits cell) as [[p1 s1] h1] eqn:E1. intros E.
    apply IH in E. destruct E as (A1 & A2 & A3 & A4 & A5 & A6).
    apply try_cell_spec in E1.
    destruct E1 as (B1 & B2 & B3 & B4 & B5 & B6 & B7 & B8 & B9 & B10).
    assert (G : same_grid s1 so) by (rewrite B2; apply same_grid_store).
    split; [eapply same_setup_trans; eassumption|].
    split; [eapply same_grid_trans; eassumption|].
    pose proof (total_assigned cell_n so s1 cell B2) as T1.
    pose proof (total_assigned (fun c => count_bits (ncolor puz) (cell_bit c)) so s1 cell B2)
      as T2.
    pose proof (total_assigned (fun c => if solved c then 1 else 0) so s1 cell B2) as T3.
    rewrite <- !count_solved_total in T3.
    assert (Hc : ncolor p1 = ncolor puz) by apply B1.
    rewrite Hc in A4. unfold total_n, total_bits in *.
    split; [lia|]. split; [lia|]. split.
    + destruct (solved (deref so cell)) eqn:S0.
      * rewrite (B7 eq_refl) in T3. lia.
      * destruct (solved (deref s1 cell)); lia.
    + intros p c H. apply A6 in H.
      destruct (decide (cell = p)) as [<-|Hne]; [now apply B8|].
      rewrite B2 in H. now rewrite deref_store_other in H.
Qed.

Lemma try_everything_spec puz so hits puz' so' :
  try_everything puz so = (hits, (puz', so')) ->
  same_setup puz' puz /\ same_grid so' so /\
  0 <= hits /\
  hits = total_n so - total_n so' /\
  hits = total_bits (ncolor puz) so - total_bits (ncolor puz) so' /\
  nsolved puz' - count_solved so' = nsolved puz - count_solved so /\
  (forall p c, may_be (deref so' p) c = true -> may_be (deref so p) c = true) /\
  (hits = 0 -> puz' = puz /\ so' = so).
Proof.
  unfold try_everything.
  pose proof (try_cells_hits_mono (all_cells so) puz so 0) as M.
  destruct (try_cells (all_cells so) puz so 0) as [[p1 s1] h1] eqn:E.
  intros [= <- <- <-]. simpl in M.
  pose proof (try_cells_spec _ _ _ _ _ _ _ E) as (A1 & A2 & A3 & A4 & A5 & A6).
  repeat split; try apply A1; try apply A2; try lia; trivial;
    subst h1; now apply try_cells_no_hit in E.
Qed.

(** ** The counter of solved cells *)

Definition nsolved_ok (w : World) : Prop := nsolved (puz w) = count_solved (sol w).

Lemma count_solved_store so cell n b :
  (cell < length (sol_cells so))%nat ->
  count_solved (store_cell so cell n b) =
  count_solved so - (if solved (deref so cell) then 1 else 0) + (if n =? 1 then 1 else 0).
Proof.
  intros Hv. rewrite !count_solved_total.
  rewrite (total_assigned _ so (store_cell so cell n b) cell).
  - rewrite deref_store_same by assumption. reflexivity.
  - rewrite deref_store_same by assumption. reflexivity.
Qed.

Lemma guess_cell_count puz so cell c :
  (cell < length (sol_cells so))%nat ->
  cell_n (deref so cell) <> 1 ->
  nsolved (fst (guess_cell puz so cell c)) - count_solved (snd (guess_cell puz so cell c))
  = nsolved puz - count_solved so.
Proof.
  intros Hv Hn. rewrite guess_cell_nsolved, guess_cell_sol.
  rewrite count_solved_store by assumption. unfold solved.
  destruct (Z.eqb_spec (cell_n (deref so cell)) 1); [contradiction|]. simpl. lia.
Qed.


(** ** The driver *)

Lemma upd_world_same s : upd_world (set_ps (puz (world s), sol (world s))) s = s.
Proof. now destruct s as [[] ? ? ? ?]. Qed.

Lemma st_try_everything_idle s :
  fst (st_try_everything s) = 0 -> snd (st_try_everything s) = s.
Proof.
  unfold st_try_everything. simpl.
  destruct (try_everything _ _) as [hits [p1 s1]] eqn:E. simpl. intros ->.
  apply try_everything_spec in E.
  destruct E as (_ & _ & _ & _ & _ & _ & _ & H). destruct (H eq_refl) as [-> ->].
  apply upd_world_same.
Qed.





(** ** The invariant of the counter of solved cells

    [nsolved] is the number of cells with [n = 1]; to carry this through
    [undo] and [backtrack], the history has to hold cells of the store that
    were unsolved when they were recorded. *)

Definition hist_ok_in (ncell : nat) (h : list Hist) : Prop :=
  Forall (fun e => h_n e <> 1 /\ (h_cell e < ncell)%nat) h.

Definition inv (pz : Puzzle) (so : Solution) : Prop :=
  nsolved pz = count_solved so /\ hist_ok_in (length (sol_cells so)) (history pz).

Definition Inv (w : World) : Prop := inv (puz w) (sol w).

Lemma Inv_nsolved_ok w : Inv w -> nsolved_ok w.
Proof. intros [H _]. exact H. Qed.

Lemma guess_cell_inv pz so cell c :
  (cell < length (sol_cells so))%nat -> cell_n (deref so cell) <> 1 ->
  inv pz so -> inv (fst (guess_cell pz so cell c)) (snd (guess_cell pz so cell c)).
Proof.
  intros Hv Hn [H1 H2]. split.
  - pose proof (guess_cell_count pz so cell c Hv Hn). lia.
  - rewrite guess_cell_history, guess_cell_sol.
    destruct (same_grid_store so cell 1 (bit_set 0 c)) as (_ & _ & ->).
    constructor; [split; assumption|exact H2].
Qed.

Lemma try_everything_inv pz so :
  inv pz so ->
  inv (fst (snd (try_everything pz so))) (snd (snd (try_everything pz so))).
Proof.
  intros [H1 H2]. destruct (try_everything pz so) as [hits [pz' so']] eqn:E. simpl.
  apply try_everything_spec in E.
  destruct E as (A1 & A2 & _ & _ & _ & A6 & _). split; [lia|].
  destruct A1 as (_ & _ & _ & _ & _ & ->). destruct A2 as (_ & _ & ->). exact H2.
Qed.

(** The difference between [nsolved] and the number of solved cells. *)
Definition gap (ps : Puzzle * Solution) : Z := nsolved (fst ps) - count_solved (snd ps).

Lemma restore_gap e ps :
  h_n e <> 1 -> (h_cell e < length (sol_cells (snd ps)))%nat ->
  gap (restore e ps) = gap ps /\ same_grid (snd (restore e ps)) (snd ps) /\
  history (fst (restore e ps)) = history (fst ps) /\
  ncolor (fst (restore e ps)) = ncolor (fst ps).
Proof.
  destruct ps as [pz so]. intros Hn Hv. unfold gap, restore. simpl.
  rewrite count_solved_store by assumption. unfold solved.
  destruct (Z.eqb_spec (h_n e) 1); [contradiction|].
  split; [|split; [apply same_grid_store|]].
  - destruct (cell_n (deref so (h_cell e)) =? 1); simpl; lia.
  - destruct (cell_n (deref so (h_cell e)) =? 1); simpl; split; reflexivity.
Qed.

Lemma hist_ok_in_grid so' so h :
  same_grid so' so -> hist_ok_in (length (sol_cells so)) h ->
  hist_ok_in (length (sol_cells so')) h.
Proof. intros (_ & _ & ->). trivial. Qed.

Lemma undo_entries_gap h :
  forall ps, hist_ok_in (length (sol_cells (snd ps))) h ->
  gap (snd (undo_entries h ps)) = gap ps /\
  same_grid (snd (snd (undo_entries h ps))) (snd ps) /\
  hist_ok_in (length (sol_cells (snd ps))) (fst (undo_entries h ps)).
Proof.
  induction h as [|e h IH]; intros ps Hh; simpl.
  - repeat split. constructor.
  - inversion Hh as [|? ? [Hn Hv] Hh']; subst.
    destruct (restore_gap e ps Hn Hv) as (R1 & R2 & _).
    destruct (h_branch e); simpl; [repeat split; trivial; apply R2|].
    destruct (IH (restore e ps)) as (I1 & I2 & I3).
    { eapply hist_ok_in_grid; eassumption. }
    split; [congruence|]. split; [eapply same_grid_trans; eassumption|].
    destruct R2 as (_ & _ & R2). now rewrite <- R2.
Qed.

Lemma undo_inv ps : inv (fst ps) (snd ps) -> inv (fst (undo ps)) (snd (undo ps)).
Proof.
  intros [H1 H2]. unfold undo.
  destruct (undo_entries_gap (history (fst ps)) ps H2) as (U1 & U2 & U3).
  destruct (undo_entries _ ps) as [h [pz' so']]. simpl in *. unfold gap in U1. simpl in U1.
  split; simpl; [lia|]. eapply hist_ok_in_grid; eassumption.
Qed.

Lemma add_hist_ok pz so cell b n :
  hist_ok_in n (history pz) -> (cell < n)%nat -> cell_n (deref so cell) <> 1 ->
  hist_ok_in n (history (add_hist pz so cell b)).
Proof.
  intros H Hv Hn. unfold add_hist. destruct (_ || _); [|exact H].
  simpl. constructor; [split; assumption|exact H].
Qed.

Lemma backtrack_entries_inv h :
  forall ps, hist_ok_in (length (sol_cells (snd ps))) h ->
  gap (snd (backtrack_entries h ps)) = gap ps /\
  same_grid (snd (snd (backtrack_entries h ps))) (snd ps) /\
  hist_ok_in (length (sol_cells (snd ps))) (history (fst (snd (backtrack_entries h ps)))).
Proof.
  induction h as [|e h IH]; intros ps Hh; simpl.
  - split; [reflexivity|]. split; [repeat split|constructor].
  - inversion Hh as [|? ? [Hn Hv] Hh']; subst.
    destruct (restore_gap e ps Hn Hv) as (R1 & R2 & R3 & R4).
    assert (Hh1 : hist_ok_in (length (sol_cells (snd (restore e ps)))) h)
      by (eapply hist_ok_in_grid; eassumption).
    assert (Hlen : length (sol_cells (snd (restore e ps))) = length (sol_cells (snd ps)))
      by apply R2.
    destruct (h_branch e).
    + destruct (restore e ps) as [puz1 sol1] eqn:ER. simpl in *.
      destruct (Z.eqb_spec (count_bits (ncolor puz1)
                  (Z.ldiff (h_bit e) (cell_bit (deref (snd ps) (h_cell e))))) 0) as [E0|E0].
      * destruct (IH (puz1, sol1) Hh1) as (I1 & I2 & I3). simpl in *.
        split; [congruence|]. split; [eapply same_grid_trans; eassumption|].
        now rewrite <- Hlen.
      * set (newbit := Z.ldiff _ _) in *. set (newn := count_bits _ newbit) in *.
        simpl.
        assert (Hd : cell_n (deref sol1 (h_cell e)) = h_n e).
        { assert (sol1 = snd (restore e ps)) as -> by now rewrite ER.
          destruct ps as [pz so]. simpl. rewrite deref_store_same by assumption.
          reflexivity. }
        split; [|split].
        -- unfold gap in *. simpl in *. rewrite add_jobs_nsolved.
           rewrite count_solved_store by lia. unfold solved. rewrite Hd.
           destruct (Z.eqb_spec (h_n e) 1); [contradiction|].
           assert (Hns : forall b, nsolved (add_hist (set_history h puz1) sol1 (h_cell e) b)
                                   = nsolved puz1).
           { intros b. unfold add_hist. now destruct (_ || _). }
           destruct (newn =? 1); simpl; rewrite ?Hns; lia.
        -- eapply same_grid_trans; [apply same_grid_store|exact R2].
        -- rewrite add_jobs_history.
           assert (Hok : hist_ok_in (length (sol_cells (snd ps)))
                           (history (add_hist (set_history h puz1) sol1 (h_cell e) false))).
           { apply add_hist_ok; simpl; trivial. congruence. }
           now destruct (newn =? 1).
    + destruct (IH (restore e ps) Hh1) as (I1 & I2 & I3).
      split; [congruence|]. split; [eapply same_grid_trans; eassumption|].
      now rewrite <- Hlen.
Qed.

Lemma backtrack_inv ps :
  inv (fst ps) (snd ps) -> inv (fst (snd (backtrack ps))) (snd (snd (backtrack ps))).
Proof.
  intros [H1 H2]. unfold backtrack.
  destruct (backtrack_entries_inv (history (fst ps)) (flush_jobs (fst ps), snd ps) H2)
    as (B1 & B2 & B3).
  unfold gap in B1. simpl in B1. split; [lia|].
  eapply hist_ok_in_grid; eassumption.
Qed.

(** What the invariant asks of the collaborators: the line solver and
    [merge_check] keep it, and the trunk's propagation keeps it and only
    pushes history entries that are no branch points. *)
Definition grows (h h' : list Hist) : Prop :=
  exists hs, h' = hs ++ h /\ Forall (fun e => h_branch e = false) hs.

Definition lro_keeps_inv : Prop := forall w k i, Inv w -> Inv (snd (apply_lro w k i)).

Definition merge_check_keeps_inv : Prop := forall w, Inv w -> Inv (snd (merge_check w)).

Definition propagation_keeps_inv : Prop :=
  forall s, Inv (world s) ->
    Inv (world (snd (logic_solve3 s))) /\
    grows (history (puz (world s))) (history (puz (world (snd (logic_solve3 s))))).

Lemma Inv_same_ps w w' : puz w' = puz w -> sol w' = sol w -> Inv w -> Inv w'.
Proof. unfold Inv. now intros -> ->. Qed.

Lemma Inv_jobs w pz :
  same_but_jobs pz (puz w) -> Inv w -> Inv (set_ps (pz, sol w) w).
Proof.
  intros (_ & _ & _ & _ & _ & Hn & Hh) [H1 H2]. unfold Inv, inv. simpl.
  now rewrite Hn, Hh.
Qed.

Lemma next_job_frame pz k i pz' : next_job pz = Some (k, i, pz') -> same_but_jobs pz' pz.
Proof.
  unfold next_job. destruct (best_job (job pz)); [|discriminate].
  intros [= _ _ <-]. repeat split.
Qed.

Lemma logic_solve_inv fuel s :
  lro_keeps_inv -> Inv (world s) -> Inv (world (lres_state (logic_solve fuel s))).
Proof.
  intros HL. revert s. induction fuel as [|f IH]; intros s HI; simpl; [exact HI|].
  destruct (next_job (puz (world s))) as [[[dir i] pz']|] eqn:E; [|exact HI].
  apply next_job_frame in E.
  match goal with |- context [apply_lro ?w dir i] =>
    pose proof (HL w dir i) as HA; destruct (apply_lro w dir i) as [[|] w'] end;
    simpl in *.
  - apply IH. simpl. apply HA. now apply Inv_jobs.
  - apply HA. now apply Inv_jobs.
Qed.

Lemma undo_entries_app hs e h ps :
  Forall (fun e => h_branch e = false) hs -> h_branch e = true ->
  undo_entries (hs ++ e :: h) ps = (h, restore e (fold_left (fun a x => restore x a) hs ps)).
Proof.
  intros Hhs He. revert ps. induction Hhs as [|x hs Hx Hhs IH]; intros ps; simpl.
  - now rewrite He.
  - rewrite Hx. apply IH.
Qed.

(** A probe undone: the cell of the guess has its old [n] again. *)
Lemma undo_after_guess hs e h pz so :
  Forall (fun e => h_branch e = false) hs -> h_branch e = true ->
  history pz = hs ++ e :: h ->
  hist_ok_in (length (sol_cells so)) (history pz) ->
  cell_n (deref (snd (undo (pz, so))) (h_cell e)) = h_n e /\
  cell_bit (deref (snd (undo (pz, so))) (h_cell e)) = h_bit e /\
  history (fst (undo (pz, so))) = h.
Proof.
  intros Hhs He Hh Hok. unfold undo. simpl. rewrite Hh.
  rewrite (undo_entries_app hs e h (pz, so) Hhs He).
  rewrite Hh in Hok.
  assert (G : forall ps, hist_ok_in (length (sol_cells (snd ps))) hs ->
                same_grid (snd (fold_left (fun a x => restore x a) hs ps)) (snd ps)).
  { clear. induction hs as [|x hs IH]; intros ps Hok; simpl; [repeat split|].
    inversion Hok as [|? ? [Hn Hv] Hok']; subst.
    destruct (restore_gap x ps Hn Hv) as (_ & R2 & _).
    eapply same_grid_trans; [apply IH|exact R2].
    eapply hist_ok_in_grid; eassumption. }
  apply Forall_app in Hok. destruct Hok as [Hok1 Hok2].
  specialize (G (pz, so) Hok1). simpl in G.
  inversion Hok2 as [|? ? [Hn Hv] _]; subst.
  destruct (fold_left _ hs (pz, so)) as [pz1 so1]. simpl in *.
  destruct G as (_ & _ & G).
  rewrite deref_store_same by lia. repeat split.
Qed.

Lemma grows_refl h : grows h h.
Proof. exists []. split; [reflexivity|constructor]. Qed.

Lemma grows_trans h1 h2 h3 : grows h1 h2 -> grows h2 h3 -> grows h1 h3.
Proof.
  intros (a & -> & Ha) (b & -> & Hb). exists (b ++ a).
  split; [now rewrite app_assoc|]. now apply Forall_app.
Qed.

(** Propagation pushes no branch point when the line solver pushes none. *)
Lemma logic_solve_grows fuel s :
  (forall w k i, grows (history (puz w)) (history (puz (snd (apply_lro w k i))))) ->
  grows (history (puz (world s))) (history (puz (world (lres_state (logic_solve fuel s))))).
Proof.
  intros HL. revert s. induction fuel as [|f IH]; intros s; simpl; [apply grows_refl|].
  destruct (next_job (puz (world s))) as [[[dir i] pz']|] eqn:E; [|apply grows_refl].
  apply next_job_frame in E. destruct E as (_ & _ & _ & _ & _ & _ & E).
  match goal with |- context [apply_lro ?w dir i] =>
    pose proof (HL w dir i) as HA; destruct (apply_lro w dir i) as [[|] w'] end;
    simpl in *; rewrite E in HA.
  - eapply grows_trans; [exact HA|]. apply (IH (set_world w' _)).
  - exact HA.
Qed.

Section ProbeInvariant.

Hypothesis merge_check_ok : merge_check_keeps_inv.
Hypothesis propagation_ok : propagation_keeps_inv.

(** The loop invariant of [probe_cell]: the invariant of the world, and the
    cell probed is a cell of the store that is not solved. *)
Definition probing_ok (cell : nat) (s : State) : Prop :=
  Inv (world s) /\ (cell < length (sol_cells (sol (world s))))%nat /\
  cell_n (deref (sol (world s)) cell) <> 1.

Lemma probing_ok_when f cell s :
  (forall x, puz (world (f x)) = puz (world x) /\ sol (world (f x)) = sol (world x)) ->
  probing_ok cell s -> probing_ok cell (when_merging f s).
Proof.
  intros Hf H. unfold when_merging. destruct (merging _); [|exact H].
  destruct (Hf s) as [E1 E2]. unfold probing_ok, Inv. now rewrite E1, E2.
Qed.

Lemma probe_color_inv cell i j c v :
  probing_ok cell (p_state v) ->
  match probe_color cell i j c v with
  | inl v' => probing_ok cell (p_state v')
  | inr r => Inv (world (pres_state r))
  end.
Proof.
  intros HP. unfold probe_color.
  destruct (may_be _ c); [|exact HP].
  destruct (bit_test _ c).
  { simpl. apply probing_ok_when; [|exact HP]. intros x. split; reflexivity. }
  set (s2 := when_merging st_merge_guess (incr_probes (p_state v))).
  assert (HP2 : probing_ok cell s2).
  { subst s2. apply probing_ok_when; [intros x; split; reflexivity|exact HP]. }
  destruct HP2 as (HI & Hv & Hn).
  set (s3 := st_guess_cell cell c s2).
  assert (HI3 : Inv (world s3)) by (apply guess_cell_inv; assumption).
  assert (Hh3 : history (puz (world s3)) =
                mkHist true cell (cell_n (deref (sol (world s2)) cell))
                  (cell_bit (deref (sol (world s2)) cell)) :: history (puz (world s2)))
    by apply guess_cell_history.
  destruct (propagation_ok s3 HI3) as [HI4 (hs & Hh4 & Hhs)].
  destruct (logic_solve3 s3) as [rc s4]. cbn [snd] in HI4, Hh4.
  destruct (rc =? 0).
  - assert (HU : probing_ok cell (st_undo s4)).
    { rewrite Hh3 in Hh4. destruct HI4 as [HI4a HI4b].
      destruct (undo_after_guess hs
                  (mkHist true cell (cell_n (deref (sol (world s2)) cell))
                     (cell_bit (deref (sol (world s2)) cell)))
                  (history (puz (world s2))) (puz (world s4)) (sol (world s4))
                  Hhs eq_refl Hh4 HI4b) as (U1 & U2 & U3).
      simpl in U1, U2.
      split; [apply (undo_inv (puz (world s4), sol (world s4))); split; assumption|].
      assert (G : same_grid (snd (undo (puz (world s4), sol (world s4)))) (sol (world s4))).
      { unfold undo. simpl.
        pose proof (undo_entries_gap (history (puz (world s4)))
                      (puz (world s4), sol (world s4)) HI4b) as (_ & G & _).
        now destruct (undo_entries _ _) as [h' [pz' so']]. }
      split.
      - unfold st_undo. simpl. destruct G as (_ & _ & ->).
        rewrite Hh4 in HI4b. apply Forall_app in HI4b. destruct HI4b as [_ HI4b].
        inversion HI4b as [|? ? [_ Hv'] _]. exact Hv'.
      - unfold st_undo. simpl. rewrite U1. exact Hn. }
    destruct (_ <? p_bestnleft v); exact HU.
  - destruct (rc <? 0).
    + unfold st_backtrack. simpl.
      set (s5 := when_merging st_merge_cancel s4).
      assert (HI5 : Inv (world s5)).
      { subst s5. unfold when_merging. destruct (merging _); exact HI4. }
      pose proof (backtrack_inv (puz (world s5), sol (world s5)) HI5) as HB.
      destruct (backtrack _) as [[|] ps]; exact HB.
    + simpl. unfold when_merging. destruct (merging _); exact HI4.
Qed.

Lemma probe_colors_inv cs cell i j v :
  probing_ok cell (p_state v) ->
  match probe_colors cs cell i j v with
  | inl v' => probing_ok cell (p_state v')
  | inr r => Inv (world (pres_state r))
  end.
Proof.
  revert v. induction cs as [|c cs IH]; intros v HP; simpl; [exact HP|].
  pose proof (probe_color_inv cell i j c v HP) as HC.
  destruct (probe_color cell i j c v) as [v'|r]; [now apply IH|exact HC].
Qed.

Lemma probe_cell_inv cfg s cell i j bn bc log :
  probing_ok cell s -> Inv (world (pres_state (probe_cell cfg s cell i j bn bc log))).
Proof.
  intros HP. unfold probe_cell.
  match goal with |- context [probe_colors ?cs _ _ _ ?v] =>
    pose proof (probe_colors_inv cs cell i j v HP) as HC;
    destruct (probe_colors cs cell i j v) as [v'|r] end; [|exact HC].
  destruct HC as [HI _].
  destruct (merging _); [|exact HI].
  unfold st_merge_check. pose proof (merge_check_ok _ HI) as HM.
  destruct (merge_check _) as [[|] w]; exact HM.
Qed.

Lemma unsolved_probing_ok cell s :
  Inv (world s) -> (cell_n (deref (sol (world s)) cell) <? 2) = false ->
  probing_ok cell s.
Proof.
  intros HI Hn. apply Z.ltb_ge in Hn. split; [exact HI|].
  destruct (decide (cell < length (sol_cells (sol (world s))))%nat) as [Hv|Hd].
  - split; [exact Hv|lia].
  - rewrite deref_dangling in Hn by assumption. simpl in Hn. lia.
Qed.

Lemma probe_at_inv cfg cell i j v :
  probing_ok cell (q_state v) -> Inv (world (qstep_state (probe_at cfg cell i j v))).
Proof.
  intros HP. unfold probe_at.
  pose proof (probe_cell_inv cfg (q_state v) cell i j (q_bestnleft v) (q_bestc v)
                (q_log v) HP) as HC.
  destruct (probe_cell _ _ _ _ _ _ _ _) as [rc pv|s1]; [|exact HC].
  destruct (rc <? 0); [exact HC|]. destruct (rc >? 0); exact HC.
Qed.

Lemma probe_neighbors_inv cfg ns ci cj v :
  Inv (world (q_state v)) ->
  Inv (world (qstep_state (probe_neighbors cfg ns ci cj v))).
Proof.
  revert v. induction ns as [|n ns IH]; intros v HI; simpl; [exact HI|].
  destruct (neighbor _ ci cj n) as [[i j]|]; [|now apply IH].
  destruct (line_cell _ D_ROW i j) as [cell|]; [|now apply IH].
  destruct (_ <? 2) eqn:En; [now apply IH|].
  pose proof (probe_at_inv cfg cell i j v (unsolved_probing_ok cell _ HI En)) as HC.
  destruct (probe_at cfg cell i j v) as [v'|r]; [now apply IH|exact HC].
Qed.

Lemma probe_history_inv cfg k v :
  Inv (world (q_state v)) -> Inv (world (qstep_state (probe_history cfg k v))).
Proof.
  revert v. induction k as [|k IH]; intros v HI; cbn [probe_history]; [exact HI|].
  destruct (hist_at _ k) as [h|]; [|exact HI].
  match goal with |- context [probe_neighbors cfg ?ns ?ci ?cj v] =>
    pose proof (probe_neighbors_inv cfg ns ci cj v HI) as HC;
    destruct (probe_neighbors cfg ns ci cj v) as [v'|r] end; [|exact HC].
  destruct (h_branch h); [exact HC|now apply IH].
Qed.

Lemma probe_row_inv cfg i j r v :
  Inv (world (q_state v)) -> Inv (world (qstep_state (probe_row cfg i j r v))).
Proof.
  revert j v. induction r as [|cell r IH]; intros j v HI; simpl; [exact HI|].
  assert (HC : Inv (world (qstep_state (probe_full_cell cfg i j cell v)))).
  { unfold probe_full_cell. destruct (cell_n _ <? 2) eqn:En; [exact HI|].
    destruct (count_neighbors _ _ _ <? 2); [exact HI|].
    apply probe_at_inv. now apply unsolved_probing_ok. }
  destruct (probe_full_cell cfg i j cell v) as [v'|res]; [now apply IH|exact HC].
Qed.

Lemma probe_rows_inv cfg i rows v :
  Inv (world (q_state v)) -> Inv (world (qstep_state (probe_rows cfg i rows v))).
Proof.
  revert i v. induction rows as [|r rows IH]; intros i v HI; simpl; [exact HI|].
  pose proof (probe_row_inv cfg i 0 r v HI) as HC.
  destruct (probe_row cfg i 0 r v) as [v'|res]; [now apply IH|exact HC].
Qed.

Lemma probe_inv cfg s bi bj bc :
  Inv (world s) -> Inv (world (qres_state (probe cfg s bi bj bc))).
Proof.
  intros HI. unfold probe.
  assert (H2 : Inv (world (qstep_state (probe_passes cfg s bi bj bc)))).
  { unfold probe_passes.
    set (v0 := mkQVars _ INT_MAX bi bj bc []).
    assert (H0 : Inv (world (q_state v0))) by exact HI.
    set (pass1 := if probelevel cfg >? 1 then _ else _).
    assert (H1 : Inv (world (qstep_state pass1))).
    { subst pass1. destruct (_ >? 1); [now apply probe_history_inv|exact H0]. }
    destruct pass1 as [v1|r]; [|exact H1].
    now apply probe_rows_inv. }
  destruct (probe_passes cfg s bi bj bc) as [v2|r]; [|exact H2].
  destruct (_ =? INT_MAX); exact H2.
Qed.

End ProbeInvariant.

(** C1: in every state that satisfies the invariant -- [nsolved] is the
    number of cells with [n = 1], and the history holds cells that were
    unsolved when recorded -- the invariant holds again when [guess_cell]
    (on a cell that is not solved, as its callers ensure), [try_everything],
    [logic_solve], [undo], [backtrack], [probe_cell] or [probe] returns,
    provided the collaborators that are not among the sources keep it.
    [guess_cell] leaves the cell with [n = 1] and [nsolved] one higher, and
    [try_everything] keeps the equality although it overwrites cells while it
    runs. *)
Theorem nsolved_counts_solved_cells :
  lro_keeps_inv -> merge_check_keeps_inv -> propagation_keeps_inv ->
  forall s, Inv (world s) ->
    nsolved (puz (world s)) = count_solved (sol (world s)) /\
    (forall cell c,
       (cell < length (sol_cells (sol (world s))))%nat ->
       cell_n (deref (sol (world s)) cell) <> 1 ->
       Inv (world (st_guess_cell cell c s)) /\
       nsolved (puz (world (st_guess_cell cell c s))) = nsolved (puz (world s)) + 1 /\
       cell_n (deref (sol (world (st_guess_cell cell c s))) cell) = 1 /\
       count_solved (sol (world (st_guess_cell cell c s))) = count_solved (sol (world s)) + 1) /\
    Inv (world (snd (st_try_everything s))) /\
    (forall fuel, Inv (world (lres_state (logic_solve fuel s)))) /\
    Inv (world (st_undo s)) /\
    Inv (world (snd (st_backtrack s))) /\
    (forall cfg cell i j bestnleft bestc log,
       2 <= cell_n (deref (sol (world s)) cell) ->
       Inv (world (pres_state (probe_cell cfg s cell i j bestnleft bestc log)))) /\
    (forall cfg besti bestj bestc,
       Inv (world (qres_state (probe cfg s besti bestj bestc)))).
Proof.
  intros HL HM HP s HI.
  split; [apply HI|]. split; [|split; [|split; [|split; [|split; [|split]]]]].
  - intros cell c Hv Hn.
    pose proof (guess_cell_inv (puz (world s)) (sol (world s)) cell c Hv Hn HI) as HG.
    split; [exact HG|]. split; [apply guess_cell_nsolved|].
    unfold st_guess_cell. cbn [upd_world set_world world set_ps sol snd].
    rewrite guess_cell_sol.
    split; [now rewrite deref_store_same|].
    rewrite count_solved_store by assumption. unfold solved.
    destruct (Z.eqb_spec (cell_n (deref (sol (world s)) cell)) 1); [contradiction|].
    simpl. lia.
  - apply (try_everything_inv _ _ HI).
  - intros fuel. now apply logic_solve_inv.
  - apply (undo_inv (puz (world s), sol (world s)) HI).
  - apply (backtrack_inv (puz (world s), sol (world s)) HI).
  - intros cfg cell i j bn bc log Hn. apply probe_cell_inv; trivial.
    apply unsolved_probing_ok; [exact HI|]. apply Z.ltb_ge. lia.
  - intros cfg bi bj bc. now apply probe_inv.
Qed.

(** ** A probe that ends in a contradiction *)




















(** ** The best probe *)




















(** ** The frame of a probe *)


End Properties.

(** * The small instance keeps the contracts *)

Section DemoContracts.

Lemma add_hist_grows pz so cell :
  grows (history pz) (history (add_hist pz so cell false)).
Proof.
  unfold add_hist. destruct (_ || _); [|apply grows_refl].
  exists [mkHist false cell (cell_n (deref so cell)) (cell_bit (deref so cell))].
  split; [reflexivity|]. repeat constructor.
Qed.

Lemma add_hist_nsolved pz so cell b : nsolved (add_hist pz so cell b) = nsolved pz.
Proof. unfold add_hist. now destruct (_ || _). Qed.

Lemma tighten_ok col w p :
  Inv w ->
  Inv (Demo.tighten col w p) /\ grows (history (puz w)) (history (puz (Demo.tighten col w p))).
Proof.
  intros [H1 H2]. unfold Demo.tighten.
  destruct (Z.ltb_spec (cell_n (deref (sol w) p)) 2) as [|Hn];
    [split; [split; assumption|apply grows_refl]|].
  assert (Hv : (p < length (sol_cells (sol w)))%nat).
  { destruct (decide (p < length (sol_cells (sol w)))%nat) as [Hv|Hd]; [exact Hv|].
    rewrite deref_dangling in Hn by assumption. simpl in Hn. lia. }
  split; [split|].
  - cbn [set_ps puz sol fst snd]. rewrite (@add_jobs_nsolved Demo.base). cbn [nsolved set_nsolved].
    rewrite add_hist_nsolved, count_solved_store by assumption. unfold solved.
    destruct (Z.eqb_spec (cell_n (deref (sol w) p)) 1); [lia|]. simpl. lia.
  - cbn [set_ps puz sol fst snd]. rewrite (@add_jobs_history Demo.base).
    destruct (same_grid_store (sol w) p 1 (bit_set 0 col)) as (_ & _ & ->).
    cbn [history set_nsolved]. apply add_hist_ok; trivial. lia.
  - cbn [set_ps puz fst]. rewrite (@add_jobs_history Demo.base). cbn [history set_nsolved].
    apply add_hist_grows.
Qed.

Lemma tighten_all_ok col ps w :
  Inv w ->
  Inv (fold_left (Demo.tighten col) ps w) /\
  grows (history (puz w)) (history (puz (fold_left (Demo.tighten col) ps w))).
Proof.
  revert w. induction ps as [|p ps IH]; intros w HI; simpl;
    [split; [exact HI|apply grows_refl]|].
  destruct (tighten_ok col w p HI) as [T1 T2].
  destruct (IH _ T1) as [I1 I2]. split; [exact I1|]. eapply grows_trans; eassumption.
Qed.

Lemma apply_lro_ok w k i :
  Inv w ->
  Inv (snd (Demo.apply_lro w k i)) /\
  grows (history (puz w)) (history (puz (snd (Demo.apply_lro w k i)))).
Proof.
  intros HI. unfold Demo.apply_lro.
  destruct (Demo.line_color _ _ k i) as [col|]; [|split; [exact HI|apply grows_refl]].
  destruct (forallb _ _); [|split; [exact HI|apply grows_refl]].
  now apply tighten_all_ok.
Qed.

Lemma tighten_grows col w p : grows (history (puz w)) (history (puz (Demo.tighten col w p))).
Proof.
  unfold Demo.tighten. destruct (_ <? 2); [apply grows_refl|].
  cbn [set_ps puz fst]. rewrite (@add_jobs_history Demo.base). cbn [history set_nsolved].
  apply add_hist_grows.
Qed.

Lemma apply_lro_grows w k i :
  grows (history (puz w)) (history (puz (snd (Demo.apply_lro w k i)))).
Proof.
  unfold Demo.apply_lro.
  destruct (Demo.line_color _ _ k i) as [col|]; [|apply grows_refl].
  destruct (forallb _ _); [|apply grows_refl]. cbn [snd].
  generalize (Demo.line_ptrs (sol w) k i). intros ps. revert w.
  induction ps as [|p ps IH]; intros w; simpl; [apply grows_refl|].
  eapply grows_trans; [apply tighten_grows|apply IH].
Qed.

Lemma demo_lro_keeps_inv : @lro_keeps_inv Demo.collab.
Proof. intros w k i HI. now apply apply_lro_ok. Qed.

Lemma demo_merge_check_keeps_inv : @merge_check_keeps_inv Demo.collab.
Proof. intros w HI. exact HI. Qed.

Lemma demo_propagation_keeps_inv : @propagation_keeps_inv Demo.collab.
Proof.
  intros s HI.
  pose proof (@logic_solve_inv Demo.propagating 64 s demo_lro_keeps_inv HI) as H1.
  pose proof (@logic_solve_grows Demo.propagating 64 s apply_lro_grows) as H2.
  change (@logic_solve3 Demo.collab s) with (Demo.logic_solve3 s).
  unfold Demo.logic_solve3.
  destruct (@logic_solve Demo.propagating 64 s) as [rc s'|s']; simpl in *.
  - destruct (rc =? 0); [split; assumption|].
    destruct (_ =? ncells _); split; assumption.
  - split; assumption.
Qed.


End DemoContracts.

(** * Examples *)

Section Examples.

#[local] Existing Instance Demo.collab.

(** C6, at a cell of a grid of two rows and one column whose row has
    slack 0 and one run and whose column has slack 1 and one run: the row
    scores 2 and the column 3, so the rating by rows and columns is
    3 * 2 + 3 = 9, but [ratecell] reads the row twice and gives 4 * 2 = 8. *)
Theorem ratecell_adhoc_ignores_column :
  let pz := Demo.puzzle 2 1 [[Demo.run 1 1; Demo.blank]; [Demo.run 1 2]]
              (Demo.grid 2 1 [Demo.any; Demo.any]) [] in
  line_score pz 0 0 = 2 /\ line_score pz 1 0 = 3 /\
  ratecell_adhoc pz (Demo.grid 2 1 [Demo.any; Demo.any]) 0 0 = 8 /\
  3 * Z.min (line_score pz 0 0) (line_score pz 1 0)
    + Z.max (line_score pz 0 0) (line_score pz 1 0) = 9.
Proof. repeat split. Qed.

Lemma Inv_blank_row_queued : Inv (world Demo.blank_row_queued).
Proof. split; [reflexivity|constructor]. Qed.

(** C1 at work: from the grid with its first row queued, propagation, the
    exhaustive check and a probe sequence all end with [nsolved] equal to the
    number of solved cells. *)
Lemma nsolved_counts_solved_cells_witness :
  nsolved_ok (world (lres_state (@logic_solve Demo.collab 8 Demo.blank_row_queued))) /\
  nsolved_ok (world (snd (@st_try_everything Demo.collab Demo.blank_row_queued))) /\
  nsolved_ok (world (qres_state (@probe Demo.collab Demo.cfg_probe Demo.blank_row_queued 0 0 0))).
Proof.
  destruct (@nsolved_counts_solved_cells Demo.collab demo_lro_keeps_inv
              demo_merge_check_keeps_inv demo_propagation_keeps_inv
              Demo.blank_row_queued Inv_blank_row_queued)
    as (_ & _ & H3 & H4 & _ & _ & _ & H8).
  split; [apply Inv_nsolved_ok, H4|]. split; [apply Inv_nsolved_ok, H3|].
  apply Inv_nsolved_ok, H8.
Defined.







Lemma latin3_probe :
  probe Demo.cfg_probe Demo.latin3 7 7 7 =
  QRet 0 (mkQVars (upd_world (set_probing false) (q_state Demo.latin3_probed)) 8 0 0 0
            (q_log Demo.latin3_probed)).
Proof. vm_compute. reflexivity. Qed.


(** C5 at work: propagation from the queued first row ends after four
    lines; a second call returns at once in the same state. *)
Lemma logic_solve_idempotent_witness :
  let s' := lres_state (logic_solve 8 Demo.blank_row_queued) in
  nlines s' = 4 /\ logic_solve 1 s' = LDone 1 s'.
Proof.
  intros s'.
  assert (E : logic_solve 8 Demo.blank_row_queued = LDone 1 s') by (vm_compute; reflexivity).
  destruct (logic_solve_idempotent 8 0 Demo.blank_row_queued s' E) as (_ & _ & H).
  split; [vm_compute; reflexivity|exact H].
Defined.






(** C10 at work: one colour, a clue that no line can satisfy, a job
    waiting: [solve] returns 1 with [nsolved = ncells] and the job still
    there. *)
Lemma solve_fewer_than_two_colours_witness :
  exists s', solve Demo.cfg_probe 5 Demo.one_colour = Ret 1 s' /\
    nsolved (puz (world s')) = 1 /\
    job (puz (world s')) = [mkJob 0 0 0] /\
    nlines s' = 0.
Proof.
  assert (H : ncolor (puz (world Demo.one_colour)) < 2) by (vm_compute; reflexivity).
  destruct (solve_fewer_than_two_colours Demo.cfg_probe 5 Demo.one_colour H)
    as (s' & H1 & H2 & _ & _ & H5 & _ & _ & H8 & _).
  exists s'. split; [exact H1|]. split; [exact H2|]. split; [exact H5|].
  now injection H8.
Defined.

End Examples.

(** * More of the solver

    The choice of a cell and of a colour to guess, the codes that the
    functions of [solve.c] and [probe.c] return, and their edge cases. *)

Section More.

Context {collab : Collaborators}.

Lemma count_neighbors_range so i j : 0 <= count_neighbors so i j <= 4.
Proof.
  unfold count_neighbors.
  destruct (_ || _), (_ || _), (_ || _), (_ || _); lia.
Qed.

(** ** The choice of a cell to guess on *)

(** The cells of the rows with their coordinates, in the order of the two
    loops of [pick_a_cell]. *)
Fixpoint row_order (i j : Z) (r : list nat) : list (Z * Z * nat) :=
  match r with
  | [] => []
  | cell :: r' => (i, j, cell) :: row_order i (j + 1) r'
  end.

Fixpoint rows_order (i : Z) (rows : list (list nat)) : list (Z * Z * nat) :=
  match rows with
  | [] => []
  | r :: rows' => row_order i 0 r ++ rows_order (i + 1) rows'
  end.

(** The loops of [pick_a_cell] over a list of cells with coordinates. *)
Fixpoint pick_list (puz : Puzzle) (sol : Solution) (l : list (Z * Z * nat))
    (acc : Z * Z * nat) : Z * Z * nat + nat :=
  match l with
  | [] => inl acc
  | (i, j, cell) :: l' =>
      match pick_step puz sol i j cell acc with
      | inl acc' => pick_list puz sol l' acc'
      | inr c => inr c
      end
  end.

Lemma pick_list_app puz so l1 l2 acc :
  pick_list puz so (l1 ++ l2) acc =
  match pick_list puz so l1 acc with
  | inl acc' => pick_list puz so l2 acc'
  | inr c => inr c
  end.
Proof.
  revert acc. induction l1 as [|[[i j] cell] l1 IH]; intros acc; simpl; [reflexivity|].
  destruct (pick_step puz so i j cell acc); [apply IH|reflexivity].
Qed.

Lemma pick_row_list puz so i j r acc :
  pick_row puz so i j r acc = pick_list puz so (row_order i j r) acc.
Proof.
  revert j acc. induction r as [|cell r IH]; intros j acc; simpl; [reflexivity|].
  destruct (pick_step puz so i j cell acc); [apply IH|reflexivity].
Qed.

Lemma pick_rows_list puz so i rows acc :
  pick_rows puz so i rows acc = pick_list puz so (rows_order i rows) acc.
Proof.
  revert i acc. induction rows as [|r rows IH]; intros i acc; simpl; [reflexivity|].
  rewrite pick_list_app, pick_row_list.
  destruct (pick_list puz so (row_order i 0 r) acc); [apply IH|reflexivity].
Qed.

Lemma row_order_In i j r i' j' cell :
  0 <= j ->
  In (i', j', cell) (row_order i j r) <->
  i' = i /\ j <= j' /\ r !! Z.to_nat (j' - j) = Some cell.
Proof.
  revert j. induction r as [|c r IH]; intros j Hj; simpl.
  - split; [tauto|]. intros (_ & _ & H). discriminate.
  - rewrite IH by lia. split.
    + intros [[= <- <- <-]|(-> & H1 & H2)].
      * rewrite Z.sub_diag. repeat split; lia.
      * split; [reflexivity|]. split; [lia|].
        replace (Z.to_nat (j' - j)) with (S (Z.to_nat (j' - (j + 1)))) by lia. exact H2.
    + intros (-> & H1 & H2). destruct (Z.eq_dec j' j) as [->|Hne].
      * left. rewrite Z.sub_diag in H2. simpl in H2. congruence.
      * right. split; [reflexivity|]. split; [lia|].
        replace (Z.to_nat (j' - j)) with (S (Z.to_nat (j' - (j + 1)))) in H2 by lia.
        exact H2.
Qed.

Lemma rows_order_In i rows i' j' cell :
  0 <= i ->
  In (i', j', cell) (rows_order i rows) <->
  i <= i' /\ 0 <= j' /\
  exists r, rows !! Z.to_nat (i' - i) = Some r /\ r !! Z.to_nat j' = Some cell.
Proof.
  revert i. induction rows as [|r rows IH]; intros i Hi; simpl.
  - split; [tauto|]. intros (_ & _ & r & H & _). discriminate.
  - rewrite in_app_iff, row_order_In, IH by lia. split.
    + intros [(-> & H1 & H2)|(H1 & H2 & r' & H3 & H4)].
      * split; [lia|]. split; [lia|]. exists r. rewrite Z.sub_diag, Z.sub_0_r in *.
        split; [reflexivity|exact H2].
      * split; [lia|]. split; [lia|]. exists r'.
        replace (Z.to_nat (i' - i)) with (S (Z.to_nat (i' - (i + 1)))) by lia.
        split; [exact H3|exact H4].
    + intros (H1 & H2 & r' & H3 & H4). destruct (Z.eq_dec i' i) as [->|Hne].
      * left. rewrite Z.sub_diag in H3. simpl in H3. injection H3 as <-.
        rewrite Z.sub_0_r. repeat split; trivial.
      * right. split; [lia|]. split; [lia|]. exists r'.
        replace (Z.to_nat (i' - i)) with (S (Z.to_nat (i' - (i + 1)))) in H3 by lia.
        split; [exact H3|exact H4].
Qed.

Lemma zlookup_Some {A} (l : list A) i x :
  zlookup l i = Some x <-> 0 <= i /\ l !! Z.to_nat i = Some x.
Proof.
  unfold zlookup. destruct (Z.ltb_spec i 0); split.
  - discriminate.
  - intros [? _]. lia.
  - intros H'. split; [lia|exact H'].
  - intros [_ H']. exact H'.
Qed.

(** The cells the loops visit are the cells of the rows. *)
Lemma rows_order_line_cell so i j cell :
  In (i, j, cell) (rows_order 0 (default [] (zlookup (sol_line so) 0))) <->
  line_cell so 0 i j = Some cell.
Proof.
  rewrite rows_order_In by lia. unfold line_cell. rewrite Z.sub_0_r. split.
  - intros (Hi & Hj & r & H1 & H2).
    destruct (zlookup (sol_line so) 0) as [rows|]; [|discriminate]. simpl in *.
    rewrite (proj2 (zlookup_Some rows i r)) by (split; assumption). simpl.
    apply zlookup_Some. split; assumption.
  - destruct (zlookup (sol_line so) 0) as [rows|]; [|discriminate]. simpl.
    destruct (zlookup rows i) as [r|] eqn:E; [|discriminate]. simpl.
    intros H. apply zlookup_Some in E. apply zlookup_Some in H.
    destruct E as [E1 E2]. destruct H as [H1 H2].
    split; [lia|]. split; [lia|]. exists r. split; assumption.
Qed.

(** What the loop has found so far: nothing, since no cell it has seen is
    unsolved; or the first of its cells that is best, a cell being better
    with more neighbours and, among equals, with a lower rating. *)
Definition pick_worse (puz : Puzzle) (so : Solution) (strict : bool) (v s : Z) (p : Z * Z * nat) : Prop :=
  let '(i, j, cell) := p in
  cell_n (deref so cell) <> 1 ->
  count_neighbors so i j < v \/
  count_neighbors so i j = v /\
  (if strict then s < ratecell puz so i j else s <= ratecell puz so i j).

Definition pick_found (puz : Puzzle) (so : Solution) (l : list (Z * Z * nat)) (acc : Z * Z * nat)
    : Prop :=
  let '(maxv, minrate, favcell) := acc in
  (maxv = -1 /\ Forall (fun p => cell_n (deref so (snd p)) = 1) l) \/
  exists pre i j post,
    l = pre ++ (i, j, favcell) :: post /\
    cell_n (deref so favcell) <> 1 /\
    maxv = count_neighbors so i j /\ minrate = ratecell puz so i j /\
    Forall (pick_worse puz so true maxv minrate) pre /\
    Forall (pick_worse puz so false maxv minrate) post.

Lemma pick_worse_weaken puz so v s p : pick_worse puz so true v s p -> pick_worse puz so false v s p.
Proof.
  destruct p as [[i j] cell]. unfold pick_worse. intros H Hn.
  destruct (H Hn) as [|[? ?]]; [now left|right; split; [assumption|lia]].
Qed.

Lemma pick_worse_better puz so b v s v' s' p :
  pick_worse puz so b v s p -> v < v' \/ v = v' /\ s' < s ->
  pick_worse puz so true v' s' p.
Proof.
  destruct p as [[i j] cell]. unfold pick_worse. intros H Hb Hn.
  destruct (H Hn) as [|[? Hs]]; [left; lia|].
  destruct Hb as [|[-> Hs']]; [left; lia|].
  right. split; [assumption|]. destruct b; lia.
Qed.

(** One more cell. *)
Lemma pick_found_step puz so l i j cell acc :
  pick_found puz so l acc ->
  match pick_step puz so i j cell acc with
  | inl acc' => pick_found puz so (l ++ [(i, j, cell)]) acc' /\
                (cell_n (deref so cell) <> 1 -> count_neighbors so i j <> 2 * sol_nset so)
  | inr c => c = cell /\ cell_n (deref so cell) <> 1 /\
             count_neighbors so i j = 2 * sol_nset so
  end.
Proof.
  destruct acc as [[maxv minrate] favcell]. intros H. unfold pick_step.
  destruct (Z.eqb_spec (cell_n (deref so cell)) 1) as [E1|E1].
  { split; [|contradiction]. destruct H as [[-> H]|(pre & i0 & j0 & post & -> & H1 & H2 & H3 & H4 & H5)].
    - left. split; [reflexivity|]. apply Forall_app. split; [exact H|].
      constructor; [exact E1|constructor].
    - right. exists pre, i0, j0, (post ++ [(i, j, cell)]).
      split; [now rewrite <- app_assoc|]. repeat split; trivial.
      apply Forall_app. split; [exact H5|]. constructor; [|constructor].
      unfold pick_worse. contradiction. }
  destruct (Z.eqb_spec (count_neighbors so i j) (2 * sol_nset so)) as [E2|E2].
  { repeat split; assumption. }
  pose proof (count_neighbors_range so i j) as R.
  destruct H as [[-> H]|(pre & i0 & j0 & post & -> & H1 & H2 & H3 & H4 & H5)].
  - destruct (Z.geb_spec (count_neighbors so i j) (-1)); [|lia].
    destruct (Z.gtb_spec (count_neighbors so i j) (-1)); [|lia]. cbn [orb].
    split; [|intros _; exact E2].
    right. exists l, i, j, []. repeat split; trivial.
    apply List.Forall_forall. intros [[i' j'] c'] Hin. unfold pick_worse. intros Hn.
    rewrite List.Forall_forall in H. specialize (H _ Hin). simpl in H. contradiction.
  - destruct (Z.geb_spec (count_neighbors so i j) maxv) as [Hge|Hlt].
    + destruct (Z.gtb_spec (count_neighbors so i j) maxv) as [Hgt|Hle]; cbn [orb].
      * split; [|intros _; exact E2].
        right. exists (pre ++ (i0, j0, favcell) :: post), i, j, []. repeat split; trivial.
        apply Forall_app. split; [|constructor].
        -- eapply List.Forall_impl; [|exact H4]. intros p Hp.
           eapply pick_worse_better; [exact Hp|left; lia].
        -- unfold pick_worse. intros _. left. lia.
        -- eapply List.Forall_impl; [|exact H5]. intros p Hp.
           eapply pick_worse_better; [exact Hp|left; lia].
      * destruct (Z.ltb_spec (ratecell puz so i j) minrate) as [Hs|Hs].
        -- split; [|intros _; exact E2].
           right. exists (pre ++ (i0, j0, favcell) :: post), i, j, []. repeat split; trivial.
           apply Forall_app. split; [|constructor].
           ++ eapply List.Forall_impl; [|exact H4]. intros p Hp.
              eapply pick_worse_better; [exact Hp|right; split; lia].
           ++ unfold pick_worse. intros _. right. split; lia.
           ++ eapply List.Forall_impl; [|exact H5]. intros p Hp.
              eapply pick_worse_better; [exact Hp|right; split; lia].
        -- split; [|intros _; exact E2].
           right. exists pre, i0, j0, (post ++ [(i, j, cell)]).
           split; [now rewrite <- app_assoc|]. repeat split; trivial.
           apply Forall_app. split; [exact H5|]. constructor; [|constructor].
           unfold pick_worse. intros _. right. split; lia.
    + split; [|intros _; exact E2].
      right. exists pre, i0, j0, (post ++ [(i, j, cell)]).
      split; [now rewrite <- app_assoc|]. repeat split; trivial.
      apply Forall_app. split; [exact H5|]. constructor; [|constructor].
      unfold pick_worse. intros _. left. lia.
Qed.

(** The loops over the cells [l], after the cells [l0]. *)
Lemma pick_list_found puz so l : forall l0 acc,
  pick_found puz so l0 acc ->
  Forall (fun p => cell_n (deref so (snd p)) <> 1 ->
                   count_neighbors so (fst (fst p)) (snd (fst p)) <> 2 * sol_nset so) l0 ->
  match pick_list puz so l acc with
  | inl acc' => pick_found puz so (l0 ++ l) acc' /\
      Forall (fun p => cell_n (deref so (snd p)) <> 1 ->
                       count_neighbors so (fst (fst p)) (snd (fst p)) <> 2 * sol_nset so)
        (l0 ++ l)
  | inr c => exists pre i j post,
      l0 ++ l = pre ++ (i, j, c) :: post /\ cell_n (deref so c) <> 1 /\
      count_neighbors so i j = 2 * sol_nset so /\
      Forall (fun p => cell_n (deref so (snd p)) <> 1 ->
                       count_neighbors so (fst (fst p)) (snd (fst p)) <> 2 * sol_nset so) pre
  end.
Proof.
  induction l as [|[[i j] cell] l IH]; intros l0 acc H0 F0; simpl.
  - rewrite app_nil_r. split; assumption.
  - pose proof (pick_found_step puz so l0 i j cell acc H0) as S.
    destruct (pick_step puz so i j cell acc) as [acc'|c].
    + destruct S as [S1 S2].
      specialize (IH (l0 ++ [(i, j, cell)]) acc' S1).
      rewrite <- app_assoc in IH. simpl in IH. apply IH.
      apply Forall_app. split; [exact F0|]. constructor; [exact S2|constructor].
    + destruct S as (-> & S1 & S2). exists l0, i, j, l. repeat split; trivial.
Qed.


Definition pick_result (r : Z * Z * nat + nat) : Pick :=
  match r with
  | inr cell => PickCell cell
  | inl (maxv, _, favcell) => if maxv =? -1 then PickNull else PickCell favcell
  end.

Lemma pick_found_nothing puz so acc : fst (fst acc) = -1 -> pick_found puz so [] acc.
Proof. destruct acc as [[maxv minrate] favcell]. simpl. intros ->. left. split; [reflexivity|constructor]. Qed.

(** X1: [pick_a_cell] fails exactly on a puzzle that is no grid; on a grid it
    returns NULL exactly when every cell of the rows is solved, and the cell
    it returns is an unsolved cell of the rows. *)
Theorem pick_a_cell_unsolved puz so :
  (pick_a_cell puz so = PickFail <-> ptype puz <> PT_GRID) /\
  (pick_a_cell puz so = PickNull <->
   ptype puz = PT_GRID /\
   forall i j cell, line_cell so 0 i j = Some cell -> cell_n (deref so cell) = 1) /\
  (forall cell, pick_a_cell puz so = PickCell cell ->
   exists i j, line_cell so 0 i j = Some cell /\ cell_n (deref so cell) <> 1).
Proof.
  unfold pick_a_cell.
  destruct (Z.eqb_spec (ptype puz) PT_GRID) as [Eg|Eg]; cbn [negb].
  2:{ split; [tauto|]. split; [|discriminate]. split; [discriminate|tauto]. }
  rewrite pick_rows_list.
  pose proof (pick_list_found puz so (rows_order 0 (default [] (zlookup (sol_line so) 0)))
                [] (-1, 0, 0%nat) (pick_found_nothing puz so (-1, 0, 0%nat) eq_refl) (List.Forall_nil _)) as H.
  cbn [app] in H.
  destruct (pick_list _ _ _ _) as [[[maxv minrate] favcell]|c].
  - destruct H as [[[-> H]|(pre & i & j & post & E & H1 & H2 & _)] _].
    + cbn [Z.eqb]. split; [split; [discriminate|contradiction]|].
      split; [|discriminate]. split; [|reflexivity]. intros _. split; [exact Eg|].
      intros i j cell Hc. apply rows_order_line_cell in Hc.
      rewrite List.Forall_forall in H. apply (H _ Hc).
    + pose proof (count_neighbors_range so i j) as R.
      destruct (Z.eqb_spec maxv (-1)) as [|_]; [lia|].
      split; [split; [discriminate|contradiction]|]. split.
      * split; [discriminate|]. intros [_ Hall]. exfalso. apply H1.
        apply (Hall i j). apply rows_order_line_cell. rewrite E. apply in_elt.
      * intros cell [= <-]. exists i, j. split; [|exact H1].
        apply rows_order_line_cell. rewrite E. apply in_elt.
  - destruct H as (pre & i & j & post & E & H1 & H2 & _).
    split; [split; [discriminate|contradiction]|]. split.
    + split; [discriminate|]. intros [_ Hall]. exfalso. apply H1.
      apply (Hall i j). apply rows_order_line_cell. rewrite E. apply in_elt.
    + intros cell [= <-]. exists i, j. split; [|exact H1].
      apply rows_order_line_cell. rewrite E. apply in_elt.
Qed.


(** The variables [minrate] and [favcell] are not initialised: whatever
    they hold at the start, the result is the same. *)
Lemma pick_step_start puz so i j cell m f m' f' :
  match pick_step puz so i j cell (-1, m, f), pick_step puz so i j cell (-1, m', f') with
  | inl (v, r, c), inl (v', r', c') => v = v' /\ (v = -1 \/ r = r' /\ c = c')
  | inr c, inr c' => c = c'
  | _, _ => False
  end.
Proof.
  unfold pick_step. destruct (_ =? 1); [split; [reflexivity|now left]|].
  destruct (_ =? 2 * _); [reflexivity|].
  pose proof (count_neighbors_range so i j) as R.
  destruct (Z.geb_spec (count_neighbors so i j) (-1)); [|lia].
  destruct (Z.gtb_spec (count_neighbors so i j) (-1)); [|lia]. cbn [orb].
  split; [reflexivity|right; split; reflexivity].
Qed.

Lemma pick_list_start puz so l : forall m f m' f',
  pick_result (pick_list puz so l (-1, m, f)) = pick_result (pick_list puz so l (-1, m', f')).
Proof.
  induction l as [|[[i j] cell] l IH]; intros m f m' f'; [reflexivity|]. cbn [pick_list].
  pose proof (pick_step_start puz so i j cell m f m' f') as H.
  destruct (pick_step puz so i j cell (-1, m, f)) as [[[v r] c]|c],
    (pick_step puz so i j cell (-1, m', f')) as [[[v' r'] c']|c']; try contradiction.
  - destruct H as [<- [->|[<- <-]]]; [apply IH|reflexivity].
  - now subst.
Qed.

(** X3: the variables [minrate] and [favcell] of [pick_a_cell] are not
    initialised; whatever they hold when the loops start, the result is the
    same. *)
Theorem pick_a_cell_uninitialised puz so m f :
  pick_a_cell puz so =
  if negb (ptype puz =? PT_GRID) then PickFail
  else pick_result (pick_rows puz so 0 (default [] (zlookup (sol_line so) 0)) (-1, m, f)).
Proof.
  unfold pick_a_cell. destruct (negb _); [reflexivity|].
  rewrite !pick_rows_list.
  change (pick_result (pick_list puz so (rows_order 0 (default [] (zlookup (sol_line so) 0)))
                         (-1, 0, 0%nat)) =
          pick_result (pick_list puz so (rows_order 0 (default [] (zlookup (sol_line so) 0)))
                         (-1, m, f))).
  apply pick_list_start.
Qed.

(** ** The choice of a colour to guess *)

Lemma find_seq_min (f : Z -> bool) n : forall a,
  match List.find f (map Z.of_nat (seq a n)) with
  | Some c => Z.of_nat a <= c < Z.of_nat (a + n) /\ f c = true /\
              forall c', Z.of_nat a <= c' < c -> f c' = false
  | None => forall c, Z.of_nat a <= c < Z.of_nat (a + n) -> f c = false
  end.
Proof.
  induction n as [|n IH]; intros a; simpl.
  - intros c Hc. lia.
  - destruct (f (Z.of_nat a)) eqn:E.
    + split; [lia|]. split; [exact E|]. intros c' Hc'. lia.
    + specialize (IH (S a)). destruct (List.find f _) as [c|].
      * destruct IH as (I1 & I2 & I3). split; [lia|]. split; [exact I2|].
        intros c' Hc'. destruct (Z.eq_dec c' (Z.of_nat a)) as [->|Hne]; [exact E|].
        apply I3. lia.
      * intros c Hc. destruct (Z.eq_dec c (Z.of_nat a)) as [->|Hne]; [exact E|].
        apply IH. lia.
Qed.

Lemma find_seq_max (f : Z -> bool) a n :
  match List.find f (rev (map Z.of_nat (seq a n))) with
  | Some c => Z.of_nat a <= c < Z.of_nat (a + n) /\ f c = true /\
              forall c', c < c' < Z.of_nat (a + n) -> f c' = false
  | None => forall c, Z.of_nat a <= c < Z.of_nat (a + n) -> f c = false
  end.
Proof.
  induction n as [|n IH].
  - simpl. intros c Hc. lia.
  - rewrite seq_S, map_app, rev_app_distr. simpl.
    destruct (f (Z.of_nat (a + n))) eqn:E.
    + split; [lia|]. split; [exact E|]. intros c' Hc'. lia.
    + destruct (List.find f _) as [c|].
      * destruct IH as (I1 & I2 & I3). split; [lia|]. split; [exact I2|].
        intros c' Hc'. destruct (Z.eq_dec c' (Z.of_nat (a + n))) as [->|Hne]; [exact E|].
        apply I3. lia.
      * intros c Hc. destruct (Z.eq_dec c (Z.of_nat (a + n))) as [->|Hne]; [exact E|].
        apply IH. lia.
Qed.

Lemma find_zrange_min (f : Z -> bool) m :
  match List.find f (zrange m) with
  | Some c => 0 <= c < m /\ f c = true /\ forall c', 0 <= c' < c -> f c' = false
  | None => forall c, 0 <= c < m -> f c = false
  end.
Proof.
  pose proof (find_seq_min f (Z.to_nat m) 0) as H. unfold zrange.
  destruct (List.find f _) as [c|].
  - destruct H as (H1 & H2 & H3). split; [lia|]. split; [exact H2|].
    intros c' Hc'. apply H3. lia.
  - intros c Hc. apply H. lia.
Qed.

Lemma find_zrange_max (f : Z -> bool) m :
  match List.find f (rev (zrange m)) with
  | Some c => 0 <= c < m /\ f c = true /\ forall c', c < c' < m -> f c' = false
  | None => forall c, 0 <= c < m -> f c = false
  end.
Proof.
  pose proof (find_seq_max f 0 (Z.to_nat m)) as H. unfold zrange.
  destruct (List.find f _) as [c|].
  - destruct H as (H1 & H2 & H3). split; [lia|]. split; [exact H2|].
    intros c' Hc'. apply H3. lia.
  - intros c Hc. apply H. lia.
Qed.

(** X4: [pick_color] with [GC_MAX] returns the greatest colour the cell may
    have; it fails exactly when the cell may have no colour but the
    background (so never on a cell with two colours, and not on a cell whose
    one colour is not the background). *)
Theorem pick_color_max_greatest puz so cell :
  (pick_color_max puz so cell = None <->
   forall c, 0 < c < ncolor puz -> may_be (deref so cell) c = false) /\
  (forall c, pick_color_max puz so cell = Some c ->
     0 < c < ncolor puz /\ may_be (deref so cell) c = true /\
     forall c', c < c' < ncolor puz -> may_be (deref so cell) c' = false).
Proof.
  unfold pick_color_max.
  pose proof (find_zrange_max (may_be (deref so cell)) (ncolor puz)) as H.
  destruct (List.find _ _) as [c|]; cbn [default from_option id].
  - destruct H as (H1 & H2 & H3). destruct (Z.leb_spec c 0) as [Hle|Hgt].
    + split; [|discriminate]. split; [|reflexivity].
      intros _ c' Hc'. apply H3. lia.
    + split.
      * split; [discriminate|]. intros Hn. rewrite Hn in H2 by lia. discriminate.
      * intros c' [= <-]. split; [lia|]. split; assumption.
  - cbn [Z.leb Z.compare]. split; [|discriminate]. split; [|reflexivity].
    intros _ c Hc. apply H. lia.
Qed.

(** X5: [pick_color] with [GC_MIN] returns the least colour the cell may
    have; it fails exactly when the cell may have no colour below the last
    one (so never on a cell with two colours, and not on a cell whose one
    colour is not the last). *)
Theorem pick_color_min_least puz so cell :
  (pick_color_min puz so cell = None <->
   forall c, 0 <= c < ncolor puz - 1 -> may_be (deref so cell) c = false) /\
  (forall c, pick_color_min puz so cell = Some c ->
     0 <= c < ncolor puz - 1 /\ may_be (deref so cell) c = true /\
     forall c', 0 <= c' < c -> may_be (deref so cell) c' = false).
Proof.
  unfold pick_color_min.
  pose proof (find_zrange_min (may_be (deref so cell)) (ncolor puz)) as H.
  destruct (List.find _ _) as [c|]; cbn [default from_option id].
  - destruct H as (H1 & H2 & H3). destruct (Z.geb_spec c (ncolor puz - 1)) as [Hge|Hlt].
    + split; [|discriminate]. split; [|reflexivity].
      intros _ c' Hc'. apply H3. lia.
    + split.
      * split; [discriminate|]. intros Hn. rewrite Hn in H2 by lia. discriminate.
      * intros c' [= <-]. split; [lia|]. split; assumption.
  - destruct (Z.geb_spec (ncolor puz) (ncolor puz - 1)) as [_|]; [|lia].
    split; [|discriminate]. split; [|reflexivity].
    intros _ c Hc. apply H. lia.
Qed.

Lemma contrast_range so i j c : 0 <= contrast so i j c <= 4.
Proof.
  unfold contrast.
  destruct (i >? 0), (i <? _), (j >? 0), (j <? _);
    repeat match goal with |- context [if ?b then _ else _] => destruct b end; lia.
Qed.

Lemma zrange_lookup m k c : zrange m !! k = Some c -> c = Z.of_nat k.
Proof.
  unfold zrange. rewrite list_lookup_fmap.
  destruct (seq 0 (Z.to_nat m) !! k) as [x|] eqn:E; [|discriminate].
  apply lookup_seq in E. simpl. intros [= <-]. lia.
Qed.

Lemma zrange_split m pre c post :
  zrange m = pre ++ c :: post ->
  (forall y, In y pre -> y < c) /\ (forall y, In y post -> c < y).
Proof.
  intros E.
  assert (Hc : c = Z.of_nat (length pre)).
  { apply (zrange_lookup m). rewrite E. apply list_lookup_middle. reflexivity. }
  split; intros y Hy; apply list_elem_of_In, list_elem_of_lookup in Hy; destruct Hy as [k Hk].
  - assert (Hk' : zrange m !! k = Some y) by (rewrite E; now apply lookup_app_l_Some).
    apply zrange_lookup in Hk'. apply lookup_lt_Some in Hk. lia.
  - assert (Hk' : zrange m !! (length pre + S k)%nat = Some y).
    { rewrite E, lookup_app_r by lia.
      replace (length pre + S k - length pre)%nat with (S k) by lia. exact Hk. }
    apply zrange_lookup in Hk'. lia.
Qed.

(** The loop of [pick_color] with [GC_CONTRAST] over the colours [l]. *)
Lemma contrast_fold so cell i j l : forall l0 acc,
  (fst acc = None /\ snd acc = -1 /\ Forall (fun c => may_be (deref so cell) c = false) l0 \/
   exists pre c post,
     l0 = pre ++ c :: post /\ fst acc = Some c /\ snd acc = contrast so i j c /\
     may_be (deref so cell) c = true /\
     Forall (fun c' => may_be (deref so cell) c' = true ->
                       contrast so i j c' < contrast so i j c) pre /\
     Forall (fun c' => may_be (deref so cell) c' = true ->
                       contrast so i j c' <= contrast so i j c) post) ->
  let acc' := fold_left (contrast_step so cell i j) l acc in
  (fst acc' = None /\ Forall (fun c => may_be (deref so cell) c = false) (l0 ++ l) \/
   exists pre c post,
     l0 ++ l = pre ++ c :: post /\ fst acc' = Some c /\
     may_be (deref so cell) c = true /\
     Forall (fun c' => may_be (deref so cell) c' = true ->
                       contrast so i j c' < contrast so i j c) pre /\
     Forall (fun c' => may_be (deref so cell) c' = true ->
                       contrast so i j c' <= contrast so i j c) post).
Proof.
  induction l as [|x l IH]; intros l0 acc H; cbn [fold_left].
  - rewrite app_nil_r. destruct H as [(H1 & _ & H2)|(pre & c & post & H1 & H2 & _ & H3)].
    + left. split; assumption.
    + right. exists pre, c, post. split; [exact H1|]. split; [exact H2|exact H3].
  - replace (l0 ++ x :: l) with ((l0 ++ [x]) ++ l) by (now rewrite <- app_assoc).
    apply IH. unfold contrast_step.
    pose proof (contrast_range so i j x) as R.
    destruct (may_be (deref so cell) x) eqn:Ex.
    + destruct H as [(H1 & H2 & H3)|(pre & c & post & H1 & H2 & H3 & H4 & H5 & H6)].
      * rewrite H2. destruct (Z.gtb_spec (contrast so i j x) (-1)); [|lia].
        right. exists l0, x, []. cbn [fst snd]. repeat split; trivial.
        eapply List.Forall_impl; [|exact H3]. cbn beta. intros a Ha Ha'. congruence.
      * rewrite H3. destruct (Z.gtb_spec (contrast so i j x) (contrast so i j c)) as [Hg|Hl].
        -- right. exists l0, x, []. cbn [fst snd]. repeat split; trivial.
           rewrite H1. apply Forall_app. split; [|constructor].
           ++ eapply List.Forall_impl; [|exact H5]. cbn beta. intros a Ha Ha'.
              specialize (Ha Ha'). lia.
           ++ intros _. lia.
           ++ eapply List.Forall_impl; [|exact H6]. cbn beta. intros a Ha Ha'.
              specialize (Ha Ha'). lia.
        -- right. exists pre, c, (post ++ [x]).
           split; [rewrite H1; now rewrite <- app_assoc|]. repeat split; trivial.
           apply Forall_app. split; [exact H6|]. constructor; [|constructor].
           intros _. lia.
    + destruct H as [(H1 & H2 & H3)|(pre & c & post & H1 & H2 & H3 & H4 & H5 & H6)].
      * left. repeat split; trivial. apply Forall_app. split; [exact H3|].
        constructor; [exact Ex|constructor].
      * right. exists pre, c, (post ++ [x]).
        split; [rewrite H1; now rewrite <- app_assoc|]. repeat split; trivial.
        apply Forall_app. split; [exact H6|]. constructor; [|constructor].
        intros Hx. congruence.
Qed.

(** X6: [pick_color] with [GC_CONTRAST] returns, of the colours the cell may
    have, the first one of the greatest contrast; [bestc] is returned
    without a value exactly when the cell may have no colour at all. *)
Theorem pick_color_contrast_best puz so cell :
  let i := line_of (deref so cell) 0 in
  let j := line_of (deref so cell) 1 in
  (pick_color_contrast puz so cell = None <->
   forall c, 0 <= c < ncolor puz -> may_be (deref so cell) c = false) /\
  (forall c, pick_color_contrast puz so cell = Some c ->
     0 <= c < ncolor puz /\ may_be (deref so cell) c = true /\
     forall c', 0 <= c' < ncolor puz -> may_be (deref so cell) c' = true ->
       contrast so i j c' <= contrast so i j c /\
       (c' < c -> contrast so i j c' < contrast so i j c)).
Proof.
  intros i j. unfold pick_color_contrast. fold i j.
  pose proof (contrast_fold so cell i j (zrange (ncolor puz)) [] (None, -1)) as H.
  cbn [app fst snd] in H.
  destruct H as [[H1 H2]|(pre & c & post & H1 & H2 & H3 & H4 & H5)].
  { left. repeat split. constructor. }
  - rewrite H1. split; [|discriminate]. split; [|reflexivity].
    intros _ c Hc. rewrite List.Forall_forall in H2. apply H2. now apply zrange_In.
  - rewrite H2. split.
    + split; [discriminate|]. intros Hn. rewrite Hn in H3; [discriminate|].
      apply zrange_In. rewrite H1. apply in_elt.
    + intros c0 [= <-].
      split; [apply zrange_In; rewrite H1; apply in_elt|]. split; [exact H3|].
      intros c' Hc' Hm. apply zrange_In in Hc'.
      destruct (zrange_split _ _ _ _ H1) as [S1 S2].
      rewrite H1 in Hc'. apply in_app_iff in Hc'. destruct Hc' as [Hc'|[<-|Hc']].
      * rewrite List.Forall_forall in H4. specialize (H4 _ Hc' Hm). split; lia.
      * split; lia.
      * rewrite List.Forall_forall in H5. specialize (H5 _ Hc' Hm).
        specialize (S2 _ Hc'). split; lia.
Qed.

(** The loop of [pick_color] with [GC_RAND] over the colours [l]: one call
    of [rand] for each colour the cell may have. *)
Lemma rand_fold RAND_MAX rand so cell l : forall k bestc n,
  Z.of_nat k = n ->
  let '(k', bestc', n') := fold_left (rand_step RAND_MAX rand so cell) l (k, bestc, n) in
  n' = n + Z.of_nat (length (List.filter (may_be (deref so cell)) l)) /\
  Z.of_nat k' = n' /\
  (forall c, bestc' = Some c -> bestc = Some c \/ In c l /\ may_be (deref so cell) c = true) /\
  (bestc <> None -> bestc' <> None) /\
  (n = 0 -> n < n' -> rand O < RAND_MAX -> bestc' <> None) /\
  (bestc = None -> (forall k0, RAND_MAX ÷ (Z.of_nat k0 + 1) <= rand k0) -> bestc' = None).
Proof.
  induction l as [|x l IH]; intros k bestc n Hk; cbn [fold_left].
  - simpl. repeat split; try lia; try tauto.
  - unfold rand_step at 2. cbn [List.filter].
    destruct (may_be (deref so cell) x) eqn:Ex.
    + destruct (Z.ltb_spec (rand k) (RAND_MAX ÷ (n + 1))) as [Hr|Hr].
      * specialize (IH (S k) (Some x) (n + 1)).
        destruct (fold_left _ l _) as [[k' bestc'] n'].
        destruct IH as (I1 & I2 & I3 & I4 & I5 & I6); [lia|].
        cbn [length]. split; [lia|]. split; [exact I2|]. split; [|split; [|split]].
        -- intros c Hc. destruct (I3 c Hc) as [[= <-]|[? ?]]; right; split; trivial;
             [now left|now right].
        -- intros _. now apply I4.
        -- intros _ _ _. now apply I4.
        -- intros -> Hall. specialize (Hall k). rewrite Hk in Hall. lia.
      * specialize (IH (S k) bestc (n + 1)).
        destruct (fold_left _ l _) as [[k' bestc'] n'].
        destruct IH as (I1 & I2 & I3 & I4 & I5 & I6); [lia|].
        cbn [length]. split; [lia|]. split; [exact I2|]. split; [|split; [|split]].
        -- intros c Hc. destruct (I3 c Hc) as [|[? ?]]; [now left|right; split; trivial; now right].
        -- exact I4.
        -- intros -> _ H0. assert (k = O) by lia. subst k.
           rewrite Z.add_0_l, Z.quot_1_r in Hr. lia.
        -- exact I6.
    + specialize (IH k bestc n Hk).
      destruct (fold_left _ l _) as [[k' bestc'] n'].
      destruct IH as (I1 & I2 & I3 & I4 & I5 & I6).
      split; [lia|]. split; [exact I2|]. split; [|split; [|split]]; trivial.
      intros c Hc. destruct (I3 c Hc) as [|[? ?]]; [now left|right; split; trivial; now right].
Qed.

(** X7: [pick_color] with [GC_RAND] fails exactly when the cell has fewer
    than two of the colours; a colour it returns is one the cell may have;
    it does return one when the first call of [rand] gives less than
    [RAND_MAX], and returns [bestc] without a value when no draw is below
    its threshold (as when [rand] gives [RAND_MAX] each time). *)
Theorem pick_color_rand_possible RAND_MAX rand puz so cell :
  let m := count_bits (ncolor puz) (cell_bit (deref so cell)) in
  (pick_color_rand RAND_MAX rand puz so cell = None <-> m <= 1) /\
  (forall c, pick_color_rand RAND_MAX rand puz so cell = Some (Some c) ->
     0 <= c < ncolor puz /\ may_be (deref so cell) c = true) /\
  (2 <= m -> rand O < RAND_MAX ->
     exists c, pick_color_rand RAND_MAX rand puz so cell = Some (Some c)) /\
  (2 <= m -> (forall k, RAND_MAX ÷ (Z.of_nat k + 1) <= rand k) ->
     pick_color_rand RAND_MAX rand puz so cell = Some None).
Proof.
  intros m. unfold pick_color_rand.
  pose proof (rand_fold RAND_MAX rand so cell (zrange (ncolor puz)) O None 0 eq_refl) as H.
  destruct (fold_left _ _ _) as [[k' bestc'] n'].
  destruct H as (H1 & H2 & H3 & _ & H5 & H6).
  assert (Hm : n' = m) by (rewrite H1; reflexivity).
  rewrite Hm in *. clear Hm H1.
  destruct (Z.leb_spec m 1) as [Hle|Hgt].
  - split; [tauto|]. split; [discriminate|]. split; intros; lia.
  - split; [split; [discriminate|lia]|]. split; [|split].
    + intros c [= ->]. destruct (H3 c eq_refl) as [|[Hin Hb]]; [discriminate|].
      split; [now apply zrange_In|exact Hb].
    + intros _ Hr. destruct bestc' as [c|]; [now exists c|].
      exfalso. apply H5; trivial. lia.
    + intros _ Hall. now rewrite H6.
Qed.

(** ** Cells and their colours *)

Lemma bit_test_one c c' : 0 <= c -> bit_test (bit_set 0 c) c' = (c' =? c).
Proof.
  intros Hc. destruct (Z.ltb_spec c' 0) as [Hn|Hp].
  - unfold bit_test. rewrite Z.testbit_neg_r by lia. symmetry. apply Z.eqb_neq. lia.
  - rewrite bit_test_set, bit_test_zero by lia. reflexivity.
Qed.

Lemma filter_all_false (f : Z -> bool) l :
  (forall x, In x l -> f x = false) -> List.filter f l = [].
Proof.
  induction l as [|x l IH]; intros H; [reflexivity|]. simpl.
  rewrite (H x) by now left. apply IH. intros y Hy. apply H. now right.
Qed.

Lemma filter_one (f : Z -> bool) c l :
  List.NoDup l -> In c l -> (forall x, f x = (x =? c)) -> length (List.filter f l) = 1%nat.
Proof.
  intros Hnd Hin Hf. induction Hnd as [|x l Hx Hnd IH]; [destruct Hin|].
  simpl. rewrite Hf. destruct (Z.eqb_spec x c) as [->|Hne].
  - rewrite filter_all_false; [reflexivity|].
    intros y Hy. rewrite Hf. apply Z.eqb_neq. intros ->. contradiction.
  - destruct Hin as [->|Hin]; [congruence|]. now apply IH.
Qed.

Lemma count_bits_one m c : 0 <= c < m -> count_bits m (bit_set 0 c) = 1.
Proof.
  intros Hc. unfold count_bits.
  rewrite (filter_one _ c); [reflexivity|apply zrange_NoDup|now apply zrange_In|].
  intros x. apply bit_test_one. lia.
Qed.

(** X8: [guess_cell] leaves the cell with the guessed colour and no other,
    and with [n = 1]; it touches no other cell, nor the line arrays, nor the
    colours, clues and cell count of the puzzle. *)
Theorem guess_cell_one_colour pz so cell c :
  (cell < length (sol_cells so))%nat -> 0 <= c ->
  let pz' := fst (guess_cell pz so cell c) in
  let so' := snd (guess_cell pz so cell c) in
  (forall c', may_be (deref so' cell) c' = (c' =? c)) /\
  cell_n (deref so' cell) = 1 /\
  cell_line (deref so' cell) = cell_line (deref so cell) /\
  (forall p, p <> cell -> deref so' p = deref so p) /\
  sol_line so' = sol_line so /\ length (sol_cells so') = length (sol_cells so) /\
  (ptype pz', ncolor pz', nset pz', clue pz', ncells pz')
    = (ptype pz, ncolor pz, nset pz, clue pz, ncells pz).
Proof.
  intros Hv Hc pz' so'. subst pz' so'. rewrite guess_cell_sol.
  rewrite deref_store_same by assumption. cbn [cell_n cell_bit cell_line].
  split; [intros c'; now apply bit_test_one|]. split; [reflexivity|].
  split; [reflexivity|]. split; [intros p Hp; now apply deref_store_other|].
  split; [reflexivity|]. split; [apply same_grid_store|].
  unfold guess_cell. cbn [fst].
  destruct (add_jobs_frame
              (set_nsolved (nsolved (add_hist pz so cell true) + 1) (add_hist pz so cell true))
              (deref (store_cell so cell 1
                        (bit_set (bit_clearall (cell_bit (deref so cell))
                                    (ncolor (add_hist pz so cell true))) c)) cell))
    as (F1 & F2 & F3 & F4 & F5 & _).
  rewrite F1, F2, F3, F4, F5. reflexivity.
Qed.

(** A cell is sound when it has a colour and [n] is the number of its
    colours. *)
Definition cell_sound (m : Z) (c : Cell) : Prop :=
  1 <= cell_n c /\ cell_n c = count_bits m (cell_bit c).

Definition all_sound (m : Z) (so : Solution) : Prop := Forall (cell_sound m) (sol_cells so).

Lemma all_sound_deref m so p :
  all_sound m so -> (p < length (sol_cells so))%nat -> cell_sound m (deref so p).
Proof.
  intros H Hp. unfold deref. destruct (lookup_lt_is_Some_2 _ _ Hp) as [c Hc].
  rewrite Hc. cbn. unfold all_sound in H. rewrite Forall_lookup in H. eauto.
Qed.

Lemma all_sound_store m so p n b :
  all_sound m so -> 1 <= n -> n = count_bits m b -> all_sound m (store_cell so p n b).
Proof.
  intros H H1 H2. unfold all_sound, store_cell. cbn [sol_cells].
  apply Forall_insert; [exact H|]. split; assumption.
Qed.

Lemma try_colors_positive cell cs : forall puz so realbit realn hits,
  2 <= realn ->
  1 <= snd (fst (snd (try_colors cs puz so cell realbit realn hits))).
Proof.
  induction cs as [|c cs IH]; intros puz so realbit realn hits Hn; cbn [try_colors].
  - cbn. lia.
  - destruct (negb _); [now apply IH|].
    destruct (line_fails _ _ _); [|now apply IH].
    destruct (Z.eqb_spec (realn - 1) 1) as [E|E]; [cbn; lia|].
    apply IH. lia.
Qed.

Lemma try_cell_sound puz so hits cell :
  all_sound (ncolor puz) so ->
  all_sound (ncolor puz) (snd (fst (try_cell puz so hits cell))).
Proof.
  intros H. destruct (try_cell puz so hits cell) as [[puz' so'] hits'] eqn:E. cbn [fst snd].
  pose proof (try_cell_spec _ _ _ _ _ _ _ E) as (_ & B2 & _ & B4 & B5 & _).
  destruct (decide (cell < length (sol_cells so))%nat) as [Hv|Hd].
  2:{ rewrite store_cell_dangling in B2 by assumption. now subst so'. }
  destruct (all_sound_deref _ _ _ H Hv) as [S1 S2].
  rewrite B2. apply all_sound_store; [exact H| |lia].
  unfold try_cell in E.
  destruct (Z.eqb_spec (cell_n (deref so cell)) 1) as [E1|E1].
  - injection E as <- <- <-. lia.
  - pose proof (try_colors_positive cell (zrange (ncolor puz)) puz so
                  (cell_bit (deref so cell)) (cell_n (deref so cell)) hits) as P.
    destruct (try_colors _ _ _ _ _ _ _) as [[p1 s1] [[b1 n1] h1]] eqn:E2.
    pose proof (try_colors_spec cell puz so _ (zrange_nonneg _) _ _ _ _ _ _ _ _ _ _
                  (on_trial_refl _ _ _) E1 E2) as (I1 & _).
    destruct I1 as (_ & _ & _ & _ & _ & _ & J7).
    injection E as <- <- <-. cbn [fst snd] in P.
    rewrite J7, deref_store_same by assumption.
    cbn [cell_n]. apply P. lia.
Qed.

Lemma try_cells_sound cells : forall puz so hits,
  all_sound (ncolor puz) so ->
  all_sound (ncolor puz) (snd (fst (try_cells cells puz so hits))).
Proof.
  unfold try_cells.
  induction cells as [|cell cells IH]; intros puz so hits H; cbn [fold_left]; [exact H|].
  pose proof (try_cell_sound puz so hits cell H) as H1.
  destruct (try_cell puz so hits cell) as [[p1 s1] h1] eqn:E. cbn [fst snd] in H1.
  apply try_cell_spec in E. destruct E as ((_ & Hc & _) & _).
  rewrite <- Hc. apply IH. now rewrite Hc.
Qed.

(** X9: [n] stays the number of colours of a cell, and no cell is left
    without a colour: where every cell has a colour and [n] counts its
    colours below [ncolor], the same holds after [try_everything], and
    after [guess_cell] for a colour of the puzzle. *)
Theorem cells_stay_sound pz so :
  all_sound (ncolor pz) so ->
  all_sound (ncolor pz) (snd (snd (try_everything pz so))) /\
  (forall cell c, 0 <= c < ncolor pz ->
     all_sound (ncolor pz) (snd (guess_cell pz so cell c))).
Proof.
  intros H. split.
  - unfold try_everything.
    pose proof (try_cells_sound (all_cells so) pz so 0 H) as H1.
    destruct (try_cells _ _ _ _) as [[p1 s1] h1]. exact H1.
  - intros cell c Hc. rewrite guess_cell_sol.
    apply all_sound_store; [exact H|lia|]. now rewrite count_bits_one.
Qed.

(** X10: the count of neighbours never goes down while cells get solved:
    on the same line arrays, if every cell solved in [so] is solved in [so'],
    every cell has in [so'] at least the neighbours it has in [so]. *)
Theorem count_neighbors_grows so so' i j :
  sol_line so' = sol_line so ->
  (forall p, cell_n (deref so p) = 1 -> cell_n (deref so' p) = 1) ->
  count_neighbors so i j <= count_neighbors so' i j.
Proof.
  intros Hl Hs.
  assert (L : forall a b, line_cell so' 0 a b = line_cell so 0 a b)
    by (intros a b; unfold line_cell; now rewrite Hl).
  assert (N : forall a b, n_at so a b = 1 -> n_at so' a b = 1).
  { intros a b. unfold n_at. rewrite L. destruct (line_cell so 0 a b); [apply Hs|trivial]. }
  assert (M : sol_n so' 0 = sol_n so 0) by (unfold sol_n; now rewrite Hl).
  assert (B : forall (e : bool) a b,
            Z.b2z (e || (n_at so a b =? 1)) <= Z.b2z (e || (n_at so' a b =? 1))).
  { intros [|] a b; [reflexivity|]. cbn [orb].
    destruct (Z.eqb_spec (n_at so a b) 1) as [E|E].
    - rewrite (N _ _ E). reflexivity.
    - destruct (_ =? 1); cbn; lia. }
  unfold count_neighbors. rewrite M, L.
  pose proof (B (i =? 0) (i - 1) j) as B1.
  pose proof (B (i =? sol_n so 0 - 1) (i + 1) j) as B2.
  pose proof (B (j =? 0) i (j - 1)) as B3.
  pose proof (B (bool_decide (line_cell so 0 i (j + 1) = None)) i (j + 1)) as B4.
  destruct (_ || _), (_ || _), (_ || _), (_ || _), (_ || _), (_ || _), (_ || _), (_ || _);
    cbn in B1, B2, B3, B4; lia.
Qed.

(** X11: [logic_solve] returns 0 or 1: 1 only when the job list has run
    empty, 0 only after it has run a line at least. *)
Theorem logic_solve_codes fuel s rc s' :
  logic_solve fuel s = LDone rc s' ->
  rc = 1 /\ job (puz (world s')) = [] /\ nlines s <= nlines s' \/
  rc = 0 /\ nlines s < nlines s'.
Proof.
  revert s. induction fuel as [|f IH]; intros s; cbn [logic_solve]; [discriminate|].
  destruct (next_job (puz (world s))) as [[[dir i] puz']|] eqn:E.
  - destruct (apply_lro _ dir i) as [[|] w].
    + intros H. apply IH in H. cbn in H. destruct H as [(H1 & H2 & H3)|[H1 H2]].
      * left. split; [exact H1|]. split; [exact H2|lia].
      * right. split; [exact H1|lia].
    + intros [= <- <-]. right. split; [reflexivity|]. cbn. lia.
  - intros [= <- <-]. left. split; [reflexivity|]. split; [now apply next_job_none|lia].
Qed.

(** The loop of [try_everything] over cells that are all solved. *)
Lemma try_cells_solved cells : forall puz so hits,
  Forall (fun cell => cell_n (deref so cell) = 1) cells ->
  try_cells cells puz so hits = (puz, so, hits).
Proof.
  unfold try_cells.
  induction cells as [|cell cells IH]; intros puz so hits H; cbn [fold_left]; [reflexivity|].
  inversion H as [|? ? H1 H2]; subst. unfold try_cell at 2.
  rewrite H1. cbn [Z.eqb Pos.eqb]. now apply IH.
Qed.

(** X12: on a grid whose cells are all solved (and on a grid without cells)
    [try_everything] returns 0 and changes nothing. *)
Theorem try_everything_solved_grid pz so :
  (forall i j cell, line_cell so 0 i j = Some cell -> cell_n (deref so cell) = 1) ->
  try_everything pz so = (0, (pz, so)).
Proof.
  intros H. unfold try_everything.
  rewrite try_cells_solved; [reflexivity|].
  apply List.Forall_forall. intros cell Hin. unfold all_cells in Hin.
  apply in_concat in Hin. destruct Hin as (r & Hr & Hc).
  apply list_elem_of_In, list_elem_of_lookup in Hr. destruct Hr as [i Hi].
  apply list_elem_of_In, list_elem_of_lookup in Hc. destruct Hc as [j Hj].
  apply (H (Z.of_nat i) (Z.of_nat j)). unfold line_cell.
  destruct (zlookup (sol_line so) 0) as [rows|]; [|discriminate]. cbn in Hi |- *.
  rewrite (proj2 (zlookup_Some rows (Z.of_nat i) r))
    by (split; [lia|now rewrite Nat2Z.id]).
  cbn. apply zlookup_Some. split; [lia|now rewrite Nat2Z.id].
Qed.

(** The loop of [probe_cell] over colours that are not possible or are in
    the pad, without merging. *)
Lemma probe_colors_skipped cs cell i j v :
  merging (world (p_state v)) = false ->
  (forall c, In c cs -> may_be (deref (sol (world (p_state v))) cell) c = true ->
     bit_test (propad (world (p_state v)) cell) c = true) ->
  probe_colors cs cell i j v = inl v.
Proof.
  intros Hm. induction cs as [|c cs IH]; intros H; cbn [probe_colors]; [reflexivity|].
  unfold probe_color.
  destruct (may_be _ c) eqn:E.
  - rewrite (H c) by (trivial; now left). unfold when_merging. rewrite Hm.
    destruct v as [st bn bc fb lg]. cbn [p_state p_bestnleft p_bestc p_foundbetter p_log] in *.
    apply IH. intros c' Hc'. apply H. now right.
  - apply IH. intros c' Hc'. apply H. now right.
Qed.

(** X13: a cell whose possible colours are all in the probe pad (each was set
    in the course of an earlier probe) costs no probe: without merging,
    [probe_cell] returns 0 with [*bestnleft] and [*bestc] as they were and
    the state untouched but for the flag [merging]. *)
Theorem probe_cell_all_probed cfg s cell i j b0 c0 log :
  mergeprobe cfg = false ->
  (forall c, 0 <= c < ncolor (puz (world s)) ->
     may_be (deref (sol (world s)) cell) c = true ->
     bit_test (propad (world s) cell) c = true) ->
  probe_cell cfg s cell i j b0 c0 log =
  PRet 0 (mkPVars (upd_world (set_merging false) s) b0 c0 0 log).
Proof.
  intros Hm H. unfold probe_cell. rewrite Hm.
  rewrite probe_colors_skipped.
  - reflexivity.
  - reflexivity.
  - intros c Hc. apply zrange_In in Hc. cbn in Hc |- *. now apply H.
Qed.

(** ** What [solve] returns *)

Lemma logic_solve_rc fuel : forall s rc s',
  logic_solve fuel s = LDone rc s' ->
  rc = 1 /\ job (puz (world s')) = [] \/ rc = 0 /\ nlines s < nlines s'.
Proof.
  induction fuel as [|f IH]; intros s rc s'; cbn [logic_solve]; [discriminate|].
  destruct (next_job (puz (world s))) as [[[dir i] puz']|] eqn:E.
  - destruct (apply_lro _ dir i) as [[|] w].
    + intros H. apply IH in H. cbn in H. destruct H as [H|[H1 H2]]; [now left|right].
      split; [exact H1|lia].
    + intros [= <- <-]. right. split; [reflexivity|]. cbn. lia.
  - intros [= <- <-]. left. split; [reflexivity|]. now apply next_job_none.
Qed.

Lemma solve_loop_rc cfg fuel : forall s lv rc s',
  solve_loop cfg fuel s lv = Ret rc s' ->
  rc = 0 \/
  rc = 1 /\ job (puz (world s')) = [] /\
  (nsolved (puz (world s')) = ncells (puz (world s')) \/ maybacktrack cfg = false).
Proof.
  induction fuel as [|f IH]; intros s lv rc s'; cbn [solve_loop]; [discriminate|].
  destruct (logic_solve f s) as [rc0 s1|s1] eqn:EL; [|discriminate].
  apply logic_solve_rc in EL.
  destruct (Z.eqb_spec rc0 0) as [E0|E0]; cbn [negb].
  - destruct (st_backtrack _) as [[|] s3]; [intros [= <- <-]; now left|apply IH].
  - destruct EL as [[_ Hj]|[? _]]; [|contradiction].
    destruct (Z.eqb_spec (nsolved (puz (world s1))) (ncells (puz (world s1)))) as [En|En].
    { intros [= <- <-]. right. split; [reflexivity|]. split; [exact Hj|now left]. }
    assert (Hidle : forall hits s2,
              (if tryharder cfg && bool_decide (history (puz (world s1)) = [])
               then st_try_everything s1 else (0, s1)) = (hits, s2) ->
              hits = 0 -> s2 = s1).
    { intros hits s2. destruct (_ && _).
      - intros E ->. pose proof (st_try_everything_idle s1) as I.
        rewrite E in I. now apply I.
      - now intros [= <- <-]. }
    destruct (if tryharder cfg && _ then _ else _) as [hits s2].
    specialize (Hidle hits s2 eq_refl).
    destruct (Z.eqb_spec hits 0) as [Eh|Eh]; cbn [negb]; [|apply IH].
    rewrite (Hidle Eh).
    destruct (maybacktrack cfg) eqn:Eb; cbn [negb].
    2:{ intros [= <- <-]. right. split; [reflexivity|]. split; [exact Hj|now right]. }
    destruct (mayprobe cfg).
    + destruct (if negb (l_probing lv) then _ else _) as [s3 lv3].
      destruct (scan f s3 lv3) as [s4 lv4 cell|s4 lv4|s4 lv4|s4];
        try discriminate; try apply IH.
      destruct (_ =? INT_MAX); [discriminate|].
      destruct (line_cell _ _ _ _); [apply IH|discriminate].
    + destruct (pick_a_cell _ _) as [| |cell]; [discriminate|intros [= <- <-]; now left|].
      destruct (pick_color _ _ _); [apply IH|discriminate].
Qed.

(** X14: [solve] returns 0 or 1 and nothing else.  It returns 1 with an
    empty job list when the puzzle has two colours or more, and with cells
    left unsolved by the count ([nsolved] is not [ncells]) only if guessing
    is disabled. *)
Theorem solve_returns_0_or_1 cfg fuel s rc s' :
  solve cfg fuel s = Ret rc s' ->
  (rc = 0 \/ rc = 1) /\
  (rc = 1 -> 2 <= ncolor (puz (world s)) -> job (puz (world s')) = []) /\
  (rc = 1 -> nsolved (puz (world s')) <> ncells (puz (world s')) ->
   maybacktrack cfg = false).
Proof.
  unfold solve. destruct (Z.ltb_spec (ncolor (puz (world s))) 2) as [Hlt|Hge].
  - intros [= <- <-]. split; [now right|]. split; [lia|]. intros _ H. now contradiction H.
  - intros H. apply solve_loop_rc in H.
    destruct H as [->|(-> & Hj & Hs)].
    + split; [now left|]. split; discriminate.
    + split; [now right|]. split; [intros _ _; exact Hj|].
      intros _ Hn. destruct Hs as [Hs|Hs]; [contradiction|exact Hs].
Qed.

(** X15: on a puzzle that is solved by the count, with no job waiting,
    [solve] returns 1 at once and leaves the state as it is, whatever the
    options. *)
Theorem solve_solved_puzzle cfg fuel s :
  2 <= ncolor (puz (world s)) ->
  job (puz (world s)) = [] ->
  nsolved (puz (world s)) = ncells (puz (world s)) ->
  solve cfg (S (S fuel)) s = Ret 1 s.
Proof.
  intros Hc Hj Hn. unfold solve.
  destruct (Z.ltb_spec (ncolor (puz (world s))) 2); [lia|].
  cbn [solve_loop]. rewrite (logic_solve_no_job fuel s Hj). cbn [Z.eqb negb].
  now rewrite Hn, Z.eqb_refl.
Qed.

(** ** A probe sequence without a cell to probe *)

Definition no_candidate (so : Solution) : Prop :=
  forall i j cell, line_cell so 0 i j = Some cell -> cell_n (deref so cell) < 2.

Lemma probe_neighbors_none cfg ns ci cj v :
  no_candidate (sol (world (q_state v))) ->
  probe_neighbors cfg ns ci cj v = inl v.
Proof.
  intros H. induction ns as [|n ns IH]; cbn [probe_neighbors]; [reflexivity|].
  destruct (neighbor _ ci cj n) as [[i j]|]; [|exact IH].
  destruct (line_cell _ D_ROW i j) as [cell|] eqn:E; [|exact IH].
  apply H in E. destruct (Z.ltb_spec (cell_n (deref (sol (world (q_state v))) cell)) 2);
    [exact IH|lia].
Qed.

Lemma probe_history_none cfg k v :
  no_candidate (sol (world (q_state v))) ->
  probe_history cfg k v = inl v.
Proof.
  intros H. induction k as [|k IH]; cbn [probe_history]; [reflexivity|].
  destruct (hist_at _ k) as [h|]; [|reflexivity].
  rewrite probe_neighbors_none by assumption.
  destruct (h_branch h); [reflexivity|exact IH].
Qed.

Lemma probe_row_none cfg i r v : forall j,
  Forall (fun cell => cell_n (deref (sol (world (q_state v))) cell) < 2) r ->
  probe_row cfg i j r v = inl v.
Proof.
  induction r as [|cell r IH]; intros j H; cbn [probe_row]; [reflexivity|].
  inversion H as [|? ? H1 H2]; subst. unfold probe_full_cell.
  destruct (Z.ltb_spec (cell_n (deref (sol (world (q_state v))) cell)) 2); [|lia].
  now apply IH.
Qed.

Lemma probe_rows_none cfg rows v : forall i,
  Forall (Forall (fun cell => cell_n (deref (sol (world (q_state v))) cell) < 2)) rows ->
  probe_rows cfg i rows v = inl v.
Proof.
  induction rows as [|r rows IH]; intros i H; cbn [probe_rows]; [reflexivity|].
  inversion H as [|? ? H1 H2]; subst.
  rewrite probe_row_none by assumption. now apply IH.
Qed.

(** X16: when no cell of the rows has two colours or more, [probe] makes no
    probe and the program exits (found no cells to probe on), in the state
    it was called in but for the cleared pad and the flag [probing], which
    stays set. *)
Theorem probe_without_candidate cfg s bi bj bc :
  no_candidate (sol (world s)) ->
  probe cfg s bi bj bc = QAbort (upd_world (fun w => set_probing true (init_probepad w)) s).
Proof.
  intros H. unfold probe, probe_passes.
  set (s0 := upd_world _ s).
  assert (H0 : no_candidate (sol (world s0))) by exact H.
  assert (E1 : (if probelevel cfg >? 1
                then probe_history cfg (length (history (puz (world s0))))
                       (mkQVars s0 INT_MAX bi bj bc [])
                else inl (mkQVars s0 INT_MAX bi bj bc [])) =
               inl (mkQVars s0 INT_MAX bi bj bc [])).
  { destruct (_ >? 1); [|reflexivity]. now apply probe_history_none. }
  rewrite E1. rewrite probe_rows_none; [reflexivity|].
  cbn [q_state]. apply List.Forall_forall. intros r Hr. apply List.Forall_forall. intros cell Hc.
  apply list_elem_of_In, list_elem_of_lookup in Hr. destruct Hr as [i Hi].
  apply list_elem_of_In, list_elem_of_lookup in Hc. destruct Hc as [j Hj].
  apply (H0 (Z.of_nat i) (Z.of_nat j)). unfold line_cell.
  change D_ROW with 0 in Hi.
  destruct (zlookup (sol_line (sol (world s0))) 0) as [rows|]; [|discriminate]. cbn in Hi |- *.
  rewrite (proj2 (zlookup_Some rows (Z.of_nat i) r))
    by (split; [lia|now rewrite Nat2Z.id]).
  cbn. apply zlookup_Some. split; [lia|now rewrite Nat2Z.id].
Qed.

(** ** The scan of [solve] for a cell to probe *)

Lemma next_color_Some m cell c c' :
  next_color m cell c = Some c' ->
  0 <= c' < m /\ c <= c' /\ may_be cell c' = true /\
  forall x, 0 <= x < c' -> c <= x -> may_be cell x = false.
Proof.
  unfold next_color. intros H.
  pose proof (find_zrange_min (fun x => (c <=? x) && may_be cell x) m) as F.
  rewrite H in F. destruct F as (F1 & F2 & F3).
  apply andb_true_iff in F2. destruct F2 as [F2 F4]. apply Z.leb_le in F2.
  repeat split; try lia; trivial.
  intros x Hx Hc. specialize (F3 x Hx). apply andb_false_iff in F3.
  destruct F3 as [F3|F3]; [apply Z.leb_gt in F3; lia|exact F3].
Qed.

(** The locals of [solve] outside the position of the scan. *)
Definition same_best (lv' lv : Locals) : Prop :=
  (l_probing lv', besti lv', bestj lv', bestc lv', bestnleft lv')
  = (l_probing lv, besti lv, bestj lv, bestc lv, bestnleft lv).

(** X17: the scan of [solve] stops for a probe only at a cell of the rows
    with two colours or more and two neighbours or more that are solved or
    edges, and at a colour the cell may have; it ends (all cells probed)
    only beyond the last row; and on the way it touches neither the
    counters nor the best guess so far. *)
Theorem scan_stops_at_candidate fuel : forall s lv,
  match scan fuel s lv with
  | ScanProbe s' lv' cell =>
      line_cell (sol (world s')) 0 (l_i lv') (l_j lv') = Some cell /\
      2 <= cell_n (deref (sol (world s')) cell) /\
      2 <= count_neighbors (sol (world s')) (l_i lv') (l_j lv') /\
      0 <= l_c lv' < ncolor (puz (world s')) /\
      may_be (deref (sol (world s')) cell) (l_c lv') = true /\
      same_best lv' lv /\
      (nlines s', guesses s', probes s', merges s') = (nlines s, guesses s, probes s, merges s)
  | ScanMerge s' lv' =>
      l_c lv' = 0 /\ same_best lv' lv /\
      (nlines s', guesses s', probes s', merges s') = (nlines s, guesses s, probes s, merges s)
  | ScanDone s' lv' =>
      sol_n (sol (world s')) 0 <= l_i lv' /\ same_best lv' lv /\
      (nlines s', guesses s', probes s', merges s') = (nlines s, guesses s, probes s, merges s)
  | ScanTimeout s' =>
      (nlines s', guesses s', probes s', merges s') = (nlines s, guesses s, probes s, merges s)
  end.
Proof.
  induction fuel as [|f IH]; intros s lv; cbn [scan]; [reflexivity|].
  assert (K : forall s1 lv1,
            same_best lv1 lv ->
            (nlines s1, guesses s1, probes s1, merges s1)
              = (nlines s, guesses s, probes s, merges s) ->
            match scan f s1 lv1 with
            | ScanProbe s' lv' cell =>
                line_cell (sol (world s')) 0 (l_i lv') (l_j lv') = Some cell /\
                2 <= cell_n (deref (sol (world s')) cell) /\
                2 <= count_neighbors (sol (world s')) (l_i lv') (l_j lv') /\
                0 <= l_c lv' < ncolor (puz (world s')) /\
                may_be (deref (sol (world s')) cell) (l_c lv') = true /\
                same_best lv' lv /\
                (nlines s', guesses s', probes s', merges s')
                  = (nlines s, guesses s, probes s, merges s)
            | ScanMerge s' lv' =>
                l_c lv' = 0 /\ same_best lv' lv /\
                (nlines s', guesses s', probes s', merges s')
                  = (nlines s, guesses s, probes s, merges s)
            | ScanDone s' lv' =>
                sol_n (sol (world s')) 0 <= l_i lv' /\ same_best lv' lv /\
                (nlines s', guesses s', probes s', merges s')
                  = (nlines s, guesses s, probes s, merges s)
            | ScanTimeout s' =>
                (nlines s', guesses s', probes s', merges s')
                  = (nlines s, guesses s, probes s, merges s)
            end).
  { intros s1 lv1 Hb Hc. specialize (IH s1 lv1). unfold same_best in *.
    destruct (scan f s1 lv1) as [s' lv' cell|s' lv'|s' lv'|s'].
    - destruct IH as (I1 & I2 & I3 & I4 & I5 & I6 & I7). repeat split; trivial; try lia;
        congruence.
    - destruct IH as (I1 & I2 & I3). repeat split; trivial; congruence.
    - destruct IH as (I1 & I2 & I3). repeat split; trivial; congruence.
    - congruence. }
  destruct (Z.ltb_spec (l_i lv) (sol_n (sol (world s)) 0)) as [Hi|Hi].
  2:{ repeat split. exact Hi. }
  destruct (line_cell (sol (world s)) 0 (l_i lv) (l_j lv)) as [cell|] eqn:Ec.
  2:{ apply K; reflexivity. }
  destruct (Z.ltb_spec (cell_n (deref (sol (world s)) cell)) 2) as [Hn|Hn].
  { apply K; reflexivity. }
  destruct (Z.geb_spec (count_neighbors (sol (world s)) (l_i lv) (l_j lv)) 2) as [Hv|Hv].
  2:{ apply K; reflexivity. }
  destruct (next_color _ _ (l_c lv)) as [c|] eqn:En.
  - apply next_color_Some in En. destruct En as (E1 & E2 & E3 & _).
    cbn [set_ijc l_i l_j l_c]. repeat split; trivial; lia.
  - unfold st_merge_check. destruct (merge_check (world s)) as [[|] w]; cbn [fst snd].
    + repeat split.
    + apply K; reflexivity.
Qed.

(** ** The codes of [probe_cell] and [probe] *)

(** From the calls of [probe_cell] to the two passes of [probe]: what every
    call keeps, both passes keep, and what every return from a call
    satisfies, a return from the passes does. *)
Section Passes.

Variable cfg : Config.
Variable P : QVars -> Prop.
Variable R : QRes -> Prop.

Hypothesis at_cell : forall cell i j v,
  P v -> match probe_at cfg cell i j v with inl v' => P v' | inr r => R r end.

Lemma probe_neighbors_lift ns ci cj : forall v,
  P v -> match probe_neighbors cfg ns ci cj v with inl v' => P v' | inr r => R r end.
Proof.
  induction ns as [|n ns IH]; intros v H; cbn [probe_neighbors]; [exact H|].
  destruct (neighbor _ ci cj n) as [[i j]|]; [|now apply IH].
  destruct (line_cell _ D_ROW i j) as [cell|]; [|now apply IH].
  destruct (cell_n _ <? 2); [now apply IH|].
  pose proof (at_cell cell i j v H) as HC.
  destruct (probe_at cfg cell i j v) as [v'|r]; [now apply IH|exact HC].
Qed.

Lemma probe_history_lift k : forall v,
  P v -> match probe_history cfg k v with inl v' => P v' | inr r => R r end.
Proof.
  induction k as [|k IH]; intros v H; cbn [probe_history]; [exact H|].
  destruct (hist_at _ k) as [h|]; [|exact H].
  match goal with |- context [probe_neighbors cfg ?ns ?ci ?cj v] =>
    pose proof (probe_neighbors_lift ns ci cj v H) as HC;
    destruct (probe_neighbors cfg ns ci cj v) as [v'|r] end; [|exact HC].
  destruct (h_branch h); [exact HC|now apply IH].
Qed.

Lemma probe_row_lift i r : forall j v,
  P v -> match probe_row cfg i j r v with inl v' => P v' | inr res => R res end.
Proof.
  induction r as [|cell r IH]; intros j v H; cbn [probe_row]; [exact H|].
  assert (HC : match probe_full_cell cfg i j cell v with
               | inl v' => P v' | inr res => R res end).
  { unfold probe_full_cell. destruct (cell_n _ <? 2); [exact H|].
    destruct (count_neighbors _ _ _ <? 2); [exact H|]. now apply at_cell. }
  destruct (probe_full_cell cfg i j cell v) as [v'|res]; [now apply IH|exact HC].
Qed.

Lemma probe_rows_lift rows : forall i v,
  P v -> match probe_rows cfg i rows v with inl v' => P v' | inr res => R res end.
Proof.
  induction rows as [|r rows IH]; intros i v H; cbn [probe_rows]; [exact H|].
  pose proof (probe_row_lift i r 0 v H) as HC.
  destruct (probe_row cfg i 0 r v) as [v'|res]; [now apply IH|exact HC].
Qed.

Lemma probe_passes_lift s bi bj bc :
  P (mkQVars (upd_world (fun w => set_probing true (init_probepad w)) s) INT_MAX bi bj bc []) ->
  match probe_passes cfg s bi bj bc with inl v => P v | inr r => R r end.
Proof.
  intros H0. unfold probe_passes.
  set (v0 := mkQVars _ INT_MAX bi bj bc []) in *.
  set (pass1 := if probelevel cfg >? 1 then _ else _).
  assert (H1 : match pass1 with inl v => P v | inr r => R r end).
  { subst pass1. destruct (_ >? 1); [now apply probe_history_lift|exact H0]. }
  destruct pass1 as [v1|r]; [|exact H1].
  now apply probe_rows_lift.
Qed.

End Passes.

(** What the loop of [probe_cell] keeps of [*bestnleft] and [*bestc], which
    were [b0] and [c0] when it began. *)
Definition improving (b0 c0 : Z) (v : PVars) : Prop :=
  0 <= p_foundbetter v /\ p_bestnleft v <= b0 /\
  (p_foundbetter v = 0 -> p_bestnleft v = b0 /\ p_bestc v = c0) /\
  (0 < p_foundbetter v -> p_bestnleft v < b0).

(** A [return] from inside the loop. *)
Definition forced_return (r : PRes) : Prop :=
  match r with
  | PRet rc v => (rc = -2 \/ rc = -1) /\ probing (world (p_state v)) = false
  | PAbort _ => True
  end.

Lemma probe_color_codes cell i j c b0 c0 v :
  improving b0 c0 v ->
  match probe_color cell i j c v with
  | inl v' => improving b0 c0 v'
  | inr r => forced_return r
  end.
Proof.
  intros (H1 & H2 & H3 & H4). unfold probe_color.
  destruct (may_be _ c); [|exact (conj H1 (conj H2 (conj H3 H4)))].
  destruct (bit_test _ c).
  { unfold improving. cbn [p_foundbetter p_bestnleft p_bestc].
    split; [exact H1|]. split; [exact H2|]. split; [exact H3|exact H4]. }
  destruct (logic_solve3 _) as [rc s4].
  destruct (rc =? 0).
  - destruct (Z.ltb_spec (ncells (puz (world s4)) - nsolved (puz (world s4)))
                (p_bestnleft v)) as [Hlt|Hge].
    + unfold improving. cbn [p_foundbetter p_bestnleft p_bestc].
      split; [lia|]. split; [lia|]. split; [lia|]. intros _. lia.
    + unfold improving. cbn [p_foundbetter p_bestnleft p_bestc].
      split; [exact H1|]. split; [exact H2|]. split; [exact H3|exact H4].
  - destruct (rc <? 0).
    + destruct (st_backtrack _) as [[|] s6]; [exact I|].
      split; [now right|reflexivity].
    + split; [now left|reflexivity].
Qed.

Lemma probe_colors_codes cs cell i j b0 c0 : forall v,
  improving b0 c0 v ->
  match probe_colors cs cell i j v with
  | inl v' => improving b0 c0 v'
  | inr r => forced_return r
  end.
Proof.
  induction cs as [|c cs IH]; intros v H; cbn [probe_colors]; [exact H|].
  pose proof (probe_color_codes cell i j c b0 c0 v H) as HC.
  destruct (probe_color cell i j c v) as [v'|r]; [now apply IH|exact HC].
Qed.

Lemma probe_cell_result cfg s cell i j b0 c0 log :
  match probe_cell cfg s cell i j b0 c0 log with
  | PRet rc v =>
      (rc = -2 \/ rc = -1) /\ probing (world (p_state v)) = false \/
      rc = p_foundbetter v /\ improving b0 c0 v
  | PAbort _ => True
  end.
Proof.
  unfold probe_cell.
  match goal with |- context [probe_colors ?cs cell i j ?pv] =>
    pose proof (probe_colors_codes cs cell i j b0 c0 pv) as HC;
    destruct (probe_colors cs cell i j pv) as [v|r] end.
  - assert (H : improving b0 c0 v).
    { apply HC. unfold improving. cbn. repeat split; try lia; reflexivity. }
    destruct (merging _); [|right; split; [reflexivity|exact H]].
    destruct (st_merge_check _) as [[|] s2].
    + left. split; [now right|reflexivity].
    + right. split; [reflexivity|exact H].
  - assert (H : forced_return r).
    { apply HC. unfold improving. cbn. repeat split; try lia; reflexivity. }
    destruct r as [rc v|s1]; [|exact I]. left. exact H.
Qed.

(** X18: [probe_cell] returns -2 or -1, with [probing] cleared, or the
    number of times it found a better guess; in that case [*bestnleft] has
    not gone up, it has gone down exactly when the result is positive, and
    with the result 0 [*bestnleft] and [*bestc] are as they were. *)
Theorem probe_cell_codes cfg s cell i j b0 c0 log rc v :
  probe_cell cfg s cell i j b0 c0 log = PRet rc v ->
  ((rc = -2 \/ rc = -1) /\ probing (world (p_state v)) = false) \/
  (0 <= rc /\ p_bestnleft v <= b0 /\
   (rc = 0 -> p_bestnleft v = b0 /\ p_bestc v = c0) /\
   (0 < rc <-> p_bestnleft v < b0)).
Proof.
  intros E. pose proof (probe_cell_result cfg s cell i j b0 c0 log) as H.
  rewrite E in H. destruct H as [H|[-> (H1 & H2 & H3 & H4)]]; [now left|right].
  split; [exact H1|]. split; [exact H2|]. split; [exact H3|].
  split; [exact H4|]. intros Hlt.
  destruct (Z.eq_dec (p_foundbetter v) 0) as [E0|E0]; [|lia].
  destruct (H3 E0) as [Hb _]. lia.
Qed.

Lemma probe_at_codes cfg cell i j v :
  True ->
  match probe_at cfg cell i j v with
  | inl _ => True
  | inr r =>
      match r with
      | QRet rc v' => (rc = -1 \/ rc = 1) /\ probing (world (q_state v')) = false
      | QAbort _ => True
      end
  end.
Proof.
  intros _. unfold probe_at.
  pose proof (probe_cell_result cfg (q_state v) cell i j (q_bestnleft v) (q_bestc v) (q_log v))
    as H.
  destruct (probe_cell _ _ _ _ _ _ _ _) as [rc pv|s1]; [|exact I].
  destruct (Z.ltb_spec rc 0) as [Hn|Hp].
  - destruct H as [[[-> | ->] Hpr]|[-> (H1 & _)]]; [| |lia].
    + split; [now right|exact Hpr].
    + split; [now left|exact Hpr].
  - destruct (rc >? 0); exact I.
Qed.

(** X19: [probe] returns -1, 0 or 1, and whenever it returns the flag
    [probing] is cleared. *)
Theorem probe_codes cfg s bi bj bc rc v :
  probe cfg s bi bj bc = QRet rc v ->
  (rc = -1 \/ rc = 0 \/ rc = 1) /\ probing (world (q_state v)) = false.
Proof.
  unfold probe.
  pose proof (probe_passes_lift cfg (fun _ => True)
                (fun r => match r with
                          | QRet rc v' =>
                              (rc = -1 \/ rc = 1) /\ probing (world (q_state v')) = false
                          | QAbort _ => True
                          end)
                (probe_at_codes cfg) s bi bj bc I) as H.
  destruct (probe_passes cfg s bi bj bc) as [v2|r].
  - destruct (_ =? INT_MAX); [discriminate|].
    intros [= <- <-]. split; [right; now left|reflexivity].
  - intros ->. destruct H as [[->| ->] Hp]; (split; [|exact Hp]); tauto.
Qed.


(** ** The guess of [solve] on a consistent grid *)

Lemma count_solved_in_unsolved l :
  count_solved_in l <> Z.of_nat (length l) ->
  exists p c, l !! p = Some c /\ cell_n c <> 1.
Proof.
  induction l as [|c l IH]; cbn [count_solved_in length]; [lia|].
  unfold solved. destruct (Z.eqb_spec (cell_n c) 1) as [E|E].
  - intros H. destruct IH as (p & c' & H1 & H2); [lia|]. now exists (S p), c'.
  - intros _. now exists O, c.
Qed.

(** X21: when [solve] has to guess, [pick_a_cell] finds a cell: on a grid
    whose counters are right ([nsolved] is the number of solved cells,
    [ncells] the number of cells, all of them in the rows) and that is not
    solved, its result is a cell and not NULL. *)
Theorem pick_a_cell_finds_unsolved pz so :
  ptype pz = PT_GRID ->
  nsolved pz = count_solved so ->
  ncells pz = Z.of_nat (length (sol_cells so)) ->
  (forall p, (p < length (sol_cells so))%nat -> exists i j, line_cell so 0 i j = Some p) ->
  nsolved pz <> ncells pz ->
  exists cell, pick_a_cell pz so = PickCell cell /\ cell_n (deref so cell) <> 1.
Proof.
  intros Hg Hs Hc Hr Hn.
  destruct (count_solved_in_unsolved (sol_cells so)) as (p & c & H1 & H2).
  { unfold count_solved in Hs. lia. }
  destruct (Hr p) as (i & j & Hij); [eapply lookup_lt_Some; eassumption|].
  assert (Hp : cell_n (deref so p) <> 1) by (unfold deref; now rewrite H1).
  unfold pick_a_cell. rewrite Hg. cbn [Z.eqb PT_GRID negb].
  rewrite pick_rows_list.
  pose proof (pick_list_found pz so (rows_order 0 (default [] (zlookup (sol_line so) 0)))
                [] (-1, 0, 0%nat) (pick_found_nothing pz so (-1, 0, 0%nat) eq_refl)
                (List.Forall_nil _)) as H.
  cbn [app] in H. apply rows_order_line_cell in Hij.
  destruct (pick_list _ _ _ _) as [[[maxv minrate] favcell]|c0].
  - destruct H as [[[-> H]|(pre & i0 & j0 & post & E & F1 & F2 & _)] _].
    + rewrite List.Forall_forall in H. specialize (H _ Hij). cbn in H. contradiction.
    + pose proof (count_neighbors_range so i0 j0) as R.
      destruct (Z.eqb_spec maxv (-1)) as [|_]; [lia|]. now exists favcell.
  - destruct H as (pre & i0 & j0 & post & E & F1 & _). now exists c0.
Qed.

Lemma filter_two (f : Z -> bool) l :
  List.NoDup l -> (2 <= length (List.filter f l))%nat ->
  exists x y, x <> y /\ In x l /\ In y l /\ f x = true /\ f y = true.
Proof.
  intros Hnd Hlen.
  pose proof (List.NoDup_filter f Hnd) as Hnf.
  destruct (List.filter f l) as [|x [|y r]] eqn:E; cbn in Hlen; try lia.
  assert (Hx : In x (List.filter f l)) by (rewrite E; now left).
  assert (Hy : In y (List.filter f l)) by (rewrite E; right; now left).
  apply filter_In in Hx. apply filter_In in Hy.
  exists x, y. repeat split; try tauto.
  inversion Hnf as [|? ? Hx' _]; subst. intros ->. apply Hx'. now left.
Qed.

Lemma two_colours m b :
  2 <= count_bits m b ->
  exists c1 c2, 0 <= c1 < c2 /\ c2 < m /\ bit_test b c1 = true /\ bit_test b c2 = true.
Proof.
  unfold count_bits. intros H.
  destruct (filter_two (bit_test b) (zrange m) (zrange_NoDup m)) as (x & y & Hne & Hx & Hy & Fx & Fy);
    [lia|].
  apply zrange_In in Hx. apply zrange_In in Hy.
  destruct (Z.lt_total x y) as [Hlt|[Heq|Hgt]]; [|contradiction|].
  - exists x, y. repeat split; trivial; lia.
  - exists y, x. repeat split; trivial; lia.
Qed.

(** X22: on a cell with two colours or more, [n] being the number of its
    colours, no variant of [pick_color] fails: the call of [fail] ("Picked
    a cell to guess on with one color") is not reached from such a cell. *)
Theorem pick_color_two_colours pz so cell :
  cell_n (deref so cell) = count_bits (ncolor pz) (cell_bit (deref so cell)) ->
  2 <= cell_n (deref so cell) ->
  pick_color_max pz so cell <> None /\
  pick_color_min pz so cell <> None /\
  pick_color_contrast pz so cell <> None /\
  (forall RAND_MAX rand, pick_color_rand RAND_MAX rand pz so cell <> None).
Proof.
  intros Hs Hn. rewrite Hs in Hn.
  destruct (two_colours _ _ Hn) as (c1 & c2 & H1 & H2 & F1 & F2).
  change (may_be (deref so cell) c1 = true) in F1.
  change (may_be (deref so cell) c2 = true) in F2.
  split; [|split; [|split]].
  - unfold pick_color_max.
    pose proof (find_zrange_max (may_be (deref so cell)) (ncolor pz)) as H.
    destruct (List.find _ _) as [c|]; cbn [default from_option id].
    + destruct H as (_ & _ & H3). destruct (Z.leb_spec c 0); [|discriminate].
      rewrite (H3 c2) in F2 by lia. discriminate.
    + rewrite (H c2) in F2 by lia. discriminate.
  - unfold pick_color_min.
    pose proof (find_zrange_min (may_be (deref so cell)) (ncolor pz)) as H.
    destruct (List.find _ _) as [c|]; cbn [default from_option id].
    + destruct H as (_ & _ & H3). destruct (Z.geb_spec c (ncolor pz - 1)); [|discriminate].
      rewrite (H3 c1) in F1 by lia. discriminate.
    + rewrite (H c1) in F1 by lia. discriminate.
  - unfold pick_color_contrast.
    pose proof (contrast_fold so cell (line_of (deref so cell) 0) (line_of (deref so cell) 1)
                  (zrange (ncolor pz)) [] (None, -1)) as H.
    cbn [app fst snd] in H.
    destruct H as [[_ H]|(pre & c & post & _ & H & _)].
    { left. repeat split. constructor. }
    + rewrite List.Forall_forall in H. rewrite (H c1) in F1; [discriminate|].
      apply zrange_In. lia.
    + rewrite H. discriminate.
  - intros RAND_MAX rand. unfold pick_color_rand.
    pose proof (rand_fold RAND_MAX rand so cell (zrange (ncolor pz)) O None 0 eq_refl) as H.
    destruct (fold_left _ _ _) as [[k' bestc'] n'].
    destruct H as (H & _).
    assert (Hm : n' = count_bits (ncolor pz) (cell_bit (deref so cell)))
      by (rewrite H; reflexivity).
    destruct (Z.leb_spec n' 1); [lia|discriminate].
Qed.

End More.

(** * The properties at work *)

Section MoreExamples.

#[local] Existing Instance Demo.collab.

(** The grid of three rows and columns with nothing known. *)
Definition latin3_puz : Puzzle := puz (world Demo.latin3).
Definition latin3_sol : Solution := sol (world Demo.latin3).




Lemma latin3_cells : (4 < length (sol_cells latin3_sol))%nat.
Proof. vm_compute. lia. Qed.

(** X8 at work: the guess of black on the cell in the middle. *)
Lemma guess_cell_one_colour_witness :
  (forall c', may_be (deref (snd (guess_cell latin3_puz latin3_sol 4 1)) 4%nat) c' = (c' =? 1)) /\
  cell_n (deref (snd (guess_cell latin3_puz latin3_sol 4 1)) 4%nat) = 1.
Proof.
  destruct (guess_cell_one_colour latin3_puz latin3_sol 4 1 latin3_cells)
    as (H1 & H2 & _); [lia|].
  split; [exact H1|exact H2].
Defined.

Lemma latin3_sound : all_sound (ncolor latin3_puz) latin3_sol.
Proof.
  apply List.Forall_forall. intros c Hc. vm_compute in Hc.
  repeat (destruct Hc as [<-|Hc]; [split; [vm_compute; discriminate|reflexivity]|]).
  destruct Hc.
Qed.

(** X9 at work: the grid with nothing known stays sound under the exhaustive
    check and under a guess of either colour. *)
Lemma cells_stay_sound_witness :
  all_sound (ncolor latin3_puz) (snd (snd (try_everything latin3_puz latin3_sol))) /\
  (forall cell c, 0 <= c < ncolor latin3_puz ->
     all_sound (ncolor latin3_puz) (snd (guess_cell latin3_puz latin3_sol cell c))).
Proof. exact (cells_stay_sound latin3_puz latin3_sol latin3_sound). Defined.

(** The same grid with black in the second cell of the first row. *)
Definition latin3_one : Solution := store_cell latin3_sol 1 1 Demo.black.

Lemma latin3_one_lines : sol_line latin3_one = sol_line latin3_sol.
Proof. reflexivity. Qed.

Lemma latin3_none_solved p :
  cell_n (deref latin3_sol p) = 1 -> cell_n (deref latin3_one p) = 1.
Proof.
  do 9 (destruct p as [|p]; [vm_compute; congruence|]). vm_compute. congruence.
Qed.

(** X10 at work: the first corner gains a neighbour. *)
Lemma count_neighbors_grows_witness :
  count_neighbors latin3_sol 0 0 <= count_neighbors latin3_one 0 0 /\
  count_neighbors latin3_sol 0 0 = 2 /\ count_neighbors latin3_one 0 0 = 3.
Proof.
  split; [|split; reflexivity].
  exact (count_neighbors_grows latin3_sol latin3_one 0 0 latin3_one_lines latin3_none_solved).
Defined.

Lemma blank_row_run :
  logic_solve 8 Demo.blank_row_queued
  = LDone 1 (lres_state (logic_solve 8 Demo.blank_row_queued)).
Proof. vm_compute. reflexivity. Qed.

(** X11 at work: propagation from the queued first row. *)
Lemma logic_solve_codes_witness :
  1 = 1 /\ job (puz (world (lres_state (logic_solve 8 Demo.blank_row_queued)))) = [] /\
  nlines Demo.blank_row_queued <= nlines (lres_state (logic_solve 8 Demo.blank_row_queued)) \/
  1 = 0 /\
  nlines Demo.blank_row_queued < nlines (lres_state (logic_solve 8 Demo.blank_row_queued)).
Proof. exact (logic_solve_codes 8 Demo.blank_row_queued 1 _ blank_row_run). Defined.

Lemma finished_solved i j cell :
  line_cell (sol (world Demo.finished)) 0 i j = Some cell ->
  cell_n (deref (sol (world Demo.finished)) cell) = 1.
Proof.
  intros H. apply rows_order_line_cell in H. vm_compute in H.
  destruct H as [[= <- <- <-]|[]]. reflexivity.
Qed.

(** X12 at work: the grid of one solved cell. *)
Lemma try_everything_solved_grid_witness :
  try_everything (puz (world Demo.finished)) (sol (world Demo.finished))
  = (0, (puz (world Demo.finished), sol (world Demo.finished))).
Proof.
  exact (try_everything_solved_grid (puz (world Demo.finished)) (sol (world Demo.finished))
           finished_solved).
Defined.

(** The grid with nothing known after a probe sequence that has set both
    colours in the pad entry of the first cell. *)
Definition latin3_padded : State :=
  upd_world (set_probepad [Demo.any]) Demo.latin3.

Lemma latin3_padded_all c :
  0 <= c < ncolor (puz (world latin3_padded)) ->
  may_be (deref (sol (world latin3_padded)) 0%nat) c = true ->
  bit_test (propad (world latin3_padded) 0%nat) c = true.
Proof.
  intros Hc _. assert (E : c = 0 \/ c = 1) by (change (0 <= c < 2) in Hc; lia).
  destruct E as [-> | ->]; reflexivity.
Qed.

(** X13 at work. *)
Lemma probe_cell_all_probed_witness :
  probe_cell Demo.cfg_logic latin3_padded 0 0 0 INT_MAX 0 [] =
  PRet 0 (mkPVars (upd_world (set_merging false) latin3_padded) INT_MAX 0 0 []).
Proof.
  exact (probe_cell_all_probed Demo.cfg_logic latin3_padded 0 0 0 INT_MAX 0 [] eq_refl
           latin3_padded_all).
Defined.

Lemma latin3_stuck : solve Demo.cfg_logic 3 Demo.latin3 = Ret 1 Demo.latin3.
Proof. vm_compute. reflexivity. Qed.

(** X14 at work: without guessing, [solve] returns 1 on the grid the line
    solver cannot touch, with cells unsolved. *)
Lemma solve_returns_0_or_1_witness :
  (1 = 0 \/ 1 = 1) /\
  (1 = 1 -> 2 <= ncolor (puz (world Demo.latin3)) -> job (puz (world Demo.latin3)) = []) /\
  (1 = 1 -> nsolved (puz (world Demo.latin3)) <> ncells (puz (world Demo.latin3)) ->
   maybacktrack Demo.cfg_logic = false).
Proof. exact (solve_returns_0_or_1 Demo.cfg_logic 3 Demo.latin3 1 Demo.latin3 latin3_stuck). Defined.

Lemma finished_colours : 2 <= ncolor (puz (world Demo.finished)).
Proof. vm_compute. discriminate. Qed.

(** X15 at work: the grid of one solved cell, with probing and guessing
    enabled. *)
Lemma solve_solved_puzzle_witness :
  solve Demo.cfg_probe 2 Demo.finished = Ret 1 Demo.finished.
Proof.
  exact (solve_solved_puzzle Demo.cfg_probe 0 Demo.finished finished_colours eq_refl eq_refl).
Defined.

Lemma finished_no_candidate : no_candidate (sol (world Demo.finished)).
Proof.
  intros i j cell H. rewrite (finished_solved i j cell H). lia.
Qed.

(** X16 at work: a probe sequence on the grid of one solved cell. *)
Lemma probe_without_candidate_witness :
  probe Demo.cfg_probe Demo.finished 0 0 0
  = QAbort (upd_world (fun w => set_probing true (init_probepad w)) Demo.finished).
Proof.
  exact (probe_without_candidate Demo.cfg_probe Demo.finished 0 0 0 finished_no_candidate).
Defined.

(** The variables of [probe_cell] after the probes on the first corner of
    the grid with nothing known. *)
Definition latin3_corner : PVars :=
  match probe_cell Demo.cfg_probe Demo.latin3 0 0 0 INT_MAX 0 [] with
  | PRet _ v => v
  | PAbort s => mkPVars s 0 0 0 []
  end.

Lemma latin3_corner_probed :
  probe_cell Demo.cfg_probe Demo.latin3 0 0 0 INT_MAX 0 [] = PRet 1 latin3_corner.
Proof. vm_compute. reflexivity. Qed.

(** X18 at work: the two probes on the first corner; the first is the
    better one. *)
Lemma probe_cell_codes_witness :
  ((1 = -2 \/ 1 = -1) /\ probing (world (p_state latin3_corner)) = false) \/
  (0 <= 1 /\ p_bestnleft latin3_corner <= INT_MAX /\
   (1 = 0 -> p_bestnleft latin3_corner = INT_MAX /\ p_bestc latin3_corner = 0) /\
   (0 < 1 <-> p_bestnleft latin3_corner < INT_MAX)).
Proof.
  exact (probe_cell_codes Demo.cfg_probe Demo.latin3 0 0 0 INT_MAX 0 [] 1 latin3_corner
           latin3_corner_probed).
Defined.

(** X19 at work: the probe sequence on the grid with nothing known. *)
Lemma probe_codes_witness :
  (0 = -1 \/ 0 = 0 \/ 0 = 1) /\
  probing (world (upd_world (set_probing false) (q_state Demo.latin3_probed))) = false.
Proof.
  exact (probe_codes Demo.cfg_probe Demo.latin3 7 7 7 0
           (mkQVars (upd_world (set_probing false) (q_state Demo.latin3_probed)) 8 0 0 0
              (q_log Demo.latin3_probed))
           latin3_probe).
Defined.

Lemma latin3_rows p :
  (p < length (sol_cells latin3_sol))%nat -> exists i j, line_cell latin3_sol 0 i j = Some p.
Proof.
  intros Hp. change (p < 9)%nat in Hp.
  destruct p as [|[|[|[|[|[|[|[|[|p]]]]]]]]]; [..|lia].
  all: first [ exists 0, 0; reflexivity | exists 0, 1; reflexivity | exists 0, 2; reflexivity
             | exists 1, 0; reflexivity | exists 1, 1; reflexivity | exists 1, 2; reflexivity
             | exists 2, 0; reflexivity | exists 2, 1; reflexivity | exists 2, 2; reflexivity ].
Qed.

Lemma latin3_unsolved : nsolved latin3_puz <> ncells latin3_puz.
Proof. vm_compute. discriminate. Qed.

(** X21 at work: the grid with nothing known. *)
Lemma pick_a_cell_finds_unsolved_witness :
  exists cell, pick_a_cell latin3_puz latin3_sol = PickCell cell /\
               cell_n (deref latin3_sol cell) <> 1.
Proof.
  exact (pick_a_cell_finds_unsolved latin3_puz latin3_sol eq_refl eq_refl eq_refl
           latin3_rows latin3_unsolved).
Defined.

Lemma latin3_two : 2 <= cell_n (deref latin3_sol 0%nat).
Proof. vm_compute. discriminate. Qed.

(** X22 at work: the first cell of that grid. *)
Lemma pick_color_two_colours_witness :
  pick_color_max latin3_puz latin3_sol 0 <> None /\
  pick_color_min latin3_puz latin3_sol 0 <> None /\
  pick_color_contrast latin3_puz latin3_sol 0 <> None /\
  (forall RAND_MAX rand, pick_color_rand RAND_MAX rand latin3_puz latin3_sol 0 <> None).
Proof. exact (pick_color_two_colours latin3_puz latin3_sol 0 eq_refl latin3_two). Defined.

End MoreExamples.
